(** * Dex: the force-directed graph view of [src/app.js]

    A shallow embedding of the graph part of the Dex single-page
    application: the neighbour index ([buildNeighbourMap]), the scene
    construction and the event handlers installed by [renderGraph], the
    physics [tick], [highlightSelection] and the selection callbacks;
    and, beside the graph, of the watchlist, the scoring of the
    suggestions and the community loader.

    Conventions.

    - JavaScript numbers are idealised as real numbers ([R]).  Rounding,
      [NaN] and the infinities are outside the model; the one [Infinity]
      of the source (the initial [minDist] of the click handler) is
      modelled by an absent value.
    - Objects that the source shares by reference are kept in arrays and
      referred to by index: a link's [source] and [target] are indices
      into the [nodes] array of the render pass (together with the node's
      immutable [id]), [undefined] when the lookup in [nodeMap] failed.
    - Plain JavaScript objects used as dictionaries ([map], [nodeMap],
      [clusterCenters]) are finite maps keyed by strings; ids that
      collide with a property inherited from [Object.prototype] are
      outside the model.
    - A handler is a function from the program state to a new state and
      an outcome; the outcome [None] is an uncaught [TypeError] (reading
      a property of [undefined]).  The state returned with it holds the
      mutations performed before the exception, as in the source.
    - The DOM is reduced to the attributes the handlers write: radius,
      position, opacity and stroke width of the visible circles and
      lines, and the position of the labels.  The enlarged hit targets
      mirror the visible elements and are left out. *)

From Stdlib Require Import Reals Lra Psatz Sorted.
From stdpp Require Import base gmap sets list strings.

Set Warnings "-clear-no-such-hyp".

(** ** A state monad with exceptions *)

Definition M (St A : Type) : Type := St -> St * option A.

Definition ret {St A} (a : A) : M St A := fun s => (s, Some a).

Definition bind {St A B} (m : M St A) (k : A -> M St B) : M St B :=
  fun s => match m s with
           | (s', Some a) => k a s'
           | (s', None) => (s', None)
           end.

Definition throw {St A} : M St A := fun s => (s, None).

Definition get {St} : M St St := fun s => (s, Some s).

Definition modify {St} (f : St -> St) : M St unit := fun s => (f s, Some tt).

(** Reading a property through a reference that may be [undefined]. *)
Definition deref {St A} (o : option A) : M St A :=
  match o with
  | Some a => ret a
  | None => throw
  end.

#[export] Instance M_ret {St} : MRet (M St) := fun A a => ret a.
#[export] Instance M_bind {St} : MBind (M St) := fun A B k m => bind m k.

(** [Array.prototype.forEach] with an effectful callback: the elements
    are visited in order (with their index) and an exception leaves the
    loop. *)
Fixpoint forEachFrom {St A} (f : A -> nat -> M St unit) (i : nat) (l : list A) : M St unit :=
  match l with
  | [] => ret tt
  | a :: l' => bind (f a i) (fun _ => forEachFrom f (S i) l')
  end.

Definition forEach {St A} (f : A -> nat -> M St unit) (l : list A) : M St unit :=
  forEachFrom f 0 l.

(** ** Comparisons of numbers *)

#[export] Instance R_eq_dec : EqDecision R := Req_dec_T.
#[export] Instance Rle_decision (a b : R) : Decision (a <= b)%R := Rle_dec a b.
#[export] Instance Rlt_decision (a b : R) : Decision (a < b)%R := Rlt_dec a b.

(** ** Data model *)

(** A node descriptor of [DATA.nodes]: the fields the graph view reads.
    [nd_size] is [None] when the property is absent. *)
Record NodeDesc := mkNodeDesc {
  nd_id : string;
  nd_name : string;
  nd_category : string;
  nd_size : option R
}.

(** A link descriptor of [DATA.links]. *)
Record LinkDesc := mkLinkDesc {
  ld_source : string;
  ld_target : string;
  ld_type : string;
  ld_description : string
}.

Record Dataset := mkDataset {
  data_nodes : list NodeDesc;
  data_links : list LinkDesc
}.

(** A simulation node: [Object.assign({}, n)] extended with position,
    velocity and force accumulator. *)
Record SimNode := mkSimNode {
  sn_desc : NodeDesc;
  sn_x : R;
  sn_y : R;
  sn_vx : R;
  sn_vy : R;
  sn_fx : R;
  sn_fy : R
}.

Definition sn_id (n : SimNode) : string := nd_id (sn_desc n).
Definition sn_category (n : SimNode) : string := nd_category (sn_desc n).

(** A reference to a simulation node of the current pass. *)
Record NodeRef := mkNodeRef {
  ref_index : nat;
  ref_id : string
}.

(** A simulation link; an endpoint is [None] when [nodeMap] had no entry
    for the id ([undefined] in the source). *)
Record SimLink := mkSimLink {
  l_source : option NodeRef;
  l_target : option NodeRef;
  l_type : string;
  l_description : string
}.

(** A link object as held by [selectedLink]: the pass that created it
    and its index there give its identity ([===]). *)
Record LinkObj := mkLinkObj {
  lo_pass : nat;
  lo_index : nat;
  lo_link : SimLink
}.

(** ** Neighbour index *)

(** [neighbourMap[a]], read as a set: empty when there is no entry. *)
Definition neighbours (m : gmap string (gset string)) (a : string) : gset string :=
  default ∅ (m !! a).

(** The callback of [DATA.links.forEach]: both entries are created when
    missing, then each endpoint is added to the set of the other. *)
Definition neighbourAdd (m : gmap string (gset string)) (l : LinkDesc) : gmap string (gset string) :=
  let m1 := <[ld_source l := neighbours m (ld_source l)]> m in
  let m2 := <[ld_target l := neighbours m1 (ld_target l)]> m1 in
  let m3 := <[ld_source l := neighbours m2 (ld_source l) ∪ {[ld_target l]}]> m2 in
  <[ld_target l := neighbours m3 (ld_target l) ∪ {[ld_source l]}]> m3.

Definition buildNeighbourMap (ls : list LinkDesc) : gmap string (gset string) :=
  foldl neighbourAdd ∅ ls.

(** ** Program state *)

(** The visible circle of a node.  Attributes never written are absent. *)
Record CircleEl := mkCircleEl {
  c_r : R;
  c_cx : option R;
  c_cy : option R;
  c_opacity : option R;
  c_stroke_width : option R
}.

(** The visible line of a link. *)
Record LineEl := mkLineEl {
  ln_x1 : option R;
  ln_y1 : option R;
  ln_x2 : option R;
  ln_y2 : option R;
  ln_opacity : option R;
  ln_stroke_width : R
}.

(** The label of a node. *)
Record TextEl := mkTextEl {
  t_x : option R;
  t_y : option R
}.

(** [dragOffset] and [panStart]. *)
Record Point := mkPoint {
  p_x : R;
  p_y : R
}.

(** The variables of one call of [renderGraph]: the arrays it assigns and
    the locals its closures capture. *)
Record Graph := mkGraph {
  g_pass : nat;
  width : R;
  height : R;
  clusterCenters : gmap string Point;
  links : list SimLink;
  nodes : list SimNode;
  nodeEls : list CircleEl;
  linkEls : list LineEl;
  textEls : list TextEl;
  draggingNode : option nat;
  dragOffset : Point;
  isPanning : bool;
  panStart : Point;
  tickCount : nat
}.

(** What the details panel shows, hence which handler its close button
    carries. *)
Inductive Panel := PanelDefault | PanelLink | PanelNode.

(** The module-level variables of [app.js] that the graph view uses, and
    the host's queue of animation-frame callbacks. *)
Record State := mkState {
  DATA : Dataset;
  selectedNode : option NodeDesc;
  selectedLink : option LinkObj;
  neighbourMap : option (gmap string (gset string));
  graph : option Graph;
  passes : nat;
  simulationId : option nat;
  pendingFrames : list nat;
  nextHandle : nat;
  offsetX : R;
  offsetY : R;
  scale : R;
  panel : Panel
}.

Definition initialState (d : Dataset) : State :=
  {| DATA := d; selectedNode := None; selectedLink := None;
     neighbourMap := None; graph := None; passes := 0;
     simulationId := None; pendingFrames := []; nextHandle := 1;
     offsetX := 0; offsetY := 0; scale := 1; panel := PanelDefault |}.

(** *** Field updates *)

Definition set_nodes (ns : list SimNode) (g : Graph) : Graph :=
  {| g_pass := g_pass g; width := width g; height := height g;
     clusterCenters := clusterCenters g; links := links g; nodes := ns;
     nodeEls := nodeEls g; linkEls := linkEls g; textEls := textEls g;
     draggingNode := draggingNode g; dragOffset := dragOffset g;
     isPanning := isPanning g; panStart := panStart g; tickCount := tickCount g |}.

Definition set_nodeEls (els : list CircleEl) (g : Graph) : Graph :=
  {| g_pass := g_pass g; width := width g; height := height g;
     clusterCenters := clusterCenters g; links := links g; nodes := nodes g;
     nodeEls := els; linkEls := linkEls g; textEls := textEls g;
     draggingNode := draggingNode g; dragOffset := dragOffset g;
     isPanning := isPanning g; panStart := panStart g; tickCount := tickCount g |}.

Definition set_linkEls (els : list LineEl) (g : Graph) : Graph :=
  {| g_pass := g_pass g; width := width g; height := height g;
     clusterCenters := clusterCenters g; links := links g; nodes := nodes g;
     nodeEls := nodeEls g; linkEls := els; textEls := textEls g;
     draggingNode := draggingNode g; dragOffset := dragOffset g;
     isPanning := isPanning g; panStart := panStart g; tickCount := tickCount g |}.

Definition set_textEls (els : list TextEl) (g : Graph) : Graph :=
  {| g_pass := g_pass g; width := width g; height := height g;
     clusterCenters := clusterCenters g; links := links g; nodes := nodes g;
     nodeEls := nodeEls g; linkEls := linkEls g; textEls := els;
     draggingNode := draggingNode g; dragOffset := dragOffset g;
     isPanning := isPanning g; panStart := panStart g; tickCount := tickCount g |}.

Definition set_drag (d : option nat) (off : Point) (g : Graph) : Graph :=
  {| g_pass := g_pass g; width := width g; height := height g;
     clusterCenters := clusterCenters g; links := links g; nodes := nodes g;
     nodeEls := nodeEls g; linkEls := linkEls g; textEls := textEls g;
     draggingNode := d; dragOffset := off;
     isPanning := isPanning g; panStart := panStart g; tickCount := tickCount g |}.

Definition set_pan (b : bool) (p : Point) (g : Graph) : Graph :=
  {| g_pass := g_pass g; width := width g; height := height g;
     clusterCenters := clusterCenters g; links := links g; nodes := nodes g;
     nodeEls := nodeEls g; linkEls := linkEls g; textEls := textEls g;
     draggingNode := draggingNode g; dragOffset := dragOffset g;
     isPanning := b; panStart := p; tickCount := tickCount g |}.

Definition set_tickCount (k : nat) (g : Graph) : Graph :=
  {| g_pass := g_pass g; width := width g; height := height g;
     clusterCenters := clusterCenters g; links := links g; nodes := nodes g;
     nodeEls := nodeEls g; linkEls := linkEls g; textEls := textEls g;
     draggingNode := draggingNode g; dragOffset := dragOffset g;
     isPanning := isPanning g; panStart := panStart g; tickCount := k |}.

Definition set_selection (n : option NodeDesc) (l : option LinkObj) (st : State) : State :=
  {| DATA := DATA st; selectedNode := n; selectedLink := l;
     neighbourMap := neighbourMap st; graph := graph st; passes := passes st;
     simulationId := simulationId st; pendingFrames := pendingFrames st;
     nextHandle := nextHandle st;
     offsetX := offsetX st; offsetY := offsetY st; scale := scale st;
     panel := panel st |}.

Definition set_graph (g : option Graph) (st : State) : State :=
  {| DATA := DATA st; selectedNode := selectedNode st; selectedLink := selectedLink st;
     neighbourMap := neighbourMap st; graph := g; passes := passes st;
     simulationId := simulationId st; pendingFrames := pendingFrames st;
     nextHandle := nextHandle st;
     offsetX := offsetX st; offsetY := offsetY st; scale := scale st;
     panel := panel st |}.

Definition set_view (ox oy s : R) (st : State) : State :=
  {| DATA := DATA st; selectedNode := selectedNode st; selectedLink := selectedLink st;
     neighbourMap := neighbourMap st; graph := graph st; passes := passes st;
     simulationId := simulationId st; pendingFrames := pendingFrames st;
     nextHandle := nextHandle st;
     offsetX := ox; offsetY := oy; scale := s;
     panel := panel st |}.

Definition set_panel (p : Panel) (st : State) : State :=
  {| DATA := DATA st; selectedNode := selectedNode st; selectedLink := selectedLink st;
     neighbourMap := neighbourMap st; graph := graph st; passes := passes st;
     simulationId := simulationId st; pendingFrames := pendingFrames st;
     nextHandle := nextHandle st;
     offsetX := offsetX st; offsetY := offsetY st; scale := scale st;
     panel := p |}.

Definition set_frames (sid : option nat) (pend : list nat) (next : nat) (st : State) : State :=
  {| DATA := DATA st; selectedNode := selectedNode st; selectedLink := selectedLink st;
     neighbourMap := neighbourMap st; graph := graph st; passes := passes st;
     simulationId := sid; pendingFrames := pend; nextHandle := next;
     offsetX := offsetX st; offsetY := offsetY st; scale := scale st;
     panel := panel st |}.

(** [simulationId = requestAnimationFrame(tick)]: the host queues the
    callback and returns a fresh handle. *)
Definition requestTick (st : State) : State :=
  set_frames (Some (nextHandle st)) (pendingFrames st ++ [nextHandle st])
             (S (nextHandle st)) st.

(** [if (simulationId !== null) { cancelAnimationFrame(simulationId);
    simulationId = null; }] *)
Definition cancelTick (st : State) : State :=
  match simulationId st with
  | Some h => set_frames None (filter (fun h' => h' ≠ h) (pendingFrames st)) (nextHandle st) st
  | None => st
  end.

(** ** Scene construction: [renderGraph] *)

Section Render.
Local Open Scope R_scope.

(** The callback of [DATA.nodes.map]: a copy of the descriptor at a random
    position.  [rnd k] is the value of the [k]-th call of [Math.random]
    in this pass. *)
Definition mkNode (w h : R) (rnd : nat -> R) (i : nat) (n : NodeDesc) : SimNode :=
  {| sn_desc := n;
     sn_x := rnd (2 * i)%nat * w; sn_y := rnd (2 * i + 1)%nat * h;
     sn_vx := 0; sn_vy := 0; sn_fx := 0; sn_fy := 0 |}.

Definition simNodes (w h : R) (rnd : nat -> R) (d : Dataset) : list SimNode :=
  imap (mkNode w h rnd) (data_nodes d).

(** [nodeMap[node.id] = node], in array order: a later node with the same
    id replaces an earlier one. *)
Fixpoint buildNodeMap (i : nat) (ns : list SimNode) (m : gmap string nat) : gmap string nat :=
  match ns with
  | [] => m
  | n :: ns' => buildNodeMap (S i) ns' (<[sn_id n := i]> m)
  end.

(** [nodeMap[key]], as a node reference. *)
Definition resolve (nodeMap : gmap string nat) (ns : list SimNode) (key : string) : option NodeRef :=
  i ← nodeMap !! key;
  n ← ns !! i;
  Some {| ref_index := i; ref_id := sn_id n |}.

(** The callback of [DATA.links.map]. *)
Definition mkLink (nodeMap : gmap string nat) (ns : list SimNode) (l : LinkDesc) : SimLink :=
  {| l_source := resolve nodeMap ns (ld_source l);
     l_target := resolve nodeMap ns (ld_target l);
     l_type := ld_type l;
     l_description := ld_description l |}.

Definition simLinks (ns : list SimNode) (d : Dataset) : list SimLink :=
  mkLink (buildNodeMap 0 ns ∅) ns <$> data_links d.

(** [node.size ? Math.max(4, 3 + node.size * 0.25) : 5].  The test is on
    the truthiness of [size]: an absent size and the number 0 are both
    falsy. *)
Definition radius (n : SimNode) : R :=
  match nd_size (sn_desc n) with
  | Some s => if decide (s = 0) then 5 else Rmax 4 (3 + s * 0.25)
  | None => 5
  end.

Definition newCircle (n : SimNode) : CircleEl :=
  {| c_r := radius n; c_cx := None; c_cy := None;
     c_opacity := None; c_stroke_width := None |}.

Definition newLine (l : SimLink) : LineEl :=
  {| ln_x1 := None; ln_y1 := None; ln_x2 := None; ln_y2 := None;
     ln_opacity := None; ln_stroke_width := 1 |}.

Definition newText (n : SimNode) : TextEl := {| t_x := None; t_y := None |}.

(** [[...new Set(nodes.map((n) => n.category))]]: the categories in the
    order of their first occurrence. *)
Definition categoriesOf (ns : list SimNode) : list string :=
  foldl (fun acc n => if decide (sn_category n ∈ acc) then acc else acc ++ [sn_category n])
        [] ns.

Definition clusterCentersOf (w h : R) (ns : list SimNode) : gmap string Point :=
  let categories := categoriesOf ns in
  let clusterRadius := Rmin w h * 0.4 in
  let angleStep := (2 * PI) / INR (length categories) in
  foldl (fun m '(idx, cat) =>
           let angle := INR idx * angleStep in
           <[cat := {| p_x := w / 2 + clusterRadius * cos angle;
                       p_y := h / 2 + clusterRadius * sin angle |}]> m)
        ∅ (imap pair categories).

(** The arrays and locals that [renderGraph()] sets up, for a container
    of size [w] x [h]. *)
Definition newGraph (pass : nat) (w h : R) (rnd : nat -> R) (d : Dataset) : Graph :=
  let ns := simNodes w h rnd d in
  let ls := simLinks ns d in
  {| g_pass := pass; width := w; height := h;
     clusterCenters := clusterCentersOf w h ns;
     links := ls; nodes := ns;
     nodeEls := newCircle <$> ns;
     linkEls := newLine <$> ls;
     textEls := newText <$> ns;
     draggingNode := None; dragOffset := {| p_x := 0; p_y := 0 |};
     isPanning := false; panStart := {| p_x := 0; p_y := 0 |};
     tickCount := 0 |}.

(** [renderGraph()]: the index is rebuilt, a running simulation is
    cancelled, the scene is rebuilt, the view is reset and the first tick
    is requested. *)
Definition renderGraph (w h : R) (rnd : nat -> R) (st : State) : State :=
  let st1 := cancelTick st in
  requestTick
    {| DATA := DATA st;
       selectedNode := selectedNode st; selectedLink := selectedLink st;
       neighbourMap := Some (buildNeighbourMap (data_links (DATA st)));
       graph := Some (newGraph (S (passes st)) w h rnd (DATA st));
       passes := S (passes st);
       simulationId := simulationId st1; pendingFrames := pendingFrames st1;
       nextHandle := nextHandle st1;
       offsetX := 0; offsetY := 0; scale := 1;
       panel := panel st |}.

End Render.

(** ** Geometry of the view *)

Section Geometry.
Local Open Scope R_scope.

(** A mouse event: [clientX], [clientY], and the bounding rectangle of the
    svg element at the time of the event. *)
Record MouseEvent := mkMouseEvent {
  clientX : R;
  clientY : R;
  rect_left : R;
  rect_top : R
}.

(** [(e.clientX - rect.left - offsetX) / scale] and its [y] twin. *)
Definition toSim (st : State) (e : MouseEvent) : Point :=
  {| p_x := (clientX e - rect_left e - offsetX st) / scale st;
     p_y := (clientY e - rect_top e - offsetY st) / scale st |}.

(** The [translate(offsetX, offsetY) scale(scale)] transform of the
    group, from simulation space to the svg element's coordinates. *)
Definition toScreen (st : State) (p : Point) : Point :=
  {| p_x := offsetX st + scale st * p_x p;
     p_y := offsetY st + scale st * p_y p |}.

Definition hypot (a b : R) : R := sqrt (a * a + b * b).

Definition distToSegment (px py ax ay bx b_y : R) : R :=
  let dx := bx - ax in
  let dy := b_y - ay in
  if decide (dx = 0 /\ dy = 0) then hypot (px - ax) (py - ay)
  else
    let t := ((px - ax) * dx + (py - ay) * dy) / (dx * dx + dy * dy) in
    let t := Rmax 0 (Rmin 1 t) in
    let projX := ax + t * dx in
    let projY := ay + t * dy in
    hypot (px - projX) (py - projY).

End Geometry.

(** ** Selection and highlighting *)

Section Highlight.
Local Open Scope R_scope.

(** Running a computation on the graph of the current pass.  Callers
    have checked that there is one. *)
Definition onGraph {A} (m : M Graph A) (dflt : A) : M State A :=
  fun st => match graph st with
            | Some g => let '(g', r) := m g in (set_graph (Some g') st, r)
            | None => (st, Some dflt)
            end.

(** [nodeEls[i].setAttribute(...)]: a [TypeError] when there is no such
    element. *)
Definition setNodeEl (i : nat) (f : CircleEl -> CircleEl) : M Graph unit :=
  fun g => match nodeEls g !! i with
           | Some el => (set_nodeEls (<[i := f el]> (nodeEls g)) g, Some tt)
           | None => (g, None)
           end.

Definition setLinkEl (i : nat) (f : LineEl -> LineEl) : M Graph unit :=
  fun g => match linkEls g !! i with
           | Some el => (set_linkEls (<[i := f el]> (linkEls g)) g, Some tt)
           | None => (g, None)
           end.

Definition setTextEl (i : nat) (f : TextEl -> TextEl) : M Graph unit :=
  fun g => match textEls g !! i with
           | Some el => (set_textEls (<[i := f el]> (textEls g)) g, Some tt)
           | None => (g, None)
           end.

Definition circleEmphasis (opacity strokeWidth : R) (el : CircleEl) : CircleEl :=
  {| c_r := c_r el; c_cx := c_cx el; c_cy := c_cy el;
     c_opacity := Some opacity; c_stroke_width := Some strokeWidth |}.

Definition lineEmphasis (opacity strokeWidth : R) (el : LineEl) : LineEl :=
  {| ln_x1 := ln_x1 el; ln_y1 := ln_y1 el; ln_x2 := ln_x2 el; ln_y2 := ln_y2 el;
     ln_opacity := Some opacity; ln_stroke_width := strokeWidth |}.

(** The branch of [highlightSelection] taken when a link is selected. *)
Definition highlightLink (sel : LinkObj) : M Graph unit :=
  src ← deref (l_source (lo_link sel));
  tgt ← deref (l_target (lo_link sel));
  let srcId := ref_id src in
  let tgtId := ref_id tgt in
  g ← get;
  forEach (fun n i =>
             let emphasised := bool_decide (sn_id n = srcId \/ sn_id n = tgtId) in
             setNodeEl i (circleEmphasis (if emphasised then 1 else 0.2)
                                         (if emphasised then 2 else 1)))
          (nodes g);;
  forEach (fun (l : SimLink) i =>
             let emphasised := bool_decide (g_pass g = lo_pass sel /\ i = lo_index sel) in
             setLinkEl i (lineEmphasis (if emphasised then 1 else 0.05)
                                       (if emphasised then 2 else 1)))
          (links g).

(** [!selectedNode || l.source.id === selectedNode.id ||
    l.target.id === selectedNode.id], evaluated left to right. *)
Definition linkEmphasised (selNode : option NodeDesc) (l : SimLink) : M Graph bool :=
  match selNode with
  | None => mret true
  | Some sel =>
      src ← deref (l_source l);
      if decide (ref_id src = nd_id sel) then mret true
      else tgt ← deref (l_target l);
           mret (bool_decide (ref_id tgt = nd_id sel))
  end.

(** [!selectedNode || n.id === selectedNode.id ||
    (neighbours && neighbours.has(n.id))], as a truth value. *)
Definition nodeEmphasised (selNode : option NodeDesc) (nbrs : option (gset string))
    (n : SimNode) : bool :=
  match selNode with
  | None => true
  | Some sel =>
      bool_decide (sn_id n = nd_id sel)
      || match nbrs with
         | Some s => bool_decide (sn_id n ∈ s)
         | None => false
         end
  end.

(** [(selectedNode && n.id === selectedNode.id) ? 2 : 1] *)
Definition nodeStroke (selNode : option NodeDesc) (n : SimNode) : R :=
  match selNode with
  | Some sel => if decide (sn_id n = nd_id sel) then 2 else 1
  | None => 1
  end.

(** The rest of [highlightSelection]: a node or nothing is selected.
    [nbrMap] is the module variable [neighbourMap], read only when a
    node is selected. *)
Definition highlightNode (selNode : option NodeDesc)
    (nbrMap : option (gmap string (gset string))) : M Graph unit :=
  nbrs ← match selNode with
         | None => mret None
         | Some sel => m ← deref nbrMap; mret (m !! nd_id sel)
         end;
  g ← get;
  forEach (fun n i =>
             setNodeEl i (circleEmphasis
                            (if nodeEmphasised selNode nbrs n then 1 else 0.2)
                            (nodeStroke selNode n)))
          (nodes g);;
  forEach (fun l i =>
             emphasised ← linkEmphasised selNode l;
             setLinkEl i (lineEmphasis (if emphasised : bool then 1 else 0.05) 1))
          (links g).

Definition highlightSelection : M State unit :=
  st ← get;
  match selectedLink st with
  | Some sel => onGraph (highlightLink sel) tt
  | None => onGraph (highlightNode (selectedNode st) (neighbourMap st)) tt
  end.

(** [updateDetailsPanel()]: only the kind of panel shown is kept.  The
    link panel reads [id] and [name] of both endpoints. *)
Definition updateDetailsPanel : M State unit :=
  st ← get;
  match selectedLink st with
  | Some sel =>
      deref (l_source (lo_link sel));;
      deref (l_target (lo_link sel));;
      modify (set_panel PanelLink)
  | None =>
      match selectedNode st with
      | Some _ => modify (set_panel PanelNode)
      | None => modify (set_panel PanelDefault)
      end
  end.

Definition onNodeSelect (node : option NodeDesc) : M State unit :=
  modify (set_selection node None);;
  highlightSelection;;
  updateDetailsPanel.

Definition onLinkSelect (link : LinkObj) : M State unit :=
  modify (set_selection None (Some link));;
  highlightSelection;;
  updateDetailsPanel.

(** The click handler of the close button of the details panel. *)
Definition closeButton : M State unit :=
  st ← get;
  match panel st with
  | PanelLink =>
      modify (fun st => set_selection (selectedNode st) None st);;
      highlightSelection;;
      updateDetailsPanel
  | PanelNode => onNodeSelect None
  | PanelDefault => mret tt
  end.

(** [const node = DATA.nodes.find((n) => n.id === id);
    if (node) onNodeSelect(node);] — the buttons of the link panel, of
    the watchlist and of the suggestions. *)
Definition openNode (id : string) : M State unit :=
  st ← get;
  match List.find (fun n => bool_decide (nd_id n = id)) (data_nodes (DATA st)) with
  | Some node => onNodeSelect (Some node)
  | None => mret tt
  end.

(** The part of [removeFromWatchlist(id)] that touches the selection. *)
Definition removeFromWatchlist (id : string) : M State unit :=
  st ← get;
  match selectedNode st with
  | Some sel => if decide (nd_id sel = id) then onNodeSelect None else mret tt
  | None => mret tt
  end.

(** The part of [resetPersona()] that touches the selection and the
    details panel. *)
Definition resetPersona : M State unit :=
  modify (set_selection None None);;
  modify (set_panel PanelDefault).

End Highlight.

(** ** Physics simulation *)

Section Physics.
Local Open Scope R_scope.

Definition linkDistance : R := 90.
Definition linkStrength : R := 0.015.
Definition chargeStrength : R := -200.
Definition centerStrength : R := 0.0015.
Definition damping : R := 0.75.
Definition clusterStrength : R := 0.1.
Definition maxTicks : nat := 100.

Definition set_force (fx fy : R) (n : SimNode) : SimNode :=
  {| sn_desc := sn_desc n; sn_x := sn_x n; sn_y := sn_y n;
     sn_vx := sn_vx n; sn_vy := sn_vy n; sn_fx := fx; sn_fy := fy |}.

Definition set_velocity (vx vy : R) (n : SimNode) : SimNode :=
  {| sn_desc := sn_desc n; sn_x := sn_x n; sn_y := sn_y n;
     sn_vx := vx; sn_vy := vy; sn_fx := sn_fx n; sn_fy := sn_fy n |}.

Definition set_position (x y : R) (n : SimNode) : SimNode :=
  {| sn_desc := sn_desc n; sn_x := x; sn_y := y;
     sn_vx := sn_vx n; sn_vy := sn_vy n; sn_fx := sn_fx n; sn_fy := sn_fy n |}.

(** [n.fx += fx; n.fy += fy] *)
Definition addForce (fx fy : R) (n : SimNode) : SimNode :=
  set_force (sn_fx n + fx) (sn_fy n + fy) n.

(** [n.fx -= fx; n.fy -= fy] *)
Definition subForce (fx fy : R) (n : SimNode) : SimNode :=
  set_force (sn_fx n - fx) (sn_fy n - fy) n.

(** The node object behind a reference. *)
Definition nodeAt (r : NodeRef) : M Graph SimNode :=
  g ← get; deref (nodes g !! ref_index r).

Definition alterNode (i : nat) (f : SimNode -> SimNode) : M Graph unit :=
  modify (fun g => set_nodes (alter f i (nodes g)) g).

(** [Math.sqrt(dx * dx + dy * dy) || 1]: the distance, and 1 in its place
    when it is 0. *)
Definition springDist (dx dy : R) : R :=
  let d := sqrt (dx * dx + dy * dy) in
  if decide (d = 0) then 1 else d.

(** [linkStrength * diff / dist] with [diff = dist - linkDistance]. *)
Definition springForce (dx dy : R) : R :=
  let dist := springDist dx dy in
  let diff := dist - linkDistance in
  linkStrength * diff / dist.

(** The body of the link loop of [tick]. *)
Definition linkForce (l : SimLink) : M Graph unit :=
  tgt ← deref (l_target l);
  t ← nodeAt tgt;
  src ← deref (l_source l);
  s ← nodeAt src;
  let dx := sn_x t - sn_x s in
  let dy := sn_y t - sn_y s in
  let force := springForce dx dy in
  let fx := dx * force in
  let fy := dy * force in
  alterNode (ref_index src) (addForce fx fy);;
  alterNode (ref_index tgt) (subForce fx fy).

(** The body of the inner charge loop, for [nodes[i]] and [nodes[j]]. *)
Definition chargePair (i j : nat) (ns : list SimNode) : list SimNode :=
  match ns !! i, ns !! j with
  | Some n1, Some n2 =>
      let dx := sn_x n2 - sn_x n1 in
      let dy := sn_y n2 - sn_y n1 in
      let dist2 := dx * dx + dy * dy + 0.01 in
      let force := chargeStrength / dist2 in
      let fx := dx * force in
      let fy := dy * force in
      alter (addForce fx fy) j (alter (subForce fx fy) i ns)
  | _, _ => ns
  end.

(** [for (i = 0; i < nodes.length; i++) for (j = i + 1; j < nodes.length; j++)] *)
Definition chargeForces (ns : list SimNode) : list SimNode :=
  foldl (fun acc i =>
           foldl (fun acc j => chargePair i j acc) acc
                 (seq (S i) (length ns - S i)))
        ns (seq 0 (length ns)).

(** Centering and cluster force on one node. *)
Definition centreForce (w h : R) (centres : gmap string Point) (n : SimNode) : SimNode :=
  let n1 := addForce ((w / 2 - sn_x n) * centerStrength)
                     ((h / 2 - sn_y n) * centerStrength) n in
  match centres !! sn_category n with
  | Some centre =>
      addForce ((p_x centre - sn_x n1) * clusterStrength)
               ((p_y centre - sn_y n1) * clusterStrength) n1
  | None => n1
  end.

(** [v = (v + f) * damping; position += v] *)
Definition integrate (n : SimNode) : SimNode :=
  let vx := (sn_vx n + sn_fx n) * damping in
  let vy := (sn_vy n + sn_fy n) * damping in
  set_position (sn_x n + vx) (sn_y n + vy) (set_velocity vx vy n).

(** *** Synchronising the scene *)

Definition linePosition (x1 y1 x2 y2 : R) (el : LineEl) : LineEl :=
  {| ln_x1 := Some x1; ln_y1 := Some y1; ln_x2 := Some x2; ln_y2 := Some y2;
     ln_opacity := ln_opacity el; ln_stroke_width := ln_stroke_width el |}.

Definition circlePosition (x y : R) (el : CircleEl) : CircleEl :=
  {| c_r := c_r el; c_cx := Some x; c_cy := Some y;
     c_opacity := c_opacity el; c_stroke_width := c_stroke_width el |}.

Definition textPosition (x y : R) (el : TextEl) : TextEl :=
  {| t_x := Some x; t_y := Some y |}.

(** The link loop shared by [tick] and [updatePositionsInstant]. *)
Definition syncLink (l : SimLink) (i : nat) : M Graph unit :=
  src ← deref (l_source l);
  s ← nodeAt src;
  tgt ← deref (l_target l);
  t ← nodeAt tgt;
  setLinkEl i (linePosition (sn_x s) (sn_y s) (sn_x t) (sn_y t)).

Definition syncCircle (n : SimNode) (i : nat) : M Graph unit :=
  setNodeEl i (circlePosition (sn_x n) (sn_y n)).

Definition syncText (n : SimNode) (i : nat) : M Graph unit :=
  setTextEl i (textPosition (sn_x n) (sn_y n - 14)).

Definition updatePositionsInstant : M Graph unit :=
  g ← get;
  forEach syncLink (links g);;
  forEach syncCircle (nodes g);;
  forEach syncText (nodes g).

(** The forces, the integration and the synchronisation of [tick]. *)
Definition tickGraph : M Graph unit :=
  modify (fun g => set_nodes (set_force 0 0 <$> nodes g) g);;
  g ← get;
  forEach (fun l _ => linkForce l) (links g);;
  modify (fun g => set_nodes (chargeForces (nodes g)) g);;
  modify (fun g => set_nodes (centreForce (width g) (height g) (clusterCenters g) <$> nodes g) g);;
  modify (fun g => set_nodes (integrate <$> nodes g) g);;
  g ← get;
  forEach syncLink (links g);;
  forEach (fun n i => syncCircle n i;; syncText n i) (nodes g);;
  modify (fun g => set_tickCount (S (tickCount g)) g).

(** [tick()], with the rescheduling at its end. *)
Definition tick : M State unit :=
  onGraph tickGraph tt;;
  st ← get;
  match graph st with
  | Some g =>
      if decide (tickCount g < maxTicks)%nat then modify requestTick
      else modify (fun st => set_frames None (pendingFrames st) (nextHandle st) st)
  | None => mret tt
  end.

End Physics.

(** ** Interaction *)

Section Interaction.
Local Open Scope R_scope.

(** The [click] listener of the circles of [nodes[i]]. *)
Definition nodeClick (i : nat) : M State unit :=
  st ← get;
  match graph st with
  | Some g =>
      match nodes g !! i with
      | Some node => onNodeSelect (Some (sn_desc node))
      | None => mret tt
      end
  | None => mret tt
  end.

(** The [mousedown] listener of the circles of [nodes[i]]. *)
Definition nodeMouseDown (i : nat) (e : MouseEvent) : M State unit :=
  st ← get;
  match graph st with
  | Some g =>
      match nodes g !! i with
      | Some node =>
          let p := toSim st e in
          let off := {| p_x := sn_x node - p_x p; p_y := sn_y node - p_y p |} in
          modify (set_graph (Some (set_drag (Some i) off g)));;
          modify cancelTick;;
          onGraph (alterNode i (set_velocity 0 0)) tt
      | None => mret tt
      end
  | None => mret tt
  end.

(** The distance from the click to a link, as the loop of the click
    listener computes it. *)
Definition linkDist (g : Graph) (p : Point) (l : SimLink) : option R :=
  src ← l_source l;
  s ← nodes g !! ref_index src;
  tgt ← l_target l;
  t ← nodes g !! ref_index tgt;
  Some (distToSegment (p_x p) (p_y p) (sn_x s) (sn_y s) (sn_x t) (sn_y t)).

(** The candidate kept by the loop: [nearest] with its index and
    [minDist].  [None] stands for the initial [nearest = null],
    [minDist = Infinity]. *)
Definition Nearest : Type := option (nat * SimLink * R).

Definition closer (i : nat) (l : SimLink) (d : R) (acc : Nearest) : Nearest :=
  match acc with
  | None => Some (i, l, d)
  | Some (_, _, minDist) => if decide (d < minDist) then Some (i, l, d) else acc
  end.

Fixpoint nearestFrom (g : Graph) (p : Point) (i : nat) (ls : list SimLink)
    (acc : Nearest) : option Nearest :=
  match ls with
  | [] => Some acc
  | l :: ls' =>
      d ← linkDist g p l;
      nearestFrom g p (S i) ls' (closer i l d acc)
  end.

Definition nearestLink (g : Graph) (p : Point) : option Nearest :=
  nearestFrom g p 0 (links g) None.

(** The [click] listener of the svg element. *)
Definition svgClick (e : MouseEvent) : M State unit :=
  st ← get;
  match graph st with
  | Some g =>
      found ← deref (nearestLink g (toSim st e));
      let thresholdGraph := 25 / scale st in
      match found with
      | Some (i, l, minDist) =>
          if decide (minDist <= thresholdGraph)
          then onLinkSelect {| lo_pass := g_pass g; lo_index := i; lo_link := l |}
          else onNodeSelect None
      | None => onNodeSelect None
      end
  | None => mret tt
  end.

(** The [wheel] listener. *)
Definition wheel (deltaY : R) (e : MouseEvent) (st : State) : State :=
  let delta := deltaY * -0.001 in
  let newScale := Rmax 0.5 (Rmin 4 (scale st * (1 + delta))) in
  let px := clientX e - rect_left e in
  let py := clientY e - rect_top e in
  set_view (px - (px - offsetX st) * (newScale / scale st))
           (py - (py - offsetY st) * (newScale / scale st))
           newScale st.

(** The [mousedown] listener of the svg element; [background] tells
    whether the target of the event is the svg element or the group. *)
Definition svgMouseDown (background : bool) (e : MouseEvent) (st : State) : State :=
  if background
  then set_graph (set_pan true {| p_x := clientX e; p_y := clientY e |} <$> graph st) st
  else st.

(** The [mousemove] listener. *)
Definition mouseMove (e : MouseEvent) : M State unit :=
  st ← get;
  match graph st with
  | Some g =>
      match draggingNode g with
      | Some i =>
          let p := toSim st e in
          onGraph (alterNode i (set_position (p_x p + p_x (dragOffset g))
                                             (p_y p + p_y (dragOffset g)));;
                   updatePositionsInstant) tt
      | None =>
          if isPanning g then
            modify (set_view (offsetX st + (clientX e - p_x (panStart g)))
                             (offsetY st + (clientY e - p_y (panStart g)))
                             (scale st));;
            modify (set_graph (Some (set_pan true {| p_x := clientX e; p_y := clientY e |} g)))
          else mret tt
      end
  | None => mret tt
  end.

(** The [mouseup] and [mouseleave] listeners. *)
Definition mouseUp (st : State) : State :=
  set_graph ((fun g => set_pan false (panStart g) (set_drag None (dragOffset g) g))
               <$> graph st) st.

(** One turn of the host's frame loop: the callbacks queued so far run,
    each on its own; an exception ends the callback it occurs in. *)
Definition animationFrame (st : State) : State :=
  foldl (fun s _ => (tick s).1)
        (set_frames (simulationId st) [] (nextHandle st) st)
        (pendingFrames st).

(** The events of the graph view. *)
Inductive Event :=
| RenderGraph (w h : R) (rnd : nat -> R)
| AnimationFrame
| NodeClick (i : nat)
| NodeMouseDown (i : nat) (e : MouseEvent)
| SvgClick (e : MouseEvent)
| Wheel (deltaY : R) (e : MouseEvent)
| SvgMouseDown (background : bool) (e : MouseEvent)
| MouseMove (e : MouseEvent)
| MouseUp
| MouseLeave
| CloseButton
| OpenNode (id : string)
| RemoveFromWatchlist (id : string)
| ResetPersona.

(** The listeners of the svg element exist once a graph is rendered. *)
Definition handler (ev : Event) : M State unit :=
  match ev with
  | RenderGraph w h rnd => modify (renderGraph w h rnd)
  | AnimationFrame => modify animationFrame
  | NodeClick i => nodeClick i
  | NodeMouseDown i e => nodeMouseDown i e
  | SvgClick e => svgClick e
  | Wheel deltaY e =>
      modify (fun st => if graph st is Some _ then wheel deltaY e st else st)
  | SvgMouseDown background e => modify (svgMouseDown background e)
  | MouseMove e => mouseMove e
  | MouseUp | MouseLeave => modify mouseUp
  | CloseButton => closeButton
  | OpenNode id => openNode id
  | RemoveFromWatchlist id => removeFromWatchlist id
  | ResetPersona => resetPersona
  end.

(** The state after an event, whether or not its listener threw. *)
Definition handle (st : State) (ev : Event) : State := (handler ev st).1.

Definition run (st : State) (evs : list Event) : State := foldl handle st evs.

End Interaction.

(** ** The side panels and the community loader

    The watchlist, the suggestions and [loadCommunityData] read further
    fields of the node objects of [DATA.nodes]: [type] and [interests].
    An [Entity] is a node object with these two fields beside those of
    [NodeDesc].  The markup that the panels write, and with it the texts
    of the reasons of a suggestion, is left out; so are the calls that
    store the watchlist. *)

Section Panels.
Local Open Scope R_scope.

Record Entity := mkEntity {
  en_desc : NodeDesc;
  en_type : option string;
  en_interests : option (list string)
}.

Definition en_id (n : Entity) : string := nd_id (en_desc n).

(** An entry of [watchlist]: [{ id, name, type }]. *)
Record WatchItem := mkWatchItem {
  wi_id : string;
  wi_name : string;
  wi_type : option string
}.

(** [addToWatchlist(node)], on the array [watchlist]. *)
Definition addToWatchlist (node : Entity) (watchlist : list WatchItem) : list WatchItem :=
  if decide (Exists (fun n => wi_id n = en_id node) watchlist) then watchlist
  else watchlist ++ [{| wi_id := en_id node;
                        wi_name := nd_name (en_desc node);
                        wi_type := en_type node |}].

(** [watchlist = watchlist.filter((n) => n.id !== id)], the first
    statement of [removeFromWatchlist(id)]. *)
Definition removeFromWatchlist_items (id : string) (watchlist : list WatchItem)
    : list WatchItem :=
  filter (fun n => wi_id n ≠ id) watchlist.

(** The clicks on the watchlist button of a node and on a remove button. *)
Inductive WatchOp :=
| WatchAdd (node : Entity)
| WatchRemove (id : string).

Definition watchStep (watchlist : list WatchItem) (op : WatchOp) : list WatchItem :=
  match op with
  | WatchAdd node => addToWatchlist node watchlist
  | WatchRemove id => removeFromWatchlist_items id watchlist
  end.

(** *** [updateSuggestionsPanel] *)

(** [String.prototype.toLowerCase], a function of the host. *)
Variable toLowerCase : string -> string.

(** The callback of the loop that fills [degreeMap]. *)
Definition degreeAdd (m : gmap string nat) (l : LinkDesc) : gmap string nat :=
  let m1 := <[ld_source l := (default 0 (m !! ld_source l) + 1)%nat]> m in
  <[ld_target l := (default 0 (m1 !! ld_target l) + 1)%nat]> m1.

Definition degreeMap (ls : list LinkDesc) : gmap string nat := foldl degreeAdd ∅ ls.

(** [neighbourMap[item.id] || new Set()], added to [watchNeighbours] for
    every item of the watchlist. *)
Definition watchNeighbours (nbrMap : gmap string (gset string))
    (watchlist : list WatchItem) : gset string :=
  foldl (fun acc item => acc ∪ neighbours nbrMap (wi_id item)) ∅ watchlist.

(** [DATA.nodes.find((n) => n.id === id)] *)
Definition findNode (ns : list Entity) (id : string) : option Entity :=
  List.find (fun n => bool_decide (en_id n = id)) ns.

Definition watchInterests (ns : list Entity) (watchlist : list WatchItem) : gset string :=
  foldl (fun acc item =>
           match findNode ns (wi_id item) with
           | Some wn =>
               match en_interests wn with
               | Some interests => foldl (fun acc i => acc ∪ {[toLowerCase i]}) acc interests
               | None => acc
               end
           | None => acc
           end)
        ∅ watchlist.

(** The number of interests of [n], as listed, whose lower-case form is
    an interest of the watchlist. *)
Definition sharedCount (interests : gset string) (n : Entity) : nat :=
  match en_interests n with
  | Some own => length (filter (fun i => toLowerCase i ∈ interests) own)
  | None => 0
  end.

(** The truthiness of [persona]: [null] and the empty string are falsy. *)
Definition truthy (persona : option string) : bool :=
  match persona with
  | Some p => bool_decide (p ≠ "")
  | None => false
  end.

(** The score that the callback of [map] computes for a node. *)
Definition score (persona : option string) (nearby : gset string)
    (degrees : gmap string nat) (interests : gset string) (n : Entity) : R :=
  let s0 := if decide (en_id n ∈ nearby) then 0 + 5 else 0 in
  let deg := default 0%nat (degrees !! en_id n) in
  let s1 := s0 + INR deg * 0.5 in
  let shared := sharedCount interests n in
  let s2 := if decide (0 < shared)%nat then s1 + INR shared * 2 else s1 in
  if truthy persona && bool_decide (en_type n = persona) then s2 + 1 else s2.

Record Suggestion := mkSuggestion {
  sg_node : Entity;
  sg_score : R
}.

(** [candidates.sort((a, b) => b.score - a.score)]: the sort of the
    language is stable, and the scores are totally ordered, so the result
    is the one of a stable insertion sort by descending score. *)
Fixpoint insertByScore (x : Suggestion) (l : list Suggestion) : list Suggestion :=
  match l with
  | [] => [x]
  | y :: l' =>
      if decide (sg_score y <= sg_score x) then x :: y :: l'
      else y :: insertByScore x l'
  end.

Definition sortByScore (l : list Suggestion) : list Suggestion := foldr insertByScore [] l.

(** The entries [top] that [updateSuggestionsPanel()] lists; the empty
    list when it shows one of its two empty texts.  [neighbourMap] is the
    module variable, built here when it is still unset. *)
Definition updateSuggestionsPanel (persona : option string) (ns : list Entity)
    (ls : list LinkDesc) (neighbourMap : option (gmap string (gset string)))
    (watchlist : list WatchItem) : list Suggestion :=
  if truthy persona then
    let nbrMap := match neighbourMap with
                  | Some m => m
                  | None => buildNeighbourMap ls
                  end in
    let degrees := degreeMap ls in
    let watchIds : gset string := list_to_set (wi_id <$> watchlist) in
    let nearby := watchNeighbours nbrMap watchlist in
    let interests := watchInterests ns watchlist in
    let candidates :=
      filter (fun entry => 0 < sg_score entry)
             ((fun n => {| sg_node := n;
                           sg_score := score persona nearby degrees interests n |})
                <$> filter (fun n => en_id n ∉ watchIds) ns) in
    take 5 (sortByScore candidates)
  else [].

(** *** [loadCommunityData] *)

(** A row of the [community] table.  [row_endorsements] is [Some] when
    [typeof row.endorsements === 'number'], [row_interests] when
    [Array.isArray(row.interests)]. *)
Record CommunityRow := mkCommunityRow {
  row_id : option string;
  row_name : option string;
  row_email : option string;
  row_endorsements : option R;
  row_interests : option (list string)
}.

(** [value || dflt] for a string that may be absent: an absent and an
    empty string are falsy. *)
Definition orElse (value : option string) (dflt : string) : string :=
  match value with
  | Some s => if decide (s = "") then dflt else s
  | None => dflt
  end.

(** The callback of [data.map]; [fresh] is the text of
    [Math.random().toString(36).slice(2)] for this row. *)
Definition communityNode (fresh : string) (row : CommunityRow) : Entity :=
  {| en_desc :=
       {| nd_id := orElse (row_id row) ("person-" +:+ fresh);
          nd_name := orElse (row_name row) (orElse (row_email row) "Unknown");
          nd_category := "person";
          nd_size := Some (6 + match row_endorsements row with
                               | Some e => Rmin e 4
                               | None => 0
                               end) |};
     en_type := Some "person";
     en_interests := Some (match row_interests row with
                           | Some interests => toLowerCase <$> interests
                           | None => []
                           end) |}.

(** The outcome of [supabase.from('community').select('*')]: an
    exception, an error, or the rows ([None] for a [null] result). *)
Inductive QueryResult :=
| QueryThrows
| QueryError
| QueryData (rows : option (list CommunityRow)).

(** [loadCommunityData()], on the flag [communityDataLoaded] and the
    array [DATA.nodes]. *)
Definition loadCommunityData (communityDataLoaded : bool) (result : QueryResult)
    (fresh : nat -> string) (ns : list Entity) : bool * list Entity :=
  if communityDataLoaded then (true, ns)
  else
    match result with
    | QueryData (Some (row :: rows)) =>
        (true, ns ++ imap (fun i r => communityNode (fresh i) r) (row :: rows))
    | _ => (false, ns)
    end.

End Panels.

(** ** An example scene

    Two nodes 100 units apart on a horizontal line, joined by a link,
    under the identity view. *)

Definition sceneA : SimNode :=
  mkSimNode (mkNodeDesc "a" "A" "startup" None) 0 0 0 0 0 0.

Definition sceneB : SimNode :=
  mkSimNode (mkNodeDesc "b" "B" "investor" None) 100 0 0 0 0 0.

Definition sceneLink : SimLink :=
  mkSimLink (Some (mkNodeRef 0 "a")) (Some (mkNodeRef 1 "b")) "investment" "".

Definition sceneGraph : Graph :=
  mkGraph 1 800 600 ∅ [sceneLink] [sceneA; sceneB]
    [newCircle sceneA; newCircle sceneB] [newLine sceneLink]
    [newText sceneA; newText sceneB]
    None (mkPoint 0 0) false (mkPoint 0 0) 100.

Definition sceneState : State :=
  mkState (mkDataset [] []) None None (Some ∅) (Some sceneGraph) 1 None [] 2 0 0 1
    PanelDefault.

(** * Verification *)

(** ** A program logic for handlers

    [triple P m Q E]: from a state satisfying [P], the computation [m]
    either returns [a] in a state satisfying [Q a], or throws in a state
    satisfying [E]. *)

Definition triple {St A} (P : St -> Prop) (m : M St A)
    (Q : A -> St -> Prop) (E : St -> Prop) : Prop :=
  forall s, P s ->
    match m s with
    | (s', Some a) => Q a s'
    | (s', None) => E s'
    end.

(** [keeps P m]: [m] preserves [P], whether it returns or throws. *)
Definition keeps {St A} (P : St -> Prop) (m : M St A) : Prop :=
  triple P m (fun _ => P) P.

(** [safe P m Q]: from [P], [m] does not throw and ends in [Q]. *)
Definition safe {St A} (P : St -> Prop) (m : M St A) (Q : St -> Prop) : Prop :=
  triple P m (fun _ => Q) (fun _ => False).

(** *** Predicates of the statements *)

(** Both endpoints of a link are node objects, among [n] nodes. *)
Definition link_ok (n : nat) (l : SimLink) : Prop :=
  exists src tgt,
    l_source l = Some src /\ l_target l = Some tgt /\
    (ref_index src < n)%nat /\ (ref_index tgt < n)%nat.

(** The graph has the links [ls] and [n] nodes, with one circle and one
    label per node and one line per link. *)
Definition shaped (ls : list SimLink) (n : nat) (g : Graph) : Prop :=
  links g = ls /\
  length (nodes g) = n /\
  length (nodeEls g) = n /\
  length (linkEls g) = length ls /\
  length (textEls g) = n.

(** A graph as [renderGraph] builds it from a dataset whose links name
    existing nodes. *)
Definition wf_graph (g : Graph) : Prop :=
  Forall (link_ok (length (nodes g))) (links g) /\
  shaped (links g) (length (nodes g)) g.

(** Every link of the dataset names nodes of the dataset. *)
Definition links_valid (d : Dataset) : Prop :=
  forall l, l ∈ data_links d ->
    ld_source l ∈ (nd_id <$> data_nodes d) /\ ld_target l ∈ (nd_id <$> data_nodes d).

(** The zoom factor is within its bounds. *)
Definition scale_ok (st : State) : Prop := (0.5 <= scale st <= 4)%R.

(** At most one of [selectedNode] and [selectedLink] is set. *)
Definition exclusive (st : State) : Prop :=
  selectedNode st = None \/ selectedLink st = None.

(** The selection variables hold [n] and [l]. *)
Definition selection_is (n : option NodeDesc) (l : option LinkObj) (st : State) : Prop :=
  selectedNode st = n /\ selectedLink st = l.

(** Node [i] is being dragged with captured offset [off], under the
    view [(ox, oy, sc)]. *)
Definition dragging (i : nat) (off : Point) (ox oy sc : R) (st : State) : Prop :=
  offsetX st = ox /\ offsetY st = oy /\ scale st = sc /\
  exists g, graph st = Some g /\ draggingNode g = Some i /\ dragOffset g = off /\
            (i < length (nodes g))%nat.

(** The graph of a pass with links [ls] and [n] nodes, after [c] ticks. *)
Definition inpass (ls : list SimLink) (n c : nat) (g : Graph) : Prop :=
  shaped ls n g /\ tickCount g = c.

(** The host holds at most one tick callback, the one whose handle is
    in [simulationId]. *)
Definition frames_ok (st : State) : Prop :=
  pendingFrames st = [] \/
  exists h, simulationId st = Some h /\ pendingFrames st = [h].

(** The state of a pass with links [ls] and [n] nodes, [k] animation
    frames after [renderGraph]: the ticks run so far, and whether one
    more is scheduled. *)
Definition sim_at (ls : list SimLink) (n k : nat) (st : State) : Prop :=
  Forall (link_ok n) ls /\
  (exists g, graph st = Some g /\ inpass ls n (k `min` maxTicks) g) /\
  (k < maxTicks -> exists h, simulationId st = Some h /\ pendingFrames st = [h]) /\
  (maxTicks <= k -> simulationId st = None /\ pendingFrames st = []).

(** The number of ticks run in the current pass, if there is one. *)
Definition ticksRun (st : State) : option nat := tickCount <$> graph st.

(** The tick count is [c], and the frame queue is empty if [pend] is. *)
Definition quiet (c : option nat) (pend : list nat) (st : State) : Prop :=
  ticksRun st = c /\ (pend = [] -> pendingFrames st = []).

(** At most [maxTicks] ticks have run in the current pass, and a tick is
    queued only while fewer have run. *)
Definition tick_bound (st : State) : Prop :=
  frames_ok st /\
  forall g, graph st = Some g ->
    tickCount g <= maxTicks /\ (pendingFrames st <> [] -> tickCount g < maxTicks).

(** The emphasis of the circle of node [n] when the isolated node [X] is
    selected. *)
Definition marked (X : NodeDesc) (n : SimNode) (el : CircleEl) : Prop :=
  (sn_id n = nd_id X -> c_opacity el = Some 1%R /\ c_stroke_width el = Some 2%R) /\
  (sn_id n <> nd_id X -> c_opacity el = Some 0.2%R /\ c_stroke_width el = Some 1%R).

(** The emphasis of a line that does not touch the selected node. *)
Definition dimmed (el : LineEl) : Prop :=
  ln_opacity el = Some 0.05%R /\ ln_stroke_width el = 1%R.

(** No link of the graph touches the node [X], and every link has both
    endpoints. *)
Definition avoids (g : Graph) (X : NodeDesc) : Prop :=
  forall l, l ∈ links g ->
    exists src tgt, l_source l = Some src /\ l_target l = Some tgt /\
                    ref_id src <> nd_id X /\ ref_id tgt <> nd_id X.


(** The invariant of the node loop of the highlight pass, after [k]
    nodes of the graph [g] with [X] selected. *)
Definition nodes_done (g : Graph) (X : NodeDesc) (k : nat) (g0 : Graph) : Prop :=
  nodes g0 = nodes g /\ links g0 = links g /\ linkEls g0 = linkEls g /\
  length (nodeEls g0) = length (nodes g) /\
  forall i n, (i < k)%nat -> nodes g !! i = Some n ->
    exists el, nodeEls g0 !! i = Some el /\ marked X n el.

(** The invariant of its link loop, after [k] links. *)
Definition links_done (g : Graph) (X : NodeDesc) (k : nat) (g0 : Graph) : Prop :=
  nodes g0 = nodes g /\ links g0 = links g /\
  (forall i n, nodes g !! i = Some n ->
     exists el, nodeEls g0 !! i = Some el /\ marked X n el) /\
  length (linkEls g0) = length (links g) /\
  forall i l, (i < k)%nat -> links g !! i = Some l ->
    exists el, linkEls g0 !! i = Some el /\ dimmed el.

(** *** Predicates of the further properties *)

(** Some link of the graph lacks an endpoint. *)
Definition dangling (g : Graph) : Prop :=
  exists l, l ∈ links g /\ (l_source l = None \/ l_target l = None).

(** What the integration step of a tick changes in a node, and what no
    force computation touches: descriptor, position and velocity. *)
Definition kinematics (n : SimNode) : NodeDesc * (R * R) * (R * R) :=
  (sn_desc n, (sn_x n, sn_y n), (sn_vx n, sn_vy n)).

(** The state of a graph that a tick which throws in its link loop
    leaves alone: the tick count, the motion of the nodes and the scene. *)
Definition at_rest (c : nat) (k : list (NodeDesc * (R * R) * (R * R)))
    (ces : list CircleEl) (les : list LineEl) (tes : list TextEl) (g : Graph) : Prop :=
  tickCount g = c /\ kinematics <$> nodes g = k /\
  nodeEls g = ces /\ linkEls g = les /\ textEls g = tes.

(** Two ids are the endpoints of a link of the list. *)
Definition linked (ls : list LinkDesc) (a b : string) : Prop :=
  exists l, l ∈ ls /\
    ((ld_source l = a /\ ld_target l = b) \/ (ld_source l = b /\ ld_target l = a)).


(** The background is being panned: no node is dragged, the nodes are
    those of [g0], and the offset minus the last pointer position is
    [(dx, dy)]. *)
Definition panning (g0 : Graph) (dx dy sc : R) (st : State) : Prop :=
  scale st = sc /\
  exists g, graph st = Some g /\ draggingNode g = None /\ isPanning g = true /\
            nodes g = nodes g0 /\
            (offsetX st - p_x (panStart g))%R = dx /\
            (offsetY st - p_y (panStart g))%R = dy.

(** The link has an endpoint with the given id. *)
Definition touches (id : string) (l : SimLink) : bool :=
  bool_decide (ref_id <$> l_source l = Some id)
  || bool_decide (ref_id <$> l_target l = Some id).

(** The scene of a pass mirrors the dataset: the nodes are copies of the
    dataset's nodes, the links are the dataset's links resolved in the
    node array, every circle has its node's radius, and there is one
    line per link and one label per node. *)
Definition mirrors (d : Dataset) (g : Graph) : Prop :=
  sn_desc <$> nodes g = data_nodes d /\
  links g = simLinks (nodes g) d /\
  c_r <$> nodeEls g = radius <$> nodes g /\
  length (linkEls g) = length (links g) /\
  length (textEls g) = length (nodes g).

(** The state shows the dataset [d]: a rendered scene mirrors it and the
    neighbour index is the one of its links. *)
Definition reflects (d : Dataset) (st : State) : Prop :=
  DATA st = d /\
  forall g, graph st = Some g ->
    mirrors d g /\ neighbourMap st = Some (buildNeighbourMap (data_links d)).

(** The sums of the force components over the nodes. *)
Definition sumFx (ns : list SimNode) : R := foldr (fun n acc => (sn_fx n + acc)%R) 0%R ns.
Definition sumFy (ns : list SimNode) : R := foldr (fun n acc => (sn_fy n + acc)%R) 0%R ns.

(** What a tick leaves alone in a circle and in a line. *)
Definition circleStyle (el : CircleEl) : R * option R * option R :=
  (c_r el, c_opacity el, c_stroke_width el).

Definition lineStyle (el : LineEl) : option R * R :=
  (ln_opacity el, ln_stroke_width el).

(** The drawing shows the simulation: every circle is at the position of
    its node, every label 14 units above it, and every line runs between
    the positions of its endpoints. *)
Definition in_sync (g : Graph) : Prop :=
  (forall i n, nodes g !! i = Some n ->
     exists c t, nodeEls g !! i = Some c /\ textEls g !! i = Some t /\
       c_cx c = Some (sn_x n) /\ c_cy c = Some (sn_y n) /\
       t_x t = Some (sn_x n) /\ t_y t = Some (sn_y n - 14)%R) /\
  (forall i l src tgt s t,
     links g !! i = Some l -> l_source l = Some src -> l_target l = Some tgt ->
     nodes g !! ref_index src = Some s -> nodes g !! ref_index tgt = Some t ->
     exists el, linkEls g !! i = Some el /\
       ln_x1 el = Some (sn_x s) /\ ln_y1 el = Some (sn_y s) /\
       ln_x2 el = Some (sn_x t) /\ ln_y2 el = Some (sn_y t)).

(** The line that [syncLink] draws for a link, given the nodes. *)
Definition lineFor (ns : list SimNode) (l : SimLink) (el : LineEl) : LineEl :=
  match l_source l, l_target l with
  | Some src, Some tgt =>
      match ns !! ref_index src, ns !! ref_index tgt with
      | Some s, Some t => linePosition (sn_x s) (sn_y s) (sn_x t) (sn_y t) el
      | _, _ => el
      end
  | _, _ => el
  end.

Section Triples.
Context {St : Type}.
Implicit Types (P E : St -> Prop).

Lemma triple_conseq {A} P P' (m : M St A) (Q Q' : A -> St -> Prop) E E' :
  triple P' m Q' E' ->
  (forall s, P s -> P' s) ->
  (forall a s, Q' a s -> Q a s) ->
  (forall s, E' s -> E s) ->
  triple P m Q E.
Proof.
  intros Hm HP HQ HE s Hs. specialize (Hm s (HP s Hs)).
  destruct (m s) as [s' [a|]]; auto.
Qed.

Lemma triple_pre {A} P P' (m : M St A) Q E :
  triple P' m Q E -> (forall s, P s -> P' s) -> triple P m Q E.
Proof. intros Hm HP. eapply triple_conseq; eauto. Qed.

Lemma triple_ret {A} (a : A) (Q : A -> St -> Prop) E :
  triple (Q a) (mret a) Q E.
Proof. intros s Hs. exact Hs. Qed.

Lemma triple_throw {A} (Q : A -> St -> Prop) E :
  triple E (@throw St A) Q E.
Proof. intros s Hs. exact Hs. Qed.

Lemma triple_get (Q : St -> St -> Prop) E :
  triple (fun s => Q s s) get Q E.
Proof. intros s Hs. exact Hs. Qed.

Lemma triple_modify (f : St -> St) (Q : unit -> St -> Prop) E :
  triple (fun s => Q tt (f s)) (modify f) Q E.
Proof. intros s Hs. exact Hs. Qed.

Lemma triple_deref {A} (o : option A) (Q : A -> St -> Prop) E :
  triple (fun s => match o with Some a => Q a s | None => E s end) (deref o) Q E.
Proof. intros s Hs. destruct o; exact Hs. Qed.

Lemma triple_bind {A B} P (m : M St A) (k : A -> M St B)
    (Q : A -> St -> Prop) (R : B -> St -> Prop) E :
  triple P m Q E ->
  (forall a, triple (Q a) (k a) R E) ->
  triple P (m ≫= k) R E.
Proof.
  intros Hm Hk s Hs. specialize (Hm s Hs).
  unfold mbind, M_bind, bind. destruct (m s) as [s' [a|]]; [|exact Hm].
  apply (Hk a s' Hm).
Qed.

(** The state read by [get] satisfies the precondition. *)
Lemma triple_bind_get {B} P (k : St -> M St B) (R : B -> St -> Prop) E :
  (forall a, P a -> triple P (k a) R E) -> triple P (get ≫= k) R E.
Proof. intros Hk s Hs. apply (Hk s Hs s Hs). Qed.

(** The loop rule, with an invariant indexed by the number of elements
    visited. *)
Lemma triple_forEachFrom {A} (I : nat -> St -> Prop) (f : A -> nat -> M St unit)
    (l : list A) (i : nat) E :
  (forall k a, l !! k = Some a ->
               triple (I (i + k)%nat) (f a (i + k)%nat) (fun _ => I (S (i + k))) E) ->
  triple (I i) (forEachFrom f i l) (fun _ => I (i + length l)%nat) E.
Proof.
  revert i. induction l as [|a l IH]; intros i Hf.
  - simpl. rewrite Nat.add_0_r. apply (triple_ret tt (fun _ => I i)).
  - simpl. change (bind (f a i) (fun _ => forEachFrom f (S i) l))
      with (f a i ≫= fun _ => forEachFrom f (S i) l).
    eapply triple_bind.
    + specialize (Hf 0%nat a eq_refl). rewrite Nat.add_0_r in Hf. exact Hf.
    + intros u. replace (i + S (length l))%nat with (S i + length l)%nat by lia.
      apply IH. intros k b Hk.
      replace (S i + k)%nat with (i + S k)%nat by lia.
      apply (Hf (S k) b Hk).
Qed.

Lemma triple_forEach {A} (I : nat -> St -> Prop) (f : A -> nat -> M St unit)
    (l : list A) E :
  (forall k a, l !! k = Some a -> triple (I k) (f a k) (fun _ => I (S k)) E) ->
  triple (I 0%nat) (forEach f l) (fun _ => I (length l)) E.
Proof.
  intros Hf. apply (triple_forEachFrom I f l 0 E). exact Hf.
Qed.

(** A loop whose body keeps [P], normally and exceptionally. *)
Lemma triple_forEach_inv {A} P (f : A -> nat -> M St unit) (l : list A) :
  (forall k a, triple P (f a k) (fun _ => P) P) ->
  triple P (forEach f l) (fun _ => P) P.
Proof.
  intros Hf. apply (triple_forEach (fun _ => P) f l P). intros k a _. apply Hf.
Qed.

(** *** Invariants *)

Lemma keeps_ret {A} P (a : A) : keeps P (mret a : M St A).
Proof. apply (triple_ret a (fun _ => P) P). Qed.

Lemma keeps_throw {A} P : keeps P (@throw St A).
Proof. apply triple_throw. Qed.

Lemma keeps_get P : keeps P (@get St).
Proof. apply (triple_get (fun _ => P) P). Qed.

Lemma keeps_deref {A} P (o : option A) : keeps P (@deref St A o).
Proof.
  eapply triple_pre; [apply triple_deref|].
  intros s Hs. destruct o; exact Hs.
Qed.

Lemma keeps_modify P (f : St -> St) :
  (forall s, P s -> P (f s)) -> keeps P (modify f).
Proof.
  intros Hf. eapply triple_pre; [apply triple_modify|]. exact Hf.
Qed.

Lemma keeps_bind {A B} P (m : M St A) (k : A -> M St B) :
  keeps P m -> (forall a, keeps P (k a)) -> keeps P (m ≫= k).
Proof. intros Hm Hk. eapply triple_bind; [exact Hm|exact Hk]. Qed.

Lemma keeps_forEach {A} P (f : A -> nat -> M St unit) (l : list A) :
  (forall a k, keeps P (f a k)) -> keeps P (forEach f l).
Proof. intros Hf. apply triple_forEach_inv. intros k a. apply Hf. Qed.

Lemma keeps_fst {A} P (m : M St A) (s : St) : keeps P m -> P s -> P (m s).1.
Proof.
  intros Hm Hs. specialize (Hm s Hs). destruct (m s) as [s' [a|]]; exact Hm.
Qed.

(** *** Computations that do not throw *)

Lemma safe_modify P Q (f : St -> St) :
  (forall s, P s -> Q (f s)) -> safe P (modify f) Q.
Proof. intros H s Hs. apply H, Hs. Qed.

Lemma deref_Some_bind {A B} (a : A) (k : A -> M St B) :
  (deref (Some a) ≫= k) = k a.
Proof. reflexivity. Qed.

Lemma safe_bind {A B} P Q (m : M St A) (k : A -> M St B) :
  safe P m P -> (forall a, safe P (k a) Q) -> safe P (m ≫= k) Q.
Proof. intros Hm Hk. eapply triple_bind; [exact Hm|exact Hk]. Qed.

Lemma safe_bind_get {B} P Q (k : St -> M St B) :
  (forall a, P a -> safe P (k a) Q) -> safe P (get ≫= k) Q.
Proof. intros Hk s Hs. apply (Hk s Hs s Hs). Qed.

Lemma safe_forEach {A} P (f : A -> nat -> M St unit) (l : list A) :
  (forall k a, l !! k = Some a -> safe P (f a k) P) -> safe P (forEach f l) P.
Proof.
  intros Hf. apply (triple_forEach (fun _ => P) f l (fun _ => False)). exact Hf.
Qed.

Lemma safe_run {A} P Q (m : M St A) (s : St) :
  safe P m Q -> P s -> exists a, m s = ((m s).1, Some a) /\ Q (m s).1.
Proof.
  intros Hm Hs. specialize (Hm s Hs). destruct (m s) as [s' [a|]]; [|contradiction].
  exists a. split; [reflexivity|exact Hm].
Qed.

End Triples.

(** ** The neighbour index *)

Section NeighbourIndex.
Implicit Types (m : gmap string (gset string)) (l : LinkDesc) (a b : string).

Lemma neighbours_insert m a b (s : gset string) :
  neighbours (<[a := s]> m) b = if decide (a = b) then s else neighbours m b.
Proof.
  unfold neighbours. rewrite lookup_insert. destruct (decide (a = b)); reflexivity.
Qed.

(** What one link contributes, key by key. *)
Lemma neighbours_neighbourAdd m l a :
  neighbours (neighbourAdd m l) a =
    neighbours m a
    ∪ (if decide (ld_source l = a) then {[ld_target l]} else ∅)
    ∪ (if decide (ld_target l = a) then {[ld_source l]} else ∅).
Proof.
  unfold neighbourAdd. cbv zeta. rewrite !neighbours_insert.
  destruct (decide (ld_source l = a)) as [Hs|Hs];
    destruct (decide (ld_target l = a)) as [Ht|Ht];
    repeat case_decide; try congruence; try rewrite Hs; try rewrite Ht;
    set_solver.
Qed.

Lemma neighbourAdd_mono m l a b :
  b ∈ neighbours m a -> b ∈ neighbours (neighbourAdd m l) a.
Proof. rewrite neighbours_neighbourAdd. set_solver. Qed.

Lemma neighbourAdd_adds m l :
  ld_target l ∈ neighbours (neighbourAdd m l) (ld_source l) /\
  ld_source l ∈ neighbours (neighbourAdd m l) (ld_target l).
Proof.
  rewrite !neighbours_neighbourAdd. split; repeat case_decide; set_solver.
Qed.

Lemma foldl_neighbourAdd_mono (ls : list LinkDesc) m a b :
  b ∈ neighbours m a -> b ∈ neighbours (foldl neighbourAdd m ls) a.
Proof.
  revert m. induction ls as [|l ls IH]; intros m Hb; simpl; [exact Hb|].
  apply IH. by apply neighbourAdd_mono.
Qed.

Lemma foldl_neighbourAdd_symmetric (ls : list LinkDesc) m l :
  l ∈ ls ->
  ld_target l ∈ neighbours (foldl neighbourAdd m ls) (ld_source l) /\
  ld_source l ∈ neighbours (foldl neighbourAdd m ls) (ld_target l).
Proof.
  revert m. induction ls as [|l' ls IH]; intros m Hin.
  - by apply elem_of_nil in Hin.
  - apply elem_of_cons in Hin as [->|Hin]; simpl.
    + destruct (neighbourAdd_adds m l') as [H1 H2].
      split; by apply foldl_neighbourAdd_mono.
    + by apply IH.
Qed.

(** Every key of the index comes from a link, and has an entry once a
    link names it. *)
Lemma lookup_neighbourAdd_is_Some m l a :
  is_Some (neighbourAdd m l !! a) <->
  is_Some (m !! a) \/ a = ld_source l \/ a = ld_target l.
Proof.
  unfold neighbourAdd. cbv zeta. rewrite !lookup_insert_is_Some'. naive_solver.
Qed.

Lemma lookup_foldl_neighbourAdd_is_Some (ls : list LinkDesc) m a :
  is_Some (foldl neighbourAdd m ls !! a) <->
  is_Some (m !! a) \/ exists l, l ∈ ls /\ (a = ld_source l \/ a = ld_target l).
Proof.
  revert m. induction ls as [|l ls IH]; intros m; simpl.
  - split; [by left|]. intros [H|(l & Hl & _)]; [done|]. by apply elem_of_nil in Hl.
  - rewrite IH, lookup_neighbourAdd_is_Some. split.
    + intros [[H|H]|(l' & Hl' & H)].
      * by left.
      * right. exists l. split; [apply elem_of_cons; by left|done].
      * right. exists l'. split; [apply elem_of_cons; by right|done].
    + intros [H|(l' & Hl' & H)]; [left; by left|].
      apply elem_of_cons in Hl' as [->|Hl'].
      * left. by right.
      * right. by exists l'.
Qed.

End NeighbourIndex.



(** ** Marker radius *)

Section Radius.
Local Open Scope R_scope.

Lemma radius_truthy (n : SimNode) (s : R) :
  nd_size (sn_desc n) = Some s -> s <> 0 -> radius n = Rmax 4 (3 + s * 0.25).
Proof.
  intros Hs Hne. unfold radius. rewrite Hs.
  destruct (decide (s = 0)) as [Heq|_]; [contradiction|reflexivity].
Qed.

Lemma radius_falsy (n : SimNode) :
  nd_size (sn_desc n) = None \/ nd_size (sn_desc n) = Some 0 -> radius n = 5.
Proof.
  unfold radius. intros [-> | ->]; [reflexivity|].
  destruct (decide (0 = 0)) as [_|Hne]; [reflexivity|contradiction].
Qed.

Lemma radius_min (n : SimNode) : 4 <= radius n.
Proof.
  unfold radius. destruct (nd_size (sn_desc n)) as [s|]; [|lra].
  destruct (decide (s = 0)); [lra|apply Rmax_l].
Qed.

Lemma graph_renderGraph w h rnd st :
  graph (renderGraph w h rnd st) = Some (newGraph (S (passes st)) w h rnd (DATA st)).
Proof. reflexivity. Qed.

End Radius.

(** C9, as the code has it.  In a freshly rendered scene the radius of
    the visible circle of a node is [max(4, 3 + size * 0.25)] when the
    node has a size other than 0, and 5 when the size is absent or 0; it
    is never below 4. *)
Theorem marker_radius (st : State) (w h : R) (rnd : nat -> R) (g : Graph)
    (i : nat) (n : SimNode) :
  graph (renderGraph w h rnd st) = Some g ->
  nodes g !! i = Some n ->
  exists el, nodeEls g !! i = Some el /\
    (4 <= c_r el)%R /\
    (forall s, nd_size (sn_desc n) = Some s -> s <> 0%R ->
               c_r el = Rmax 4 (3 + s * 0.25)) /\
    (nd_size (sn_desc n) = None \/ nd_size (sn_desc n) = Some 0%R -> c_r el = 5%R).
Proof.
  rewrite graph_renderGraph. intros [= <-] Hn. simpl in *.
  exists (newCircle n). split.
  - rewrite list_lookup_fmap, Hn. reflexivity.
  - simpl. split; [apply radius_min|]. split; [apply radius_truthy|apply radius_falsy].
Qed.

Lemma marker_radius_witness :
  let d := mkDataset [mkNodeDesc "startup1" "AI Diagnostics Co" "startup" (Some 10%R)] [] in
  let st := initialState d in
  let rnd := fun _ : nat => 0%R in
  exists g n el, graph (renderGraph 800 600 rnd st) = Some g /\
    nodes g !! 0%nat = Some n /\ nodeEls g !! 0%nat = Some el /\
    c_r el = Rmax 4 (3 + 10 * 0.25).
Proof.
  intros d st rnd.
  destruct (marker_radius st 800 600 rnd
              (newGraph 1 800 600 rnd d) 0
              (mkNode 800 600 rnd 0 (mkNodeDesc "startup1" "AI Diagnostics Co" "startup" (Some 10%R)))
              eq_refl eq_refl) as (el & Hel & _ & Hsize & _).
  exists (newGraph 1 800 600 rnd d), (mkNode 800 600 rnd 0 (mkNodeDesc "startup1" "AI Diagnostics Co" "startup" (Some 10%R))), el.
  repeat split; [exact Hel|].
  apply Hsize; [reflexivity|lra].
Defined.

(** C9, as stated, fails for a node whose size is the number 0: the size
    is defined, the formula gives 4, the code gives 5. *)
Lemma marker_radius_counterexample :
  ~ (forall n s, nd_size (sn_desc n) = Some s -> radius n = Rmax 4 (3 + s * 0.25)).
Proof.
  intros H.
  specialize (H (mkSimNode (mkNodeDesc "n" "N" "startup" (Some 0%R)) 0 0 0 0 0 0) 0%R eq_refl).
  rewrite radius_falsy in H by (right; reflexivity).
  rewrite Rmax_left in H by lra. lra.
Qed.

(** ** The spring force of a link *)

Section Spring.
Local Open Scope R_scope.

Lemma springDist_pos dx dy : 0 < springDist dx dy.
Proof.
  unfold springDist. cbv zeta.
  destruct (decide (sqrt (dx * dx + dy * dy) = 0)) as [_|Hne]; [lra|].
  pose proof (sqrt_pos (dx * dx + dy * dy)). lra.
Qed.

Lemma springDist_nonzero dx dy :
  sqrt (dx * dx + dy * dy) <> 0 -> springDist dx dy = sqrt (dx * dx + dy * dy).
Proof.
  intros Hne. unfold springDist. cbv zeta.
  destruct (decide (sqrt (dx * dx + dy * dy) = 0)); [contradiction|reflexivity].
Qed.

Lemma springDist_zero dx dy :
  sqrt (dx * dx + dy * dy) = 0 -> springDist dx dy = 1.
Proof.
  intros Heq. unfold springDist. cbv zeta.
  destruct (decide (sqrt (dx * dx + dy * dy) = 0)); [reflexivity|contradiction].
Qed.

(** The effect of the loop body on a link with both endpoints. *)
Lemma linkForce_resolved (g : Graph) (l : SimLink) (src tgt : NodeRef) (s t : SimNode) :
  l_source l = Some src -> l_target l = Some tgt ->
  nodes g !! ref_index src = Some s -> nodes g !! ref_index tgt = Some t ->
  linkForce l g =
    (let dx := sn_x t - sn_x s in
     let dy := sn_y t - sn_y s in
     let force := springForce dx dy in
     set_nodes (alter (subForce (dx * force) (dy * force)) (ref_index tgt)
                  (alter (addForce (dx * force) (dy * force)) (ref_index src) (nodes g))) g,
     Some tt).
Proof.
  intros Hs Ht Hns Hnt. unfold linkForce, nodeAt, alterNode.
  unfold mbind, M_bind, bind, get, modify, deref, ret.
  rewrite Ht, Hs. simpl. rewrite Hnt, Hns. simpl. reflexivity.
Qed.

End Spring.




(** ** Zoom *)

Section Zoom.
Local Open Scope R_scope.

Lemma clamp_range (x : R) : 0.5 <= Rmax 0.5 (Rmin 4 x) <= 4.
Proof.
  split; [apply Rmax_l|].
  apply Rmax_lub; [lra|apply Rmin_l].
Qed.

Lemma wheel_scale_ok dY e st : scale_ok (wheel dY e st).
Proof. unfold scale_ok, wheel. simpl. apply clamp_range. Qed.

Lemma renderGraph_scale_ok w h rnd st : scale_ok (renderGraph w h rnd st).
Proof. unfold scale_ok. simpl. lra. Qed.

Lemma wheel_fixes_pointer dY e st :
  scale st <> 0 ->
  toScreen (wheel dY e st) (toSim st e) =
    {| p_x := clientX e - rect_left e; p_y := clientY e - rect_top e |}.
Proof.
  intros Hs. unfold toScreen, toSim, wheel. simpl.
  f_equal; field; exact Hs.
Qed.

End Zoom.

(** ** Invariants of the event loop *)

(** The graph-local part of a handler leaves the rest of the state
    alone. *)
Lemma keeps_onGraph {A} (P : State -> Prop) (m : M Graph A) (dflt : A) :
  (forall g s, P s -> P (set_graph g s)) -> keeps P (onGraph m dflt).
Proof.
  intros HP s Hs. unfold onGraph.
  destruct (graph s) as [g|]; [|exact Hs].
  destruct (m g) as [g' [a|]]; apply HP, Hs.
Qed.

(** The state read by [get] satisfies the invariant. *)
Lemma keeps_bind_get {St B} (P : St -> Prop) (k : St -> M St B) :
  (forall a, P a -> keeps P (k a)) -> keeps P (get ≫= k).
Proof. intros Hk s Hs. apply (Hk s Hs s Hs). Qed.

Lemma foldl_keeps {A} (P : State -> Prop) (f : State -> A -> State) (l : list A) s :
  (forall s a, P s -> P (f s a)) -> P s -> P (foldl f s l).
Proof.
  intros Hf. revert s. induction l as [|a l IH]; intros s Hs; simpl; [exact Hs|].
  apply IH, Hf, Hs.
Qed.

Lemma animationFrame_keeps (P : State -> Prop) s :
  (forall sid pend next s, P s -> P (set_frames sid pend next s)) ->
  keeps P tick -> P s -> P (animationFrame s).
Proof.
  intros Hframes Htick Hs. unfold animationFrame.
  apply foldl_keeps; [|apply Hframes, Hs].
  intros s' _ Hs'. apply keeps_fst; assumption.
Qed.

Lemma run_keeps (P : State -> Prop) (evs : list Event) st :
  (forall ev, keeps P (handler ev)) -> P st -> P (run st evs).
Proof.
  intros Hh. apply foldl_keeps. intros s ev Hs. unfold handle.
  apply keeps_fst; [apply Hh|exact Hs].
Qed.

Lemma keeps_setNodeEl (P : Graph -> Prop) i f :
  (forall els g, P g -> P (set_nodeEls els g)) -> keeps P (setNodeEl i f).
Proof.
  intros HP g Hg. unfold setNodeEl. destruct (nodeEls g !! i); [apply HP|]; exact Hg.
Qed.

Lemma keeps_setLinkEl (P : Graph -> Prop) i f :
  (forall els g, P g -> P (set_linkEls els g)) -> keeps P (setLinkEl i f).
Proof.
  intros HP g Hg. unfold setLinkEl. destruct (linkEls g !! i); [apply HP|]; exact Hg.
Qed.

Lemma keeps_setTextEl (P : Graph -> Prop) i f :
  (forall els g, P g -> P (set_textEls els g)) -> keeps P (setTextEl i f).
Proof.
  intros HP g Hg. unfold setTextEl. destruct (textEls g !! i); [apply HP|]; exact Hg.
Qed.

Lemma onGraph_eq {A} (m : M Graph A) (dflt : A) (s : State) (g : Graph) :
  graph s = Some g -> onGraph m dflt s = (set_graph (Some (m g).1) s, (m g).2).
Proof. intros Hg. unfold onGraph. rewrite Hg. destruct (m g); reflexivity. Qed.

(** One step of a proof that a handler keeps an invariant: the shape of
    the computation decides the rule. *)
Ltac keeps_step :=
  lazymatch goal with
  | |- keeps _ (get ≫= _) => apply keeps_bind_get; intros ? ?
  | |- keeps _ (_ ≫= _) => apply keeps_bind; [|intros ?]
  | |- keeps _ (mret _) => apply keeps_ret
  | |- keeps _ get => apply keeps_get
  | |- keeps _ (deref _) => apply keeps_deref
  | |- keeps _ throw => apply keeps_throw
  | |- keeps _ (forEach _ _) => apply keeps_forEach; intros ? ?
  | |- keeps _ (onGraph _ _) => apply keeps_onGraph; intros ? ?
  | |- keeps _ (setNodeEl _ _) => apply keeps_setNodeEl; intros ? ?
  | |- keeps _ (setLinkEl _ _) => apply keeps_setLinkEl; intros ? ?
  | |- keeps _ (setTextEl _ _) => apply keeps_setTextEl; intros ? ?
  | |- keeps _ (modify _) => apply keeps_modify; intros ?
  | |- keeps _ (match ?x with _ => _ end) => destruct x eqn:?
  end.

Ltac unfold_handlers :=
  unfold nodeClick, nodeMouseDown, svgClick, mouseMove, closeButton, openNode,
    removeFromWatchlist, resetPersona, onNodeSelect, onLinkSelect,
    updateDetailsPanel, highlightSelection, tick.

Ltac unfold_graph_ops :=
  unfold updatePositionsInstant, tickGraph, syncLink, syncCircle, syncText,
    linkForce, nodeAt, alterNode, highlightLink, highlightNode, linkEmphasised.

Section ScaleInvariant.
Local Open Scope R_scope.

Lemma cancelTick_scale st : scale (cancelTick st) = scale st.
Proof. unfold cancelTick. destruct (simulationId st); reflexivity. Qed.

Lemma tick_scale_ok : keeps scale_ok tick.
Proof. unfold_handlers. repeat keeps_step; unfold scale_ok; simpl; auto. Qed.

Lemma handler_scale_ok ev : keeps scale_ok (handler ev).
Proof.
  destruct ev; simpl; unfold_handlers; repeat keeps_step;
    try (unfold scale_ok; simpl; auto; fail).
  - intros _. apply renderGraph_scale_ok.
  - apply animationFrame_keeps; [intros; assumption|apply tick_scale_ok].
  - unfold scale_ok. rewrite cancelTick_scale. auto.
  - intros Hs. destruct (graph s); [apply wheel_scale_ok|exact Hs].
  - unfold svgMouseDown. destruct background; unfold scale_ok; simpl; auto.
Qed.

End ScaleInvariant.

(** C3.  A wheel event at pointer position [P] sets the zoom factor to
    [clamp(scale * (1 + deltaY * -0.001), 0.5, 4)] and the pan offset to
    [P - (P - offset) * (newScale / oldScale)] on both axes; the point of
    the simulation space that was under the pointer is mapped back to
    [P]; and the zoom factor stays within [0.5, 4], after this event and
    after any further events. *)
Theorem wheel_zoom (st : State) (deltaY : R) (e : MouseEvent) :
  (0.5 <= scale st <= 4)%R ->
  let st' := wheel deltaY e st in
  let px := (clientX e - rect_left e)%R in
  let py := (clientY e - rect_top e)%R in
  scale st' = Rmax 0.5 (Rmin 4 (scale st * (1 + deltaY * -0.001))) /\
  offsetX st' = (px - (px - offsetX st) * (scale st' / scale st))%R /\
  offsetY st' = (py - (py - offsetY st) * (scale st' / scale st))%R /\
  toScreen st' (toSim st e) = {| p_x := px; p_y := py |} /\
  (0.5 <= scale st' <= 4)%R /\
  (forall evs, 0.5 <= scale (run st' evs) <= 4)%R.
Proof.
  intros Hs st' px py.
  split; [reflexivity|]. split; [reflexivity|]. split; [reflexivity|].
  split; [apply wheel_fixes_pointer; lra|].
  split; [apply wheel_scale_ok|].
  intros evs. apply (run_keeps scale_ok evs st' handler_scale_ok), wheel_scale_ok.
Qed.

Lemma wheel_zoom_witness :
  let d := mkDataset [] [] in
  let st := renderGraph 800 600 (fun _ => 0%R) (initialState d) in
  let e := mkMouseEvent 410 320 10 20 in
  toScreen (wheel (-1000) e st) (toSim st e) = {| p_x := 400%R; p_y := 300%R |} /\
  scale (wheel (-1000) e st) = 2%R.
Proof.
  intros d st e.
  assert (Hs : (0.5 <= scale st <= 4)%R) by (simpl; lra).
  destruct (wheel_zoom st (-1000) e Hs) as (Hscale & _ & _ & Hfix & _).
  split.
  - rewrite Hfix. simpl. f_equal; lra.
  - rewrite Hscale. simpl.
    replace (1 * (1 + -1000 * -0.001))%R with 2%R by lra.
    rewrite Rmin_right by lra. rewrite Rmax_right by lra. reflexivity.
Defined.

(** ** Selection *)

Lemma tick_keeps_selection (P : State -> Prop) :
  (forall g s, P s -> P (set_graph g s)) ->
  (forall sid pend next s, P s -> P (set_frames sid pend next s)) ->
  keeps P tick.
Proof.
  intros Hg Hf. unfold_handlers. repeat keeps_step; auto.
  unfold requestTick. apply Hf.
Qed.

Lemma highlightSelection_keeps (P : State -> Prop) :
  (forall g s, P s -> P (set_graph g s)) -> keeps P highlightSelection.
Proof. intros Hg. unfold_handlers. repeat keeps_step; auto. Qed.

Lemma updateDetailsPanel_keeps (P : State -> Prop) :
  (forall p s, P s -> P (set_panel p s)) -> keeps P updateDetailsPanel.
Proof. intros Hp. unfold_handlers. repeat keeps_step; auto. Qed.

(** What the two selection callbacks leave in the selection variables,
    whether or not the highlighting throws. *)
Lemma onNodeSelect_selection (n : option NodeDesc) (st : State) :
  selection_is n None (onNodeSelect n st).1.
Proof.
  assert (H : triple (fun _ => True) (onNodeSelect n)
                (fun _ => selection_is n None) (selection_is n None)).
  { unfold onNodeSelect.
    apply (triple_bind _ _ _ (fun _ => selection_is n None)).
    - eapply triple_pre; [apply triple_modify|]. intros s _. split; reflexivity.
    - intros _. apply keeps_bind; [|intros _].
      + apply highlightSelection_keeps. intros g s Hs. exact Hs.
      + apply updateDetailsPanel_keeps. intros p s Hs. exact Hs. }
  specialize (H st I). destruct (onNodeSelect n st) as [s' [a|]]; exact H.
Qed.

Lemma onLinkSelect_selection (l : LinkObj) (st : State) :
  selection_is None (Some l) (onLinkSelect l st).1.
Proof.
  assert (H : triple (fun _ => True) (onLinkSelect l)
                (fun _ => selection_is None (Some l)) (selection_is None (Some l))).
  { unfold onLinkSelect.
    apply (triple_bind _ _ _ (fun _ => selection_is None (Some l))).
    - eapply triple_pre; [apply triple_modify|]. intros s _. split; reflexivity.
    - intros _. apply keeps_bind; [|intros _].
      + apply highlightSelection_keeps. intros g s Hs. exact Hs.
      + apply updateDetailsPanel_keeps. intros p s Hs. exact Hs. }
  specialize (H st I). destruct (onLinkSelect l st) as [s' [a|]]; exact H.
Qed.

Lemma cancelTick_exclusive st : exclusive st -> exclusive (cancelTick st).
Proof. unfold cancelTick. destruct (simulationId st); auto. Qed.

Lemma handler_exclusive ev : keeps exclusive (handler ev).
Proof.
  destruct ev; simpl; unfold_handlers; repeat keeps_step;
    try (unfold exclusive; simpl; auto; fail).
  - apply animationFrame_keeps; [intros; assumption|].
    apply tick_keeps_selection; intros; assumption.
  - apply cancelTick_exclusive.
  - intros Hs. destruct (graph s); exact Hs.
  - unfold svgMouseDown. destruct background; auto.
Qed.

(** C8.  After any sequence of events — node clicks, clicks on or off a
    link, the close button, the buttons that open a node, a persona
    reset, and all the others — at most one of [selectedNode] and
    [selectedLink] is set.  Selecting a node clears the selected link
    and selecting a link clears the selected node. *)
Theorem selection_exclusive (d : Dataset) (evs : list Event) :
  let st := run (initialState d) evs in
  (selectedNode st = None \/ selectedLink st = None) /\
  (forall n, selectedNode (onNodeSelect n st).1 = n /\
             selectedLink (onNodeSelect n st).1 = None) /\
  (forall l, selectedNode (onLinkSelect l st).1 = None /\
             selectedLink (onLinkSelect l st).1 = Some l).
Proof.
  intros st. split; [|split].
  - apply (run_keeps exclusive evs (initialState d) handler_exclusive).
    left. reflexivity.
  - intros n. apply onNodeSelect_selection.
  - intros l. apply onLinkSelect_selection.
Qed.

(** ** The graph data adapter *)

Section Adapter.
Implicit Types (ns : list SimNode) (m : gmap string nat) (key : string).

Lemma simNodes_lookup w h rnd d i :
  simNodes w h rnd d !! i = mkNode w h rnd i <$> data_nodes d !! i.
Proof. unfold simNodes. apply list_lookup_imap. Qed.

Lemma simNodes_ids w h rnd d :
  sn_id <$> simNodes w h rnd d = nd_id <$> data_nodes d.
Proof.
  apply list_eq. intros i. rewrite !list_lookup_fmap, simNodes_lookup.
  destruct (data_nodes d !! i); reflexivity.
Qed.

Lemma buildNodeMap_None i ns m key :
  buildNodeMap i ns m !! key = None <->
  m !! key = None /\ key ∉ (sn_id <$> ns).
Proof.
  revert i m. induction ns as [|n ns IH]; intros i m; simpl.
  - split; [intros H; split; [exact H|apply not_elem_of_nil]|intros [H _]; exact H].
  - rewrite IH, lookup_insert_None, not_elem_of_cons. naive_solver.
Qed.

Lemma buildNodeMap_Some i ns m key j :
  buildNodeMap i ns m !! key = Some j ->
  (m !! key = Some j /\ key ∉ (sn_id <$> ns)) \/
  (i <= j /\ exists n, ns !! (j - i) = Some n /\ sn_id n = key).
Proof.
  revert i m. induction ns as [|n ns IH]; intros i m; simpl.
  - intros H. left. split; [exact H|apply not_elem_of_nil].
  - intros H. apply IH in H as [[Hm Hnot]|[Hle (n' & Hn' & Hid)]].
    + apply lookup_insert_Some in Hm as [[<- <-]|[Hne Hm]].
      * right. split; [lia|]. exists n. rewrite Nat.sub_diag. split; reflexivity.
      * left. split; [exact Hm|]. apply not_elem_of_cons. split; [congruence|exact Hnot].
    + right. split; [lia|]. exists n'.
      replace (j - i) with (S (j - S i)) by lia. split; assumption.
Qed.

Lemma resolve_None ns key :
  resolve (buildNodeMap 0 ns ∅) ns key = None <-> key ∉ (sn_id <$> ns).
Proof.
  unfold resolve. split.
  - intros H. destruct (buildNodeMap 0 ns ∅ !! key) as [j|] eqn:Hj.
    + apply buildNodeMap_Some in Hj as [[Hm _]|[_ (n & Hn & _)]].
      * rewrite lookup_empty in Hm. discriminate.
      * rewrite Nat.sub_0_r in Hn. simpl in H. rewrite Hn in H. discriminate.
    + apply buildNodeMap_None in Hj as [_ Hnot]. exact Hnot.
  - intros Hnot.
    assert (Hj : buildNodeMap 0 ns ∅ !! key = None).
    { apply buildNodeMap_None. split; [apply lookup_empty|exact Hnot]. }
    rewrite Hj. reflexivity.
Qed.

Lemma resolve_Some ns key r :
  resolve (buildNodeMap 0 ns ∅) ns key = Some r ->
  ref_id r = key /\ exists n, ns !! ref_index r = Some n /\ sn_id n = key.
Proof.
  unfold resolve. intros H.
  destruct (buildNodeMap 0 ns ∅ !! key) as [j|] eqn:Hj; [|discriminate].
  apply buildNodeMap_Some in Hj as [[Hm _]|[_ (n & Hn & Hid)]].
  - rewrite lookup_empty in Hm. discriminate.
  - rewrite Nat.sub_0_r in Hn. simpl in H. rewrite Hn in H. simpl in H.
    injection H as <-. simpl. split; [exact Hid|]. exists n. split; assumption.
Qed.

Lemma resolve_is_Some ns key :
  key ∈ (sn_id <$> ns) -> is_Some (resolve (buildNodeMap 0 ns ∅) ns key).
Proof.
  intros Hin. destruct (resolve (buildNodeMap 0 ns ∅) ns key) eqn:Hr; [eauto|].
  apply resolve_None in Hr. contradiction.
Qed.

End Adapter.




(** ** Dragging a node *)

Section Drag.
Local Open Scope R_scope.

Lemma graph_cancelTick st : graph (cancelTick st) = graph st.
Proof. unfold cancelTick. destruct (simulationId st); reflexivity. Qed.

Lemma offsetX_cancelTick st : offsetX (cancelTick st) = offsetX st.
Proof. unfold cancelTick. destruct (simulationId st); reflexivity. Qed.

Lemma offsetY_cancelTick st : offsetY (cancelTick st) = offsetY st.
Proof. unfold cancelTick. destruct (simulationId st); reflexivity. Qed.

(** Synchronising the scene moves no node and leaves the drag alone,
    even when it throws. *)
Lemma updatePositionsInstant_frame ns d off :
  keeps (fun g => nodes g = ns /\ draggingNode g = d /\ dragOffset g = off)
        updatePositionsInstant.
Proof. unfold_graph_ops. repeat keeps_step; auto. Qed.

Lemma nodeMouseDown_dragging st g i n0 e0 :
  graph st = Some g -> nodes g !! i = Some n0 ->
  dragging i {| p_x := sn_x n0 - p_x (toSim st e0); p_y := sn_y n0 - p_y (toSim st e0) |}
           (offsetX st) (offsetY st) (scale st)
           (handle st (NodeMouseDown i e0)).
Proof.
  intros Hg Hn. unfold handle, handler, nodeMouseDown.
  unfold mbind, M_bind, bind, get, modify. rewrite Hg, Hn.
  erewrite onGraph_eq by (rewrite graph_cancelTick; reflexivity).
  unfold dragging. simpl.
  rewrite offsetX_cancelTick, offsetY_cancelTick, cancelTick_scale. simpl.
  repeat split. eexists. split; [reflexivity|]. simpl.
  repeat split. rewrite length_alter. apply lookup_lt_Some in Hn. exact Hn.
Qed.

Lemma mouseMove_dragging st i off ox oy sc e :
  dragging i off ox oy sc st ->
  dragging i off ox oy sc (handle st (MouseMove e)) /\
  exists g n, graph (handle st (MouseMove e)) = Some g /\ nodes g !! i = Some n /\
    sn_x n = (clientX e - rect_left e - ox) / sc + p_x off /\
    sn_y n = (clientY e - rect_top e - oy) / sc + p_y off.
Proof.
  intros (Hox & Hoy & Hsc & g & Hg & Hd & Hoff & Hlen).
  destruct (lookup_lt_is_Some_2 (nodes g) i Hlen) as [n Hn].
  set (n' := set_position (p_x (toSim st e) + p_x (dragOffset g))
                          (p_y (toSim st e) + p_y (dragOffset g)) n).
  set (m := (alterNode i (set_position (p_x (toSim st e) + p_x (dragOffset g))
                                       (p_y (toSim st e) + p_y (dragOffset g)))
             ≫= fun _ => updatePositionsInstant) : M Graph unit).
  assert (Heq : handle st (MouseMove e) = set_graph (Some (m g).1) st).
  { unfold handle, handler, mouseMove.
    unfold mbind at 1, M_bind at 1, bind at 1, get at 1. rewrite Hg, Hd.
    erewrite onGraph_eq by exact Hg. reflexivity. }
  rewrite Heq. clear Heq.
  assert (Hm : nodes (m g).1 = alter (fun _ => n') i (nodes g) /\
               draggingNode (m g).1 = Some i /\ dragOffset (m g).1 = off).
  { set (g1 := set_nodes (alter (set_position (p_x (toSim st e) + p_x (dragOffset g))
                                               (p_y (toSim st e) + p_y (dragOffset g)))
                                  i (nodes g)) g).
    change (m g) with (updatePositionsInstant g1).
    apply (keeps_fst _ updatePositionsInstant g1
             (updatePositionsInstant_frame (alter (fun _ => n') i (nodes g)) (Some i) off)).
    subst g1. simpl. split; [|split; assumption].
    apply list_eq. intros j. rewrite !list_lookup_alter.
    destruct (decide (i = j)); [|reflexivity]. rewrite Hn. reflexivity. }
  destruct Hm as (Hnodes & Hdrag & Hoffset).
  split.
  - unfold dragging. simpl. repeat split; try assumption.
    exists (m g).1. repeat split; try assumption.
    rewrite Hnodes, length_alter. exact Hlen.
  - exists (m g).1, n'. split; [reflexivity|]. split.
    + rewrite Hnodes, list_lookup_alter_eq, Hn. reflexivity.
    + subst n'. unfold toSim. simpl. rewrite Hox, Hoy, Hsc, Hoff. split; reflexivity.
Qed.

Lemma run_moves_dragging st i off ox oy sc (moves : list MouseEvent) :
  dragging i off ox oy sc st ->
  dragging i off ox oy sc (run st (MouseMove <$> moves)).
Proof.
  revert st. induction moves as [|e moves IH]; intros st Hst; simpl; [exact Hst|].
  apply IH. apply mouseMove_dragging. exact Hst.
Qed.

End Drag.

(** C4.  Under a view whose zoom factor is within its bounds, a drag
    that starts with the pointer at [e0] on node [i], at simulation
    position [N0], captures the offset [N0 - toSim(e0)] and
    keeps it through any number of pointer moves; after the last move, to
    [e1], the node is at [toSim(e1)] plus that offset, which is
    [N0 + (P1 - P0) / scale] when the svg element has not moved on the
    page in between. *)
Theorem drag_moves_with_pointer (st : State) (g : Graph) (i : nat) (n0 : SimNode)
    (e0 e1 : MouseEvent) (moves : list MouseEvent) :
  graph st = Some g ->
  nodes g !! i = Some n0 ->
  (0.5 <= scale st <= 4)%R ->
  rect_left e1 = rect_left e0 ->
  rect_top e1 = rect_top e0 ->
  let off := {| p_x := (sn_x n0 - p_x (toSim st e0))%R;
                p_y := (sn_y n0 - p_y (toSim st e0))%R |} in
  let st1 := handle st (NodeMouseDown i e0) in
  let st2 := run st1 (MouseMove <$> (moves ++ [e1])) in
  (exists g1, graph st1 = Some g1 /\ draggingNode g1 = Some i /\ dragOffset g1 = off) /\
  exists g2 n2,
    graph st2 = Some g2 /\ nodes g2 !! i = Some n2 /\
    draggingNode g2 = Some i /\ dragOffset g2 = off /\
    sn_x n2 = (p_x (toSim st e1) + p_x off)%R /\
    sn_y n2 = (p_y (toSim st e1) + p_y off)%R /\
    sn_x n2 = (sn_x n0 + (clientX e1 - clientX e0) / scale st)%R /\
    sn_y n2 = (sn_y n0 + (clientY e1 - clientY e0) / scale st)%R.
Proof.
  intros Hg Hn _ Hleft Htop off st1 st2.
  pose proof (nodeMouseDown_dragging st g i n0 e0 Hg Hn) as H1.
  fold off in H1. fold st1 in H1.
  split.
  - destruct H1 as (_ & _ & _ & g1 & Hg1 & Hd1 & Hoff1 & _). eauto.
  - subst st2. rewrite fmap_app. unfold run. rewrite foldl_app. simpl.
    fold (run st1 (MouseMove <$> moves)).
    pose proof (run_moves_dragging st1 i off _ _ _ moves H1) as H2.
    destruct (mouseMove_dragging _ i off _ _ _ e1 H2)
      as [(_ & _ & _ & g2 & Hg2 & Hd2 & Hoff2 & _) (g2' & n2 & Hg2' & Hn2 & Hx & Hy)].
    rewrite Hg2 in Hg2'. injection Hg2' as <-.
    exists g2, n2.
    split; [exact Hg2|]. split; [exact Hn2|]. split; [exact Hd2|]. split; [exact Hoff2|].
    split; [exact Hx|]. split; [exact Hy|].
    rewrite Hx, Hy. unfold off, toSim. simpl. rewrite Hleft, Htop.
    unfold Rdiv. split; ring.
Qed.

Section DragExample.
Local Open Scope R_scope.

Lemma drag_moves_with_pointer_witness :
  let d := mkDataset [mkNodeDesc "a" "A" "startup" None] [] in
  let rnd := fun _ : nat => 0.5 in
  let st := renderGraph 800 600 rnd (initialState d) in
  let n0 := mkNode 800 600 rnd 0 (mkNodeDesc "a" "A" "startup" None) in
  let e0 := mkMouseEvent 410 320 10 20 in
  let e1 := mkMouseEvent 440 360 10 20 in
  exists g2 n2,
    graph (run (handle st (NodeMouseDown 0 e0)) [MouseMove e1]) = Some g2 /\
    nodes g2 !! 0%nat = Some n2 /\
    sn_x n2 = sn_x n0 + (440 - 410) / 1 /\
    sn_y n2 = sn_y n0 + (360 - 320) / 1.
Proof.
  intros d rnd st n0 e0 e1.
  assert (Hscale : 0.5 <= scale st <= 4) by (simpl; lra).
  destruct (drag_moves_with_pointer st (newGraph 1 800 600 rnd d) 0 n0 e0 e1 []
              eq_refl eq_refl Hscale eq_refl eq_refl)
    as (_ & g2 & n2 & Hg2 & Hn2 & _ & _ & _ & _ & Hx & Hy).
  exists g2, n2. split; [exact Hg2|]. split; [exact Hn2|]. split; [exact Hx|exact Hy].
Defined.

End DragExample.

(** ** The simulation loop *)

Section TickLoop.
Implicit Types (ls : list SimLink) (n c : nat) (g : Graph).

Lemma inpass_set_nodes ls n c g ns :
  length ns = n -> inpass ls n c g -> inpass ls n c (set_nodes ns g).
Proof. intros Hlen ((Hl & Hn & Hrest) & Hc). repeat split; simpl; auto. all: apply Hrest. Qed.

Lemma inpass_set_nodeEls ls n c g els :
  length els = n -> inpass ls n c g -> inpass ls n c (set_nodeEls els g).
Proof. intros Hlen ((Hl & Hn & He & Hrest) & Hc). repeat split; simpl; auto. all: apply Hrest. Qed.

Lemma inpass_set_linkEls ls n c g els :
  length els = length ls -> inpass ls n c g -> inpass ls n c (set_linkEls els g).
Proof. intros Hlen ((Hl & Hn & He & Hle & Ht) & Hc). repeat split; simpl; auto. Qed.

Lemma inpass_set_textEls ls n c g els :
  length els = n -> inpass ls n c g -> inpass ls n c (set_textEls els g).
Proof. intros Hlen ((Hl & Hn & He & Hle & Ht) & Hc). repeat split; simpl; auto. Qed.

Lemma safe_nodeAt ls n c (r : NodeRef) :
  ref_index r < n -> safe (inpass ls n c) (nodeAt r) (inpass ls n c).
Proof.
  intros Hlt g Hg. unfold nodeAt, mbind, M_bind, bind, get.
  destruct (lookup_lt_is_Some_2 (nodes g) (ref_index r)) as [x Hx].
  - destruct Hg as ((_ & Hn & _) & _). lia.
  - rewrite Hx. exact Hg.
Qed.

Lemma safe_alterNode ls n c i f :
  safe (inpass ls n c) (alterNode i f) (inpass ls n c).
Proof.
  apply safe_modify. intros g Hg. apply inpass_set_nodes; [|exact Hg].
  rewrite length_alter. apply Hg.
Qed.

Lemma safe_setNodeEl ls n c i f :
  i < n -> safe (inpass ls n c) (setNodeEl i f) (inpass ls n c).
Proof.
  intros Hlt g Hg. unfold setNodeEl.
  destruct (lookup_lt_is_Some_2 (nodeEls g) i) as [x Hx].
  - destruct Hg as ((_ & _ & He & _) & _). lia.
  - rewrite Hx. apply inpass_set_nodeEls; [|exact Hg].
    rewrite length_insert. apply Hg.
Qed.

Lemma safe_setLinkEl ls n c i f :
  i < length ls -> safe (inpass ls n c) (setLinkEl i f) (inpass ls n c).
Proof.
  intros Hlt g Hg. unfold setLinkEl.
  destruct (lookup_lt_is_Some_2 (linkEls g) i) as [x Hx].
  - destruct Hg as ((_ & _ & _ & He & _) & _). lia.
  - rewrite Hx. apply inpass_set_linkEls; [|exact Hg].
    rewrite length_insert. apply Hg.
Qed.

Lemma safe_setTextEl ls n c i f :
  i < n -> safe (inpass ls n c) (setTextEl i f) (inpass ls n c).
Proof.
  intros Hlt g Hg. unfold setTextEl.
  destruct (lookup_lt_is_Some_2 (textEls g) i) as [x Hx].
  - destruct Hg as ((_ & _ & _ & _ & He) & _). lia.
  - rewrite Hx. apply inpass_set_textEls; [|exact Hg].
    rewrite length_insert. apply Hg.
Qed.

Lemma safe_linkForce ls n c l :
  link_ok n l -> safe (inpass ls n c) (linkForce l) (inpass ls n c).
Proof.
  intros (src & tgt & Hs & Ht & Hsn & Htn). unfold linkForce. rewrite Hs, Ht.
  rewrite deref_Some_bind.
  apply safe_bind; [apply safe_nodeAt, Htn|intros ?].
  rewrite deref_Some_bind.
  apply safe_bind; [apply safe_nodeAt, Hsn|intros ?].
  apply safe_bind; [apply safe_alterNode|intros ?]. apply safe_alterNode.
Qed.

Lemma safe_syncLink ls n c l i :
  link_ok n l -> i < length ls -> safe (inpass ls n c) (syncLink l i) (inpass ls n c).
Proof.
  intros (src & tgt & Hs & Ht & Hsn & Htn) Hi. unfold syncLink. rewrite Hs, Ht.
  rewrite deref_Some_bind.
  apply safe_bind; [apply safe_nodeAt, Hsn|intros ?].
  rewrite deref_Some_bind.
  apply safe_bind; [apply safe_nodeAt, Htn|intros ?].
  apply safe_setLinkEl, Hi.
Qed.

Lemma chargePair_length i j (ns : list SimNode) :
  length (chargePair i j ns) = length ns.
Proof.
  unfold chargePair. destruct (ns !! i); [|reflexivity].
  destruct (ns !! j); [|reflexivity]. rewrite !length_alter. reflexivity.
Qed.

Lemma foldl_length {A B} (f : list A -> B -> list A) (l : list B) (ns : list A) :
  (forall acc b, length (f acc b) = length acc) -> length (foldl f ns l) = length ns.
Proof.
  intros Hf. revert ns. induction l as [|b l IH]; intros ns; simpl; [reflexivity|].
  rewrite IH. apply Hf.
Qed.

Lemma chargeForces_length (ns : list SimNode) :
  length (chargeForces ns) = length ns.
Proof.
  unfold chargeForces. apply foldl_length. intros acc i.
  apply foldl_length. intros acc' j. apply chargePair_length.
Qed.

(** On a well-formed graph a tick runs to its end: it does not throw,
    it keeps the shape of the graph and it counts itself. *)
Lemma tickGraph_safe ls n c :
  Forall (link_ok n) ls ->
  safe (inpass ls n c) tickGraph (inpass ls n (S c)).
Proof.
  intros Hok. unfold tickGraph.
  apply safe_bind; [|intros _].
  { apply safe_modify. intros g Hg. apply inpass_set_nodes; [|exact Hg].
    rewrite length_fmap. apply Hg. }
  apply safe_bind_get. intros g0 Hg0.
  assert (Hls0 : links g0 = ls) by apply Hg0. rewrite Hls0.
  apply safe_bind; [|intros _].
  { apply safe_forEach. intros k l Hl. apply safe_linkForce.
    eapply Forall_lookup_1; eassumption. }
  apply safe_bind; [|intros _].
  { apply safe_modify. intros g Hg. apply inpass_set_nodes; [|exact Hg].
    rewrite chargeForces_length. apply Hg. }
  apply safe_bind; [|intros _].
  { apply safe_modify. intros g Hg. apply inpass_set_nodes; [|exact Hg].
    rewrite length_fmap. apply Hg. }
  apply safe_bind; [|intros _].
  { apply safe_modify. intros g Hg. apply inpass_set_nodes; [|exact Hg].
    rewrite length_fmap. apply Hg. }
  apply safe_bind_get. intros g1 Hg1.
  assert (Hls1 : links g1 = ls) by apply Hg1. rewrite Hls1.
  assert (Hn1 : length (nodes g1) = n) by apply Hg1.
  apply safe_bind; [|intros _].
  { apply safe_forEach. intros k l Hl. apply safe_syncLink.
    - eapply Forall_lookup_1; eassumption.
    - eapply lookup_lt_Some; eassumption. }
  apply safe_bind; [|intros _].
  { apply safe_forEach. intros k x Hx.
    assert (k < n) by (rewrite <- Hn1; eapply lookup_lt_Some; eassumption).
    apply safe_bind; [apply safe_setNodeEl; assumption|intros _].
    apply safe_setTextEl; assumption. }
  apply safe_modify. intros g ((Hl & Hn & He & Hle & Ht) & Hc).
  repeat split; simpl; auto; congruence.
Qed.

End TickLoop.

Section Frames.

Lemma cancelTick_pending st : frames_ok st -> pendingFrames (cancelTick st) = [].
Proof.
  unfold cancelTick. intros [Hnil|(h & Hsid & Hpend)].
  - destruct (simulationId st); simpl; rewrite Hnil; reflexivity.
  - rewrite Hsid. simpl. rewrite Hpend.
    rewrite filter_cons_False by (intros Hne; apply Hne; reflexivity).
    reflexivity.
Qed.

Lemma renderGraph_frames st w h rnd :
  frames_ok st ->
  exists hd, simulationId (renderGraph w h rnd st) = Some hd /\
             pendingFrames (renderGraph w h rnd st) = [hd].
Proof.
  intros Hst. exists (nextHandle (cancelTick st)). simpl.
  rewrite (cancelTick_pending st Hst). split; reflexivity.
Qed.

(** A tick entered with no callback left in the queue leaves at most
    its own successor there. *)
Lemma tick_frames :
  triple (fun s => pendingFrames s = []) tick (fun _ => frames_ok) frames_ok.
Proof.
  unfold tick.
  apply (triple_bind _ _ _ (fun _ s => pendingFrames s = [])).
  - eapply triple_conseq.
    + apply (keeps_onGraph (fun s => pendingFrames s = [])). intros g s Hs. exact Hs.
    + auto.
    + auto.
    + intros s Hs. left. exact Hs.
  - intros _. apply triple_bind with (Q := fun _ s => pendingFrames s = []).
    + eapply triple_conseq; [apply (keeps_get (fun s => pendingFrames s = []))|auto..].
      intros s Hs. left. exact Hs.
    + intros s0. destruct (graph s0) as [g|].
      * destruct (decide (tickCount g < maxTicks)).
        -- eapply triple_pre; [apply triple_modify|]. intros s Hs. right.
           exists (nextHandle s). simpl. rewrite Hs. split; reflexivity.
        -- eapply triple_pre; [apply triple_modify|]. intros s Hs. left. exact Hs.
      * eapply triple_pre; [apply triple_ret|]. intros s Hs. left. exact Hs.
Qed.

Lemma animationFrame_frames_ok st : frames_ok st -> frames_ok (animationFrame st).
Proof.
  unfold animationFrame. intros [Hnil|(h & Hsid & Hpend)].
  - rewrite Hnil. simpl. left. reflexivity.
  - rewrite Hpend. simpl.
    pose proof (tick_frames (set_frames (simulationId st) [] (nextHandle st) st) eq_refl) as H.
    destruct (tick _) as [s' [a|]]; exact H.
Qed.

Lemma handler_frames_ok ev : keeps frames_ok (handler ev).
Proof.
  destruct ev; simpl; unfold_handlers; repeat keeps_step;
    try (unfold frames_ok; simpl; auto; fail).
  - intros Hs. right. apply renderGraph_frames, Hs.
  - apply animationFrame_frames_ok.
  - intros Hs. left. apply cancelTick_pending, Hs.
  - intros Hs. destruct (graph s); exact Hs.
  - unfold svgMouseDown. destruct background; auto.
Qed.

Lemma cancelTick_DATA st : DATA (cancelTick st) = DATA st.
Proof. unfold cancelTick. destruct (simulationId st); reflexivity. Qed.

Lemma handler_DATA d ev : keeps (fun s => DATA s = d) (handler ev).
Proof.
  destruct ev; simpl; unfold_handlers; repeat keeps_step;
    try (simpl; auto; fail).
  - apply (animationFrame_keeps (fun s => DATA s = d)); [intros; assumption|].
    apply tick_keeps_selection; intros; assumption.
  - rewrite cancelTick_DATA. auto.
  - intros Hs. destruct (graph s); exact Hs.
  - unfold svgMouseDown. destruct background; auto.
Qed.

End Frames.

Section Termination.

Lemma mkLink_ok (d : Dataset) w h rnd (ld : LinkDesc) :
  links_valid d -> ld ∈ data_links d ->
  link_ok (length (simNodes w h rnd d))
          (mkLink (buildNodeMap 0 (simNodes w h rnd d) ∅) (simNodes w h rnd d) ld).
Proof.
  intros Hvalid Hin. destruct (Hvalid ld Hin) as [Hs Ht].
  rewrite <- (simNodes_ids w h rnd d) in Hs, Ht.
  destruct (resolve_is_Some _ _ Hs) as [src Hsrc].
  destruct (resolve_is_Some _ _ Ht) as [tgt Htgt].
  exists src, tgt. simpl. split; [exact Hsrc|]. split; [exact Htgt|].
  apply resolve_Some in Hsrc as (_ & n1 & Hn1 & _).
  apply resolve_Some in Htgt as (_ & n2 & Hn2 & _).
  split; eapply lookup_lt_Some; eassumption.
Qed.

Lemma newGraph_wf pass w h rnd d :
  links_valid d -> wf_graph (newGraph pass w h rnd d).
Proof.
  intros Hvalid. split; simpl.
  - unfold simLinks. apply Forall_fmap, Forall_forall. intros ld Hin.
    apply mkLink_ok; assumption.
  - repeat split; simpl; rewrite ?length_fmap; reflexivity.
Qed.

Lemma renderGraph_sim_at st w h rnd :
  frames_ok st -> links_valid (DATA st) ->
  exists ls n, sim_at ls n 0 (renderGraph w h rnd st).
Proof.
  intros Hf Hvalid.
  destruct (newGraph_wf (S (passes st)) w h rnd (DATA st) Hvalid) as [Hok Hshape].
  eexists _, _. split; [exact Hok|]. split.
  - eexists. split; [apply graph_renderGraph|]. split; [exact Hshape|reflexivity].
  - split.
    + intros _. apply renderGraph_frames, Hf.
    + unfold maxTicks. lia.
Qed.

Lemma tick_run st g g' :
  graph st = Some g -> tickGraph g = (g', Some tt) ->
  (tick st).1 =
    if decide (tickCount g' < maxTicks)
    then requestTick (set_graph (Some g') st)
    else set_frames None (pendingFrames st) (nextHandle st) (set_graph (Some g') st).
Proof.
  intros Hg Hrun. unfold tick, mbind, M_bind, bind.
  rewrite (onGraph_eq _ _ _ _ Hg), Hrun. simpl.
  destruct (decide (tickCount g' < maxTicks)); reflexivity.
Qed.

Lemma animationFrame_idle st :
  pendingFrames st = [] -> animationFrame st = st.
Proof.
  intros Hnil. unfold animationFrame. rewrite Hnil. simpl.
  destruct st. simpl in *. subst. reflexivity.
Qed.

Lemma animationFrame_sim_at ls n k st :
  sim_at ls n k st -> sim_at ls n (S k) (animationFrame st).
Proof.
  intros (Hok & (g & Hg & Hin) & Hlt & Hge).
  destruct (decide (k < maxTicks)) as [Hk|Hk].
  - destruct (Hlt Hk) as (hd & Hsid & Hpend).
    rewrite Nat.min_l in Hin by lia.
    destruct (safe_run _ _ tickGraph g (tickGraph_safe ls n k Hok) Hin) as ([] & Hrun & Hin').
    set (g' := (tickGraph g).1) in *.
    unfold animationFrame. rewrite Hpend. simpl.
    rewrite (tick_run _ g g') by (simpl; assumption).
    assert (Hc : tickCount g' = S k) by apply Hin'.
    rewrite Hc. split; [exact Hok|].
    destruct (decide (S k < maxTicks)) as [HSk|HSk].
    + split; [|split].
      * exists g'. split; [reflexivity|]. rewrite Nat.min_l by lia. exact Hin'.
      * intros _. eexists. split; reflexivity.
      * lia.
    + split; [|split].
      * exists g'. split; [reflexivity|]. rewrite Nat.min_r by lia.
        replace maxTicks with (S k) by lia. exact Hin'.
      * lia.
      * intros _. split; reflexivity.
  - destruct Hge as [Hsid Hpend]; [lia|].
    rewrite animationFrame_idle by exact Hpend.
    split; [exact Hok|]. split; [|split].
    + exists g. split; [exact Hg|].
      rewrite Nat.min_r in Hin by lia. rewrite Nat.min_r by lia. exact Hin.
    + lia.
    + intros _. split; assumption.
Qed.

Lemma frames_sim_at ls n k st :
  sim_at ls n 0 st -> sim_at ls n k (run st (replicate k AnimationFrame)).
Proof.
  intros H0.
  assert (Hgen : forall j s, sim_at ls n j s ->
                   sim_at ls n (j + k) (run s (replicate k AnimationFrame))).
  { induction k as [|k IH]; intros j s Hs; simpl.
    - rewrite Nat.add_0_r. exact Hs.
    - replace (j + S k) with (S j + k) by lia. apply IH.
      apply animationFrame_sim_at. exact Hs. }
  apply (Hgen 0 st H0).
Qed.

End Termination.

Section TickBound.

(** The graph-local computations other than the count at the end of a
    tick leave the tick count alone. *)
Ltac count_kept := unfold_graph_ops; repeat keeps_step; simpl; auto.

Lemma keeps_onGraph_quiet {A} c pend (m : M Graph A) (dflt : A) :
  (forall c', keeps (fun g => tickCount g = c') m) ->
  keeps (quiet c pend) (onGraph m dflt).
Proof.
  intros Hm s [Hc Hpend]. unfold onGraph.
  destruct (graph s) as [g|] eqn:Hg; [|split; assumption].
  specialize (Hm (tickCount g) g eq_refl).
  unfold ticksRun in Hc. rewrite Hg in Hc.
  destruct (m g) as [g' [a|]]; (split; [|exact Hpend]);
    unfold ticksRun; simpl; rewrite Hm; exact Hc.
Qed.

Ltac quiet_step :=
  lazymatch goal with
  | |- keeps (quiet _ _) (onGraph _ _) =>
      apply keeps_onGraph_quiet; intros ?; count_kept
  | |- _ => keeps_step
  end.

Lemma quiet_cancelTick c pend st : quiet c pend st -> quiet c pend (cancelTick st).
Proof.
  intros [Hc Hpend]. unfold cancelTick. destruct (simulationId st); [|split; assumption].
  split; [exact Hc|]. intros Hnil. simpl. rewrite (Hpend Hnil). reflexivity.
Qed.

Lemma quiet_map_graph c pend st (f : Graph -> Graph) :
  (forall g, tickCount (f g) = tickCount g) ->
  quiet c pend st -> quiet c pend (set_graph (f <$> graph st) st).
Proof.
  intros Hf [Hc Hpend]. split; [|exact Hpend].
  unfold ticksRun in *. simpl. destruct (graph st) as [g|]; simpl in *; [|exact Hc].
  rewrite Hf. exact Hc.
Qed.

Lemma quiet_snapshot c pend a st g g' :
  quiet c pend a -> graph a = Some g -> tickCount g' = tickCount g ->
  quiet c pend st -> quiet c pend (set_graph (Some g') st).
Proof.
  intros [Ha _] Hg Heq [_ Hpend]. split; [|exact Hpend].
  unfold ticksRun in *. simpl. rewrite Heq. rewrite Hg in Ha. exact Ha.
Qed.

(** Every event other than a render pass and an animation frame leaves
    the tick count alone and queues no tick. *)
Lemma handler_quiet c pend ev :
  match ev with
  | RenderGraph _ _ _ | AnimationFrame => True
  | _ => keeps (quiet c pend) (handler ev)
  end.
Proof.
  destruct ev; simpl; try exact I; unfold_handlers; repeat quiet_step;
    try (unfold quiet, ticksRun; simpl; auto; fail).
  - intros Hq. eapply (quiet_snapshot c pend _ _ g); [|eassumption|reflexivity|exact Hq]; assumption.
  - apply quiet_cancelTick.
  - intros Hq. destruct (graph s); [|exact Hq]. exact Hq.
  - unfold svgMouseDown. destruct background; [|auto].
    apply quiet_map_graph. reflexivity.
  - intros Hq. eapply (quiet_snapshot c pend _ _ g); [|eassumption|reflexivity|exact Hq]; assumption.
  - apply quiet_map_graph. reflexivity.
  - apply quiet_map_graph. reflexivity.
Qed.

Lemma keeps_then {St A B} (P : St -> Prop) (m : M St A) (k : A -> M St B)
    (Q : B -> St -> Prop) :
  keeps P m -> (forall a, triple P (k a) Q P) -> triple P (m ≫= k) Q P.
Proof. intros Hm Hk. eapply triple_bind; [exact Hm|exact Hk]. Qed.

(** A tick counts itself when it runs to its end, and not when it
    throws. *)
Lemma tickGraph_count c :
  triple (fun g => tickCount g = c) tickGraph
         (fun _ g => tickCount g = S c) (fun g => tickCount g = c).
Proof.
  unfold tickGraph.
  apply keeps_then; [count_kept|intros _].
  apply triple_bind_get. intros g0 _.
  apply keeps_then; [count_kept|intros _].
  apply keeps_then; [count_kept|intros _].
  apply keeps_then; [count_kept|intros _].
  apply keeps_then; [count_kept|intros _].
  apply triple_bind_get. intros g1 _.
  apply keeps_then; [count_kept|intros _].
  apply keeps_then; [count_kept|intros _].
  eapply triple_pre; [apply triple_modify|]. intros g Hg. simpl. rewrite Hg. reflexivity.
Qed.

Lemma tick_throw st g g' :
  graph st = Some g -> tickGraph g = (g', None) ->
  (tick st).1 = set_graph (Some g') st.
Proof.
  intros Hg Hrun. unfold tick, mbind, M_bind, bind.
  rewrite (onGraph_eq _ _ _ _ Hg), Hrun. reflexivity.
Qed.

Lemma tick_no_graph st : graph st = None -> (tick st).1 = st.
Proof.
  intros Hg. unfold tick, mbind, M_bind, bind, onGraph, get. rewrite Hg. simpl.
  rewrite Hg. reflexivity.
Qed.

Lemma animationFrame_tick_bound st : tick_bound st -> tick_bound (animationFrame st).
Proof.
  intros [Hf Hbound]. split; [apply animationFrame_frames_ok, Hf|].
  destruct Hf as [Hnil|(hd & Hsid & Hpend)].
  - rewrite animationFrame_idle by exact Hnil. exact Hbound.
  - unfold animationFrame. rewrite Hpend. simpl.
    set (st0 := set_frames (simulationId st) [] (nextHandle st) st).
    destruct (graph st) as [g|] eqn:Hg.
    + destruct (Hbound g eq_refl) as [_ Hlt].
      assert (Hc : tickCount g < maxTicks) by (apply Hlt; rewrite Hpend; discriminate).
      pose proof (tickGraph_count (tickCount g) g eq_refl) as Hcount.
      destruct (tickGraph g) as [g' [[]|]] eqn:Hrun.
      * rewrite (tick_run st0 g g' Hg Hrun).
        destruct (decide (tickCount g' < maxTicks)) as [Hlt'|Hge'].
        -- intros g2 [= <-]. split; [lia|]. intros _. exact Hlt'.
        -- intros g2 [= <-]. split; [lia|]. simpl. intros Hne. contradiction.
      * rewrite (tick_throw st0 g g' Hg Hrun).
        intros g2 [= <-]. split; [lia|]. simpl. intros Hne. contradiction.
    + rewrite (tick_no_graph st0 Hg). intros g2 Hg2. simpl in Hg2. congruence.
Qed.

Lemma quiet_tick_bound st st' :
  tick_bound st -> frames_ok st' ->
  quiet (ticksRun st) (pendingFrames st) st' -> tick_bound st'.
Proof.
  intros [_ Hb] Hframes [Hc Hpend]. split; [exact Hframes|].
  intros g' Hg'. unfold ticksRun in Hc. rewrite Hg' in Hc.
  destruct (graph st) as [g|] eqn:Hg; [|discriminate].
  injection Hc as Hc. destruct (Hb g eq_refl) as [Hle Hlt].
  rewrite Hc. split; [exact Hle|].
  intros Hne. apply Hlt. intros Hnil. apply Hne, Hpend, Hnil.
Qed.

Lemma handle_tick_bound st ev : tick_bound st -> tick_bound (handle st ev).
Proof.
  intros Hst.
  assert (Hframes : frames_ok (handle st ev)).
  { unfold handle. apply keeps_fst; [apply handler_frames_ok|apply Hst]. }
  pose proof (handler_quiet (ticksRun st) (pendingFrames st) ev) as Hq.
  assert (Hstart : quiet (ticksRun st) (pendingFrames st) st).
  { split; [reflexivity|auto]. }
  destruct ev; simpl in Hq;
    try (apply (quiet_tick_bound st _ Hst Hframes);
         unfold handle; apply keeps_fst; [exact Hq|exact Hstart]).
  - split; [exact Hframes|]. intros g Hg. unfold handle in Hg. simpl in Hg.
    injection Hg as <-. simpl. unfold maxTicks. lia.
  - apply animationFrame_tick_bound, Hst.
Qed.

Lemma run_tick_bound st evs : tick_bound st -> tick_bound (run st evs).
Proof. apply foldl_keeps. intros s ev. apply handle_tick_bound. Qed.

End TickBound.

(** With the dangling link of that example the first tick throws at
    [l.target.x]: no tick is counted, none is scheduled again, and
    [simulationId] keeps the handle of the callback that threw. *)
Lemma dangling_link_tick_throws :
  let d := mkDataset [mkNodeDesc "a" "A" "startup" None]
                     [mkLinkDesc "a" "missing" "support" ""] in
  let st := renderGraph 800 600 (fun _ => 0%R) (initialState d) in
  (tick st).2 = None /\
  ticksRun (animationFrame st) = Some 0 /\
  pendingFrames (animationFrame st) = [] /\
  simulationId (animationFrame st) = Some 1.
Proof.
  intros d st.
  set (g := newGraph 1 800 600 (fun _ => 0%R) d).
  assert (Hthrow : exists g', tickGraph g = (g', None) /\ tickCount g' = 0).
  { assert (Htgt : resolve (buildNodeMap 0 (nodes g) ∅) (nodes g) "missing" = None).
    { apply resolve_None. intros Hin. simpl in Hin.
      apply list_elem_of_singleton in Hin. discriminate. }
    assert (H : triple (fun g0 => links g0 = links g /\ tickCount g0 = 0) tickGraph
                  (fun _ _ => False) (fun g0 => tickCount g0 = 0)).
    { unfold tickGraph.
      apply (triple_bind _ _ _ (fun _ g0 => links g0 = links g /\ tickCount g0 = 0)).
      { eapply triple_pre; [apply triple_modify|]. intros s Hs. exact Hs. }
      intros _. apply triple_bind_get. intros g0 [Hls _]. rewrite Hls.
      apply (triple_bind _ _ _ (fun _ _ => False)); [|intros _ s []].
      change (links g) with [mkLink (buildNodeMap 0 (nodes g) ∅) (nodes g)
                               (mkLinkDesc "a" "missing" "support" "")].
      unfold forEach, forEachFrom, linkForce, mkLink. cbn [l_target ld_target].
      rewrite Htgt. intros s [_ Hc]. exact Hc. }
    specialize (H g (conj eq_refl eq_refl)).
    destruct (tickGraph g) as [g' [[]|]]; [contradiction|]. eauto. }
  destruct Hthrow as (g' & Hrun & Hcount).
  split.
  - unfold tick, mbind, M_bind, bind.
    rewrite (onGraph_eq tickGraph tt st g eq_refl), Hrun. reflexivity.
  - change (animationFrame st)
      with (tick (set_frames (simulationId st) [] (nextHandle st) st)).1.
    rewrite (tick_throw (set_frames (simulationId st) [] (nextHandle st) st) g g'
               eq_refl Hrun).
    unfold ticksRun. simpl. rewrite Hcount. repeat split.
Qed.

(** C5.  In every render pass, whatever the dataset and whatever events
    follow, at most 100 ticks run and a tick is queued only while fewer
    than 100 have run.  In a pass rendered from a dataset whose links
    name existing nodes, and left to run, [k] animation frames after
    [renderGraph] the tick has run [min(k, 100)] times: one more tick is
    scheduled while fewer than 100 have run, and after the 100th none is
    scheduled and [simulationId] is [null]. *)
Theorem tick_termination (d : Dataset) (evs : list Event) (w h : R)
    (rnd : nat -> R) :
  let st0 := handle (run (initialState d) evs) (RenderGraph w h rnd) in
  (forall evs' g,
     graph (run st0 evs') = Some g ->
     tickCount g <= maxTicks /\
     (pendingFrames (run st0 evs') <> [] -> tickCount g < maxTicks)) /\
  (links_valid d ->
   forall k,
     let st := run st0 (replicate k AnimationFrame) in
     (exists g, graph st = Some g /\ tickCount g = k `min` maxTicks) /\
     (k < maxTicks -> exists hd, simulationId st = Some hd /\ pendingFrames st = [hd]) /\
     (maxTicks <= k -> simulationId st = None /\ pendingFrames st = [])).
Proof.
  intros st0. split.
  - intros evs' g Hg.
    assert (Hb : tick_bound (run st0 evs')).
    { apply run_tick_bound, handle_tick_bound, run_tick_bound.
      split; [left; reflexivity|]. intros g0 [=]. }
    apply Hb, Hg.
  - intros Hvalid k st.
    set (s := run (initialState d) evs).
    assert (Hf : frames_ok s).
    { apply (run_keeps frames_ok evs _ handler_frames_ok). left. reflexivity. }
    assert (Hd : DATA s = d).
    { apply (run_keeps (fun s => DATA s = d) evs _ (handler_DATA d)). reflexivity. }
    rewrite <- Hd in Hvalid.
    destruct (renderGraph_sim_at s w h rnd Hf Hvalid) as (ls & n & H0).
    destruct (frames_sim_at ls n k _ H0) as (_ & (g & Hg & Hin) & Hlt & Hge).
    split; [|split; assumption].
    exists g. split; [exact Hg|apply Hin].
Qed.

Section TickExample.
Local Open Scope R_scope.

Lemma tick_termination_witness :
  let d := mkDataset [mkNodeDesc "a" "A" "startup" None; mkNodeDesc "b" "B" "investor" None]
                     [mkLinkDesc "a" "b" "investment" ""] in
  let st := run (handle (initialState d) (RenderGraph 800 600 (fun _ => 0.5)))
                (replicate 100 AnimationFrame) in
  (exists g, graph st = Some g /\ tickCount g = 100%nat) /\
  simulationId st = None /\ pendingFrames st = [].
Proof.
  intros d st.
  assert (Hvalid : links_valid d).
  { intros l Hin. apply list_elem_of_singleton in Hin. subst l. simpl. split.
    - apply elem_of_cons. left. reflexivity.
    - apply elem_of_cons. right. apply elem_of_cons. left. reflexivity. }
  destruct (tick_termination d [] 800 600 (fun _ => 0.5)) as [_ Hrun].
  destruct (Hrun Hvalid 100%nat) as (Hg & _ & Hstop).
  split; [exact Hg|]. apply Hstop. unfold maxTicks. lia.
Defined.

End TickExample.

(** ** The distance to a segment *)

Section SegmentDistance.
Local Open Scope R_scope.

(** The three cases of [Math.max(0, Math.min(1, t))]. *)
Lemma clamp_cases (t : R) :
  (t <= 0 /\ Rmax 0 (Rmin 1 t) = 0) \/
  (0 <= t <= 1 /\ Rmax 0 (Rmin 1 t) = t) \/
  (1 <= t /\ Rmax 0 (Rmin 1 t) = 1).
Proof.
  destruct (Rle_dec t 0) as [H0|H0].
  - left. split; [exact H0|]. rewrite Rmin_right by lra. apply Rmax_left. lra.
  - destruct (Rle_dec t 1) as [H1|H1].
    + right. left. split; [lra|]. rewrite Rmin_right by lra. apply Rmax_right. lra.
    + right. right. split; [lra|]. rewrite Rmin_left by lra. apply Rmax_right. lra.
Qed.

(** X13.  [distToSegment] is the least distance from the point to a
    point of the segment, and it is attained; a segment of length 0 is
    included (the distance to its single point). *)
Lemma distToSegment_least (px py ax ay bx b_y : R) :
  (forall t, 0 <= t <= 1 ->
     distToSegment px py ax ay bx b_y <=
     hypot (px - (ax + t * (bx - ax))) (py - (ay + t * (b_y - ay)))) /\
  (exists t, 0 <= t <= 1 /\
     distToSegment px py ax ay bx b_y =
     hypot (px - (ax + t * (bx - ax))) (py - (ay + t * (b_y - ay)))).
Proof.
  unfold distToSegment. cbv zeta.
  set (dx := bx - ax). set (dy := b_y - ay).
  destruct (decide (dx = 0 /\ dy = 0)) as [[Hx Hy]|Hnz].
  - rewrite Hx, Hy. split.
    + intros t _. right. f_equal; ring.
    + exists 0. split; [lra|]. f_equal; ring.
  - set (u := px - ax). set (v := py - ay).
    set (D := dx * dx + dy * dy).
    assert (HD : 0 < D).
    { unfold D. destruct (Req_dec dx 0) as [Hx|Hx].
      - assert (dy <> 0) by tauto. nra.
      - nra. }
    set (t0 := (u * dx + v * dy) / D).
    assert (Ht0 : t0 * D = u * dx + v * dy).
    { unfold t0. field. lra. }
    set (tc := Rmax 0 (Rmin 1 t0)).
    assert (Htc : 0 <= tc <= 1).
    { unfold tc. split; [apply Rmax_l|]. apply Rmax_lub; [lra|apply Rmin_l]. }
    split.
    + intros t Ht. unfold hypot. apply sqrt_le_1_alt.
      replace (px - (ax + tc * dx)) with (u - tc * dx) by (unfold u; ring).
      replace (py - (ay + tc * dy)) with (v - tc * dy) by (unfold v; ring).
      replace (px - (ax + t * dx)) with (u - t * dx) by (unfold u; ring).
      replace (py - (ay + t * dy)) with (v - t * dy) by (unfold v; ring).
      assert (Hdiff : (u - t * dx) * (u - t * dx) + (v - t * dy) * (v - t * dy)
                      - ((u - tc * dx) * (u - tc * dx) + (v - tc * dy) * (v - tc * dy))
                      = D * ((t - tc) * (t + tc - 2 * t0))).
      { unfold D in *. nra. }
      assert (Hsign : 0 <= (t - tc) * (t + tc - 2 * t0)).
      { destruct (clamp_cases t0) as [[H0 Hc]|[[H01 Hc]|[H1 Hc]]];
          fold tc in Hc; rewrite Hc.
        - apply Rmult_le_pos; lra.
        - replace ((t - t0) * (t + t0 - 2 * t0)) with (Rsqr (t - t0))
            by (unfold Rsqr; ring).
          apply Rle_0_sqr.
        - replace ((t - 1) * (t + 1 - 2 * t0)) with ((1 - t) * (2 * t0 - 1 - t)) by ring.
          apply Rmult_le_pos; lra. }
      assert (0 <= D * ((t - tc) * (t + tc - 2 * t0))).
      { apply Rmult_le_pos; lra. }
      lra.
    + exists tc. split; [exact Htc|reflexivity].
Qed.

(** The distance from a point above a horizontal segment to the segment
    is its height. *)
Lemma distToSegment_above (x y len : R) :
  0 < len -> 0 <= x <= len -> 0 <= y ->
  distToSegment x y 0 0 len 0 = y.
Proof.
  intros Hlen Hx Hy. unfold distToSegment. cbv zeta.
  destruct (decide (len - 0 = 0 /\ 0 - 0 = 0)) as [[H0 _]|_]; [lra|].
  set (denom := (len - 0) * (len - 0) + (0 - 0) * (0 - 0)).
  set (t := ((x - 0) * (len - 0) + (y - 0) * (0 - 0)) / denom).
  assert (Ht : t = x / len).
  { unfold t, denom. field. lra. }
  assert (Hrange : 0 <= t <= 1).
  { rewrite Ht. split.
    - apply Rmult_le_pos; [lra|]. left. apply Rinv_0_lt_compat. exact Hlen.
    - apply (Rmult_le_reg_r len); [exact Hlen|]. unfold Rdiv.
      rewrite Rmult_assoc, Rinv_l by lra. lra. }
  rewrite (Rmin_right 1 t) by lra. rewrite (Rmax_right 0 t) by lra.
  unfold hypot.
  replace (x - (0 + t * (len - 0))) with 0 by (rewrite Ht; field; lra).
  replace (y - (0 + t * (0 - 0))) with y by ring.
  replace (0 * 0 + y * y) with (y * y) by ring.
  apply sqrt_square. exact Hy.
Qed.

End SegmentDistance.

(** ** Clicking on a link *)

Section Click.
Local Open Scope R_scope.
Implicit Types (g : Graph) (p : Point) (acc : Nearest).

Lemma linkDist_is_Some g p l :
  link_ok (length (nodes g)) l -> is_Some (linkDist g p l).
Proof.
  intros (src & tgt & Hs & Ht & Hsn & Htn). unfold linkDist. rewrite Hs, Ht. simpl.
  destruct (lookup_lt_is_Some_2 _ _ Hsn) as [s ->].
  destruct (lookup_lt_is_Some_2 _ _ Htn) as [t ->]. simpl. eauto.
Qed.

Lemma distances_exist g p (ls : list SimLink) :
  Forall (link_ok (length (nodes g))) ls ->
  exists ds, Forall2 (fun l d => linkDist g p l = Some d) ls ds.
Proof.
  induction 1 as [|l ls Hl _ [ds IH]].
  - exists []. constructor.
  - destruct (linkDist_is_Some g p l Hl) as [d Hd].
    exists (d :: ds). constructor; assumption.
Qed.

(** What one comparison does to the candidate. *)
Lemma closer_spec i l d acc :
  exists j l' m, closer i l d acc = Some (j, l', m) /\ m <= d /\
    (closer i l d acc = acc \/ (j, l', m) = (i, l, d)) /\
    (forall j0 l0 m0, acc = Some (j0, l0, m0) -> m <= m0).
Proof.
  unfold closer. destruct acc as [[[j0 l0] m0]|].
  - destruct (decide (d < m0)) as [Hlt|Hge].
    + exists i, l, d. split; [reflexivity|]. split; [lra|]. split; [right; reflexivity|].
      intros ? ? ? [= _ _ <-]. lra.
    + exists j0, l0, m0. split; [reflexivity|]. split; [lra|]. split; [left; reflexivity|].
      intros ? ? ? [= _ _ <-]. lra.
  - exists i, l, d. split; [reflexivity|]. split; [lra|]. split; [right; reflexivity|].
    intros ? ? ? [=].
Qed.

(** The loop returns a candidate that is at least as close as every link
    it has seen and as the candidate it started from, and that is one of
    them. *)
Lemma nearestFrom_spec g p (ls : list SimLink) (ds : list R) :
  Forall2 (fun l d => linkDist g p l = Some d) ls ds ->
  forall i acc, exists acc',
    nearestFrom g p i ls acc = Some acc' /\
    (forall d, d ∈ ds -> exists j l m, acc' = Some (j, l, m) /\ m <= d) /\
    (forall j l m, acc = Some (j, l, m) -> exists j' l' m', acc' = Some (j', l', m') /\ m' <= m) /\
    (forall j l m, acc' = Some (j, l, m) ->
       acc = Some (j, l, m) \/
       ((i <= j)%nat /\ ls !! (j - i)%nat = Some l /\ ds !! (j - i)%nat = Some m)).
Proof.
  induction 1 as [|l d ls ds Hd _ IH]; intros i acc.
  - exists acc. split; [reflexivity|]. split; [|split].
    + intros d Hin. by apply elem_of_nil in Hin.
    + intros j l m ->. exists j, l, m. split; [reflexivity|lra].
    + intros j l m ->. left. reflexivity.
  - simpl. rewrite Hd. simpl.
    destruct (closer_spec i l d acc) as (j1 & l1 & m1 & Hc & Hle & Hfrom & Hacc).
    destruct (IH (S i) (closer i l d acc)) as (acc' & Hrun & Hmin & Hmono & Hprov).
    exists acc'. split; [exact Hrun|]. split; [|split].
    + intros d' Hin. apply elem_of_cons in Hin as [->|Hin]; [|apply Hmin, Hin].
      destruct (Hmono _ _ _ Hc) as (j' & l' & m' & Hacc' & Hle').
      exists j', l', m'. split; [exact Hacc'|lra].
    + intros j l0 m Heq. destruct (Hmono _ _ _ Hc) as (j' & l' & m' & Hacc' & Hle').
      exists j', l', m'. split; [exact Hacc'|]. specialize (Hacc _ _ _ Heq). lra.
    + intros j l0 m Heq. destruct (Hprov _ _ _ Heq) as [Hc'|(Hij & Hl & Hm)].
      * destruct Hfrom as [Hsame|Hnew].
        -- left. congruence.
        -- right. rewrite Hc in Hc'. injection Hc' as <- <- <-.
           injection Hnew as -> -> ->. rewrite Nat.sub_diag. split; [lia|]. split; reflexivity.
      * right. split; [lia|]. replace (j - i)%nat with (S (j - S i)) by lia.
        split; assumption.
Qed.

Lemma svgClick_found st g e i l minDist :
  graph st = Some g ->
  nearestLink g (toSim st e) = Some (Some (i, l, minDist)) ->
  svgClick e st =
    if decide (minDist <= 25 / scale st)
    then onLinkSelect {| lo_pass := g_pass g; lo_index := i; lo_link := l |} st
    else onNodeSelect None st.
Proof.
  intros Hg Hnear. unfold svgClick.
  unfold mbind at 1, M_bind at 1, bind at 1, get at 1. rewrite Hg, Hnear.
  rewrite deref_Some_bind. destruct (decide (minDist <= 25 / scale st)); reflexivity.
Qed.

Lemma svgClick_none st g e :
  graph st = Some g ->
  nearestLink g (toSim st e) = Some None ->
  svgClick e st = onNodeSelect None st.
Proof.
  intros Hg Hnear. unfold svgClick.
  unfold mbind at 1, M_bind at 1, bind at 1, get at 1. rewrite Hg, Hnear.
  rewrite deref_Some_bind. reflexivity.
Qed.

End Click.


Section ClickExample.
Local Open Scope R_scope.
#[local] Arguments distToSegment : simpl never.

Lemma sceneState_scale : (0.5 <= scale sceneState <= 4)%R.
Proof. simpl. lra. Qed.

Lemma sceneGraph_links_ok : Forall (link_ok (length (nodes sceneGraph))) (links sceneGraph).
Proof.
  constructor; [|constructor]. exists (mkNodeRef 0 "a"), (mkNodeRef 1 "b").
  simpl. repeat split; lia.
Qed.

Lemma sceneLink_dist (y : R) :
  0 <= y -> linkDist sceneGraph (toSim sceneState (mkMouseEvent 50 y 0 0)) sceneLink = Some y.
Proof.
  intros Hy. unfold linkDist, toSim. simpl. f_equal.
  replace ((50 - 0 - 0) / 1) with 50 by field.
  replace ((y - 0 - 0) / 1) with y by field.
  apply distToSegment_above; lra.
Qed.

Lemma sceneLink_dists (y : R) (ds : list R) :
  0 <= y ->
  Forall2 (fun l d => linkDist sceneGraph (toSim sceneState (mkMouseEvent 50 y 0 0)) l = Some d)
          (links sceneGraph) ds ->
  ds = [y].
Proof.
  intros Hy Hds. simpl in Hds.
  inversion Hds as [|l d ls ds' Hd Hrest]; subst.
  inversion Hrest; subst. rewrite (sceneLink_dist y Hy) in Hd. injection Hd as <-. reflexivity.
Qed.


End ClickExample.

(** ** Highlighting an isolated node *)

Section Isolated.
Local Open Scope R_scope.
Variables (g : Graph) (X : NodeDesc).
Hypothesis Hshape : shaped (links g) (length (nodes g)) g.
Hypothesis Havoid : avoids g X.


Lemma circleEmphasis_marked (n : SimNode) (el : CircleEl) :
  marked X n (circleEmphasis (if nodeEmphasised (Some X) None n then 1 else 0.2)
                             (nodeStroke (Some X) n) el).
Proof.
  unfold marked, nodeEmphasised, nodeStroke. simpl.
  destruct (decide (sn_id n = nd_id X)) as [Heq|Hne].
  - rewrite bool_decide_eq_true_2 by exact Heq. simpl. split; [auto|contradiction].
  - rewrite bool_decide_eq_false_2 by exact Hne. simpl. split; [contradiction|auto].
Qed.

Lemma node_loop_step (k : nat) (n : SimNode) :
  nodes g !! k = Some n ->
  triple (nodes_done g X k)
         (setNodeEl k (circleEmphasis (if nodeEmphasised (Some X) None n then 1 else 0.2)
                                      (nodeStroke (Some X) n)))
         (fun _ => nodes_done g X (S k)) (fun _ => False).
Proof.
  intros Hn g0 (Hns & Hls & Hles & Hlen & Hdone). unfold setNodeEl.
  assert (Hk : (k < length (nodeEls g0))%nat).
  { rewrite Hlen. eapply lookup_lt_Some; eassumption. }
  destruct (lookup_lt_is_Some_2 _ _ Hk) as [el Hel]. rewrite Hel.
  split; [exact Hns|]. split; [exact Hls|]. split; [exact Hles|]. simpl.
  split; [rewrite length_insert; exact Hlen|].
  intros i n' Hi Hn'. destruct (decide (i = k)) as [->|Hne].
  - rewrite list_lookup_insert_eq by exact Hk. eexists. split; [reflexivity|].
    rewrite Hn in Hn'. injection Hn' as <-. apply circleEmphasis_marked.
  - rewrite list_lookup_insert_ne by congruence. apply Hdone; [lia|exact Hn'].
Qed.

Lemma linkEmphasised_avoided (l : SimLink) (B : Type) (k : bool -> M Graph B) :
  l ∈ links g -> (linkEmphasised (Some X) l ≫= k) = k false.
Proof.
  intros Hin. destruct (Havoid l Hin) as (src & tgt & Hs & Ht & Hsx & Htx).
  unfold linkEmphasised. rewrite Hs, Ht. rewrite deref_Some_bind.
  destruct (decide (ref_id src = nd_id X)) as [Heq|_]; [contradiction|].
  rewrite deref_Some_bind. rewrite bool_decide_eq_false_2 by exact Htx. reflexivity.
Qed.

Lemma link_loop_step (k : nat) (l : SimLink) :
  links g !! k = Some l ->
  triple (links_done g X k)
         (linkEmphasised (Some X) l ≫= fun emphasised : bool =>
            setLinkEl k (lineEmphasis (if emphasised then 1 else 0.05) 1))
         (fun _ => links_done g X (S k)) (fun _ => False).
Proof.
  intros Hl. rewrite linkEmphasised_avoided by (eapply list_elem_of_lookup_2; eassumption).
  intros g0 (Hns & Hls & Hmarked & Hlen & Hdone). unfold setLinkEl.
  assert (Hk : (k < length (linkEls g0))%nat).
  { rewrite Hlen. eapply lookup_lt_Some; eassumption. }
  destruct (lookup_lt_is_Some_2 _ _ Hk) as [el Hel]. rewrite Hel.
  split; [exact Hns|]. split; [exact Hls|]. split; [exact Hmarked|]. simpl.
  split; [rewrite length_insert; exact Hlen|].
  intros i l' Hi Hl'. destruct (decide (i = k)) as [->|Hne].
  - rewrite list_lookup_insert_eq by exact Hk. eexists. split; [reflexivity|].
    split; reflexivity.
  - rewrite list_lookup_insert_ne by congruence. apply (Hdone i l'); [lia|exact Hl'].
Qed.

(** The pass over the scene, for the selected node [X] without an entry
    in the index [m]. *)
Lemma highlightNode_isolated (m : gmap string (gset string)) :
  m !! nd_id X = None ->
  exists g', highlightNode (Some X) (Some m) g = (g', Some tt) /\
    links_done g X (length (links g)) g'.
Proof.
  intros Hm. destruct Hshape as (_ & _ & HnodeEls & HlinkEls & _).
  assert (H : triple (fun g0 => g0 = g) (highlightNode (Some X) (Some m))
                (fun _ => links_done g X (length (links g))) (fun _ => False)).
  { unfold highlightNode. rewrite deref_Some_bind.
    change (mret (m !! nd_id X) ≫= ?k) with (k (m !! nd_id X)). rewrite Hm.
    apply triple_bind_get. intros g0 ->.
    apply (triple_bind _ _ _ (fun _ => nodes_done g X (length (nodes g)))).
    - eapply triple_pre.
      + apply (triple_forEach (nodes_done g X)). intros k n Hn.
        apply node_loop_step. exact Hn.
      + intros g1 ->. split; [reflexivity|]. split; [reflexivity|].
        split; [reflexivity|]. split; [exact HnodeEls|]. intros i n Hi. lia.
    - intros _. eapply triple_pre.
      + apply (triple_forEach (links_done g X)). intros k l Hl.
        apply link_loop_step. exact Hl.
      + intros g1 (Hns & Hls & Hles & Hlen & Hdone).
        split; [exact Hns|]. split; [exact Hls|]. split.
        * intros i n Hn. apply Hdone; [|exact Hn]. eapply lookup_lt_Some; eassumption.
        * split; [rewrite Hles; exact HlinkEls|]. intros i l Hi. lia. }
  specialize (H g eq_refl).
  destruct (highlightNode (Some X) (Some m) g) as [g' [[]|]]; [|contradiction].
  exists g'. split; [reflexivity|exact H].
Qed.

End Isolated.

Lemma onNodeSelect_isolated (st : State) (g g' : Graph)
    (m : gmap string (gset string)) (X : NodeDesc) :
  graph st = Some g -> neighbourMap st = Some m ->
  highlightNode (Some X) (Some m) g = (g', Some tt) ->
  onNodeSelect (Some X) st =
    (set_panel PanelNode (set_graph (Some g') (set_selection (Some X) None st)), Some tt).
Proof.
  intros Hg Hm Hrun. unfold onNodeSelect, highlightSelection, updateDetailsPanel.
  unfold mbind, M_bind, bind, modify, get. simpl.
  rewrite (onGraph_eq _ _ _ g) by exact Hg. simpl. rewrite Hm, Hrun. reflexivity.
Qed.

(** In a scene rendered from a dataset whose links name existing nodes,
    a node without an entry in the index is touched by no link. *)
Lemma rendered_links_avoid (pass : nat) (w h : R) (rnd : nat -> R) (d : Dataset)
    (X : NodeDesc) :
  links_valid d ->
  buildNeighbourMap (data_links d) !! nd_id X = None ->
  avoids (newGraph pass w h rnd d) X.
Proof.
  intros Hvalid Hnone l Hin. simpl in Hin. unfold simLinks in Hin.
  apply list_elem_of_fmap in Hin as (ld & -> & Hld).
  destruct (mkLink_ok d w h rnd ld Hvalid Hld) as (src & tgt & Hs & Ht & _ & _).
  exists src, tgt. split; [exact Hs|]. split; [exact Ht|].
  simpl in Hs, Ht. apply resolve_Some in Hs as [Hsid _]. apply resolve_Some in Ht as [Htid _].
  assert (Hkeys : forall a, (a = ld_source ld \/ a = ld_target ld) -> a <> nd_id X).
  { intros a Ha ->.
    assert (His : is_Some (buildNeighbourMap (data_links d) !! nd_id X)).
    { apply lookup_foldl_neighbourAdd_is_Some. right. exists ld. split; assumption. }
    rewrite Hnone in His. destruct His as [? [=]]. }
  split; apply Hkeys; [left|right]; assumption.
Qed.


Section IsolatedExample.
Local Open Scope R_scope.


End IsolatedExample.

(** * Further properties of the graph view *)

(** ** The neighbour index, exactly *)

Lemma elem_of_neighbours_foldl (ls : list LinkDesc) (m : gmap string (gset string))
    (a b : string) :
  b ∈ neighbours (foldl neighbourAdd m ls) a <->
  b ∈ neighbours m a \/ linked ls a b.
Proof.
  revert m. induction ls as [|l ls IH]; intros m; simpl.
  - split; [by left|]. intros [H|(l & Hl & _)]; [done|]. by apply elem_of_nil in Hl.
  - rewrite IH, neighbours_neighbourAdd. unfold linked. split.
    + intros [H|(l' & Hl' & H)].
      * apply elem_of_union in H as [H|H]; [apply elem_of_union in H as [H|H]|].
        -- by left.
        -- case_decide; [|by apply not_elem_of_empty in H].
           apply elem_of_singleton in H. right. exists l.
           split; [apply elem_of_cons; by left|]. left. by split.
        -- case_decide; [|by apply not_elem_of_empty in H].
           apply elem_of_singleton in H. right. exists l.
           split; [apply elem_of_cons; by left|]. right. by split.
      * right. exists l'. split; [apply elem_of_cons; by right|done].
    + intros [H|(l' & Hl' & H)].
      * left. set_solver.
      * apply elem_of_cons in Hl' as [->|Hl'].
        -- left. destruct H as [[<- <-]|[<- <-]]; repeat case_decide; set_solver.
        -- right. by exists l'.
Qed.


(** ** A link without an endpoint *)

Lemma triple_forEachFrom_throws {St A} (P : St -> Prop) (f : A -> nat -> M St unit)
    (l : list A) (k : nat) (a : A) (i : nat) :
  l !! k = Some a ->
  (forall b j, keeps P (f b j)) ->
  (forall j, triple P (f a j) (fun _ _ => False) P) ->
  triple P (forEachFrom f i l) (fun _ _ => False) P.
Proof.
  intros Hk Hkeeps Hthrow. revert k i Hk.
  induction l as [|b l IH]; intros k i Hk; [discriminate|].
  simpl. change (bind (f b i) (fun _ => forEachFrom f (S i) l))
    with (f b i ≫= fun _ => forEachFrom f (S i) l).
  destruct k as [|k]; simpl in Hk.
  - injection Hk as ->.
    apply (triple_bind _ _ _ (fun _ _ => False)); [apply Hthrow|].
    intros _ s [].
  - apply (triple_bind _ _ _ (fun _ => P)); [apply Hkeeps|].
    intros _. apply (IH k (S i) Hk).
Qed.

Section Dangling.
Variables (c : nat) (k : list (NodeDesc * (R * R) * (R * R))).
Variables (ces : list CircleEl) (les : list LineEl) (tes : list TextEl).

Lemma kinematics_alter (f : SimNode -> SimNode) (i : nat) (ns : list SimNode) :
  (forall n, kinematics (f n) = kinematics n) ->
  kinematics <$> alter f i ns = kinematics <$> ns.
Proof.
  intros Hf. apply list_eq. intros j. rewrite !list_lookup_fmap, list_lookup_alter.
  destruct (decide (i = j)) as [->|]; [|reflexivity].
  destruct (ns !! j); simpl; [rewrite Hf|]; reflexivity.
Qed.

Lemma kinematics_fmap (f : SimNode -> SimNode) (ns : list SimNode) :
  (forall n, kinematics (f n) = kinematics n) ->
  kinematics <$> (f <$> ns) = kinematics <$> ns.
Proof.
  intros Hf. rewrite <- list_fmap_compose. apply list_fmap_ext. intros _ n _. apply Hf.
Qed.

Lemma at_rest_alter_force (f : SimNode -> SimNode) (i : nat) (g : Graph) :
  (forall n, kinematics (f n) = kinematics n) ->
  at_rest c k ces les tes g ->
  at_rest c k ces les tes (set_nodes (alter f i (nodes g)) g).
Proof.
  intros Hf (Hc & Hk & Hrest). split; [exact Hc|]. split; [|exact Hrest].
  simpl. rewrite kinematics_alter by exact Hf. exact Hk.
Qed.

Lemma linkForce_at_rest (l : SimLink) :
  keeps (at_rest c k ces les tes) (linkForce l).
Proof.
  unfold_graph_ops. repeat keeps_step; auto.
  all: apply at_rest_alter_force; reflexivity.
Qed.

(** The loop body throws on a link that lacks an endpoint. *)
Lemma linkForce_throws (l : SimLink) :
  l_source l = None \/ l_target l = None ->
  triple (at_rest c k ces les tes) (linkForce l) (fun _ _ => False)
         (at_rest c k ces les tes).
Proof.
  intros Hl. unfold linkForce.
  destruct (l_target l) as [tgt|]; [|intros s Hs; exact Hs].
  destruct Hl as [Hs|[=]]. rewrite Hs. rewrite deref_Some_bind.
  apply keeps_then.
  - unfold nodeAt. repeat keeps_step.
  - intros t s Hrest. exact Hrest.
Qed.

Lemma tickGraph_dangling (g : Graph) :
  dangling g -> at_rest c k ces les tes g ->
  exists g', tickGraph g = (g', None) /\ at_rest c k ces les tes g'.
Proof.
  intros (l & Hin & Hl) Hg.
  apply list_elem_of_lookup_1 in Hin as [i Hi].
  assert (H : triple (fun g0 => links g0 = links g /\ at_rest c k ces les tes g0) tickGraph
                (fun _ _ => False) (at_rest c k ces les tes)).
  { unfold tickGraph.
    apply (triple_bind _ _ _ (fun _ g0 => links g0 = links g /\ at_rest c k ces les tes g0)).
    { eapply triple_pre; [apply triple_modify|]. intros s [Hls (Hc & Hk & Hrest)].
      split; [exact Hls|]. split; [exact Hc|]. split; [|exact Hrest].
      simpl. rewrite kinematics_fmap by reflexivity. exact Hk. }
    intros _. apply triple_bind_get. intros g0 [Hls _]. rewrite Hls.
    apply (triple_bind _ _ _ (fun _ _ => False)); [|intros _ s []].
    eapply triple_pre.
    - apply (triple_forEachFrom_throws (at_rest c k ces les tes)
               (fun l0 _ => linkForce l0) (links g) i l 0 Hi).
      + intros b j. apply linkForce_at_rest.
      + intros j. apply linkForce_throws, Hl.
    - intros s [_ Hs]. exact Hs. }
  specialize (H g (conj eq_refl Hg)).
  destruct (tickGraph g) as [g' [[]|]]; [contradiction|]. eauto.
Qed.

End Dangling.

(** X2.  A tick on a graph with a link that lacks an endpoint throws in
    its link loop: no node is moved, nothing is drawn, the tick is not
    counted, and no further tick is scheduled ([simulationId] and the
    frame queue are as the tick found them). *)
Theorem tick_throws_on_dangling_link (st : State) (g : Graph) :
  graph st = Some g ->
  dangling g ->
  (tick st).2 = None /\
  simulationId (tick st).1 = simulationId st /\
  pendingFrames (tick st).1 = pendingFrames st /\
  exists g', graph (tick st).1 = Some g' /\
    tickCount g' = tickCount g /\
    kinematics <$> nodes g' = kinematics <$> nodes g /\
    nodeEls g' = nodeEls g /\ linkEls g' = linkEls g /\ textEls g' = textEls g.
Proof.
  intros Hg Hd.
  destruct (tickGraph_dangling (tickCount g) (kinematics <$> nodes g)
              (nodeEls g) (linkEls g) (textEls g) g Hd)
    as (g' & Hrun & Hrest); [repeat split|].
  rewrite (tick_throw st g g' Hg Hrun). split.
  - unfold tick, mbind, M_bind, bind.
    rewrite (onGraph_eq tickGraph tt st g Hg), Hrun. reflexivity.
  - simpl. split; [reflexivity|]. split; [reflexivity|].
    exists g'. split; [reflexivity|exact Hrest].
Qed.

Lemma tick_throws_on_dangling_link_witness :
  let l := mkSimLink (Some (mkNodeRef 0 "a")) None "support" "" in
  let g := mkGraph 1 800 600 ∅ [l] [sceneA] [newCircle sceneA] [newLine l]
             [newText sceneA] None (mkPoint 0 0) false (mkPoint 0 0) 0 in
  let st := mkState (mkDataset [] []) None None (Some ∅) (Some g) 1 (Some 1) [] 2
              0 0 1 PanelDefault in
  (tick st).2 = None /\ simulationId (tick st).1 = Some 1.
Proof.
  intros l g st.
  assert (Hd : dangling g).
  { exists l. split; [apply list_elem_of_singleton; reflexivity|]. right. reflexivity. }
  destruct (tick_throws_on_dangling_link st g eq_refl Hd) as (Hthrow & Hsid & _).
  split; [exact Hthrow|exact Hsid].
Defined.

(** ** A click with a link that lacks an endpoint *)

Lemma nearestFrom_dangling (g : Graph) (p : Point) (ls : list SimLink) (i : nat)
    (acc : Nearest) :
  (exists l, l ∈ ls /\ linkDist g p l = None) ->
  nearestFrom g p i ls acc = None.
Proof.
  intros (l & Hin & Hl). revert i acc.
  induction ls as [|l' ls IH]; intros i acc; [by apply elem_of_nil in Hin|].
  simpl. destruct (linkDist g p l') as [d|] eqn:Hd; [|reflexivity]. simpl.
  apply elem_of_cons in Hin as [->|Hin]; [congruence|]. apply IH, Hin.
Qed.

(** X3.  A click that reaches the svg element of a graph with a link that
    lacks an endpoint throws while measuring the distances, before
    anything is selected or cleared: the state is unchanged. *)
Theorem click_throws_on_dangling_link (st : State) (g : Graph) (e : MouseEvent) :
  graph st = Some g ->
  dangling g ->
  svgClick e st = (st, None).
Proof.
  intros Hg (l & Hin & Hl). unfold svgClick.
  unfold mbind at 1, M_bind at 1, bind at 1, get at 1. rewrite Hg.
  unfold nearestLink. rewrite nearestFrom_dangling; [reflexivity|].
  exists l. split; [exact Hin|]. unfold linkDist.
  destruct Hl as [-> | Hl]; [reflexivity|].
  destruct (l_source l) as [src|]; [|reflexivity]. simpl.
  destruct (nodes g !! ref_index src); [|reflexivity]. simpl. rewrite Hl. reflexivity.
Qed.

Lemma click_throws_on_dangling_link_witness :
  let l := mkSimLink (Some (mkNodeRef 0 "a")) None "support" "" in
  let g := mkGraph 1 800 600 ∅ [l] [sceneA] [newCircle sceneA] [newLine l]
             [newText sceneA] None (mkPoint 0 0) false (mkPoint 0 0) 0 in
  let st := mkState (mkDataset [] []) None None (Some ∅) (Some g) 1 None [] 2
              0 0 1 PanelDefault in
  svgClick (mkMouseEvent 50 24 0 0) st = (st, None).
Proof.
  intros l g st. apply (click_throws_on_dangling_link st g _ eq_refl).
  exists l. split; [apply list_elem_of_singleton; reflexivity|]. right. reflexivity.
Defined.

(** ** Pointer handling *)

Section Pointer.
Local Open Scope R_scope.

Lemma cancelTick_set_graph (x : option Graph) (st : State) :
  cancelTick (set_graph x st) = set_graph x (cancelTick st).
Proof. unfold cancelTick. simpl. destruct (simulationId st); reflexivity. Qed.

Lemma simulationId_cancelTick (st : State) : simulationId (cancelTick st) = None.
Proof. unfold cancelTick. destruct (simulationId st) eqn:H; [reflexivity|exact H]. Qed.

Lemma nodeMouseDown_eq (st : State) (g : Graph) (i : nat) (n : SimNode) (e : MouseEvent) :
  graph st = Some g -> nodes g !! i = Some n ->
  handle st (NodeMouseDown i e) =
    set_graph
      (Some (set_nodes (alter (set_velocity 0 0) i (nodes g))
               (set_drag (Some i)
                  {| p_x := sn_x n - p_x (toSim st e); p_y := sn_y n - p_y (toSim st e) |} g)))
      (cancelTick st).
Proof.
  intros Hg Hn. unfold handle, handler, nodeMouseDown.
  unfold mbind, M_bind, bind, get, modify. rewrite Hg, Hn.
  erewrite onGraph_eq by (rewrite graph_cancelTick; reflexivity).
  cbn [fst]. rewrite cancelTick_set_graph. reflexivity.
Qed.

Lemma frames_idle (st : State) (k : nat) :
  pendingFrames st = [] -> run st (replicate k AnimationFrame) = st.
Proof.
  intros Hnil. induction k as [|k IH]; [reflexivity|]. simpl.
  change (handle st AnimationFrame) with (animationFrame st).
  rewrite animationFrame_idle by exact Hnil. exact IH.
Qed.

Lemma reachable_frames_ok (d : Dataset) (evs : list Event) :
  frames_ok (run (initialState d) evs).
Proof. apply (run_keeps frames_ok evs _ handler_frames_ok). left. reflexivity. Qed.

End Pointer.

(** X4.  Pressing the pointer on a node stops the simulation for good:
    [simulationId] is [null], no tick is queued, the node keeps its
    position with its velocity set to zero, and animation frames that
    follow change nothing. *)
Theorem drag_stops_simulation (d : Dataset) (evs : list Event) (g : Graph)
    (i : nat) (n : SimNode) (e : MouseEvent) :
  let st := run (initialState d) evs in
  graph st = Some g ->
  nodes g !! i = Some n ->
  let st1 := handle st (NodeMouseDown i e) in
  simulationId st1 = None /\ pendingFrames st1 = [] /\
  (exists g1 n1, graph st1 = Some g1 /\ nodes g1 !! i = Some n1 /\
     sn_x n1 = sn_x n /\ sn_y n1 = sn_y n /\ sn_vx n1 = 0%R /\ sn_vy n1 = 0%R /\
     tickCount g1 = tickCount g) /\
  forall k, run st1 (replicate k AnimationFrame) = st1.
Proof.
  intros st Hg Hn st1.
  assert (Heq := nodeMouseDown_eq st g i n e Hg Hn). fold st1 in Heq.
  assert (Hpend : pendingFrames st1 = []).
  { rewrite Heq. simpl. apply cancelTick_pending, reachable_frames_ok. }
  split; [rewrite Heq; simpl; apply simulationId_cancelTick|].
  split; [exact Hpend|]. split.
  - rewrite Heq. simpl. eexists _, _. split; [reflexivity|]. simpl.
    split; [rewrite list_lookup_alter_eq, Hn; reflexivity|]. repeat split.
  - intros k. apply frames_idle, Hpend.
Qed.

Lemma drag_stops_simulation_witness :
  let d := mkDataset [mkNodeDesc "a" "A" "startup" None] [] in
  let rnd := fun _ : nat => 0.5%R in
  let st := run (initialState d) [RenderGraph 800 600 rnd] in
  let st1 := handle st (NodeMouseDown 0 (mkMouseEvent 410 320 10 20)) in
  simulationId st1 = None /\ pendingFrames st1 = [] /\
  run st1 (replicate 3 AnimationFrame) = st1.
Proof.
  intros d rnd st st1.
  destruct (drag_stops_simulation d [RenderGraph 800 600 rnd]
              (newGraph 1 800 600 rnd d) 0
              (mkNode 800 600 rnd 0 (mkNodeDesc "a" "A" "startup" None))
              (mkMouseEvent 410 320 10 20) eq_refl eq_refl)
    as (Hsid & Hpend & _ & Hidle).
  split; [exact Hsid|]. split; [exact Hpend|apply Hidle].
Defined.

Section Pan.
Local Open Scope R_scope.

Lemma svgMouseDown_panning (st : State) (g : Graph) (e : MouseEvent) :
  graph st = Some g -> draggingNode g = None ->
  panning g (offsetX st - clientX e) (offsetY st - clientY e) (scale st)
          (handle st (SvgMouseDown true e)).
Proof.
  intros Hg Hd. unfold handle, handler, modify, svgMouseDown. simpl. rewrite Hg. simpl.
  split; [reflexivity|]. eexists. split; [reflexivity|]. simpl. repeat split. exact Hd.
Qed.

Lemma mouseMove_panning (st : State) (g0 : Graph) (dx dy sc : R) (e : MouseEvent) :
  panning g0 dx dy sc st ->
  panning g0 dx dy sc (handle st (MouseMove e)) /\
  offsetX (handle st (MouseMove e)) = dx + clientX e /\
  offsetY (handle st (MouseMove e)) = dy + clientY e.
Proof.
  intros (Hsc & g & Hg & Hd & Hp & Hns & Hx & Hy).
  assert (Heq : handle st (MouseMove e) =
                set_graph (Some (set_pan true {| p_x := clientX e; p_y := clientY e |} g))
                  (set_view (offsetX st + (clientX e - p_x (panStart g)))
                            (offsetY st + (clientY e - p_y (panStart g)))
                            (scale st) st)).
  { unfold handle, handler, mouseMove.
    unfold mbind, M_bind, bind, get, modify. rewrite Hg, Hd, Hp. reflexivity. }
  rewrite Heq. simpl. split; [|split; lra].
  split; [exact Hsc|]. eexists. split; [reflexivity|]. simpl.
  split; [exact Hd|]. split; [reflexivity|]. split; [exact Hns|]. split; lra.
Qed.

Lemma run_moves_panning (st : State) (g0 : Graph) (dx dy sc : R)
    (moves : list MouseEvent) :
  panning g0 dx dy sc st -> panning g0 dx dy sc (run st (MouseMove <$> moves)).
Proof.
  revert st. induction moves as [|e moves IH]; intros st Hst; simpl; [exact Hst|].
  apply IH. apply mouseMove_panning. exact Hst.
Qed.

Lemma mouseMove_idle (st : State) (e : MouseEvent) :
  (forall g, graph st = Some g -> draggingNode g = None /\ isPanning g = false) ->
  handle st (MouseMove e) = st.
Proof.
  intros Hidle. unfold handle, handler, mouseMove.
  unfold mbind, M_bind, bind, get. destruct (graph st) as [g|] eqn:Hg; [|reflexivity].
  destruct (Hidle g eq_refl) as [-> ->]. reflexivity.
Qed.

End Pan.

(** X5.  Panning follows the pointer: after a press on the background at
    [e0] and any number of pointer moves ending at [e1], the pan offset
    has grown by [e1 - e0] in client coordinates, whatever the path; the
    zoom factor and the nodes are untouched. *)
Theorem pan_follows_pointer (st : State) (g : Graph) (e0 e1 : MouseEvent)
    (moves : list MouseEvent) :
  graph st = Some g ->
  draggingNode g = None ->
  let st2 := run (handle st (SvgMouseDown true e0)) (MouseMove <$> (moves ++ [e1])) in
  offsetX st2 = (offsetX st + (clientX e1 - clientX e0))%R /\
  offsetY st2 = (offsetY st + (clientY e1 - clientY e0))%R /\
  scale st2 = scale st /\
  exists g2, graph st2 = Some g2 /\ nodes g2 = nodes g.
Proof.
  intros Hg Hd st2.
  pose proof (svgMouseDown_panning st g e0 Hg Hd) as H1.
  subst st2. rewrite fmap_app. unfold run. rewrite foldl_app. simpl.
  fold (run (handle st (SvgMouseDown true e0)) (MouseMove <$> moves)).
  pose proof (run_moves_panning _ g _ _ _ moves H1) as H2.
  destruct (mouseMove_panning _ g _ _ _ e1 H2)
    as ((Hsc & g2 & Hg2 & _ & _ & Hns & _) & Hx & Hy).
  split; [rewrite Hx; lra|]. split; [rewrite Hy; lra|]. split; [exact Hsc|].
  exists g2. split; assumption.
Qed.

Lemma pan_follows_pointer_witness :
  let st2 := run (handle sceneState (SvgMouseDown true (mkMouseEvent 10 10 0 0)))
                 [MouseMove (mkMouseEvent 70 20 0 0); MouseMove (mkMouseEvent 40 50 0 0)] in
  offsetX st2 = (0 + (40 - 10))%R /\ offsetY st2 = (0 + (50 - 10))%R.
Proof.
  intros st2.
  destruct (pan_follows_pointer sceneState sceneGraph (mkMouseEvent 10 10 0 0)
              (mkMouseEvent 40 50 0 0) [mkMouseEvent 70 20 0 0] eq_refl eq_refl)
    as (Hx & Hy & _).
  split; [exact Hx|exact Hy].
Defined.

(** X6.  Releasing the pointer, or leaving the svg element, ends both a
    drag and a pan: pointer moves that follow change nothing at all. *)
Theorem pointer_up_ends_drag_and_pan (st : State) (moves : list MouseEvent) :
  run (handle st MouseUp) (MouseMove <$> moves) = handle st MouseUp /\
  run (handle st MouseLeave) (MouseMove <$> moves) = handle st MouseLeave.
Proof.
  assert (H : run (handle st MouseUp) (MouseMove <$> moves) = handle st MouseUp).
  { induction moves as [|e moves IH]; [reflexivity|]. simpl.
    rewrite mouseMove_idle; [exact IH|].
    intros g Hg. unfold handle, handler, modify, mouseUp in Hg. simpl in Hg.
    destruct (graph st); [|discriminate]. simpl in Hg. injection Hg as <-.
    split; reflexivity. }
  split; exact H.
Qed.

(** X7.  In every reachable state the host holds at most one tick
    callback, and when it holds one its handle is the value of
    [simulationId]: a render pass and a press on a node cancel the
    pending tick before anything else is scheduled, so two simulation
    loops never run side by side. *)
Theorem one_tick_callback (d : Dataset) (evs : list Event) :
  let st := run (initialState d) evs in
  pendingFrames st = [] \/
  exists hd, simulationId st = Some hd /\ pendingFrames st = [hd].
Proof. intros st. apply reachable_frames_ok. Qed.



(** ** The highlight pass *)

Section HighlightLoops.
Local Open Scope R_scope.

Lemma bind_eq {St A B} (m : M St A) (k : A -> M St B) (s s' : St) (a : A) :
  m s = (s', Some a) -> (m ≫= k) s = k a s'.
Proof. intros H. unfold mbind, M_bind, bind. rewrite H. reflexivity. Qed.

Lemma set_nodeEls_id (g : Graph) : set_nodeEls (nodeEls g) g = g.
Proof. destruct g. reflexivity. Qed.

Lemma set_linkEls_id (g : Graph) : set_linkEls (linkEls g) g = g.
Proof. destruct g. reflexivity. Qed.

(** A loop that rewrites the circle of every element in turn. *)
Lemma forEach_setNodeEl {A} (body : A -> nat -> M Graph unit)
    (F : nat -> A -> CircleEl -> CircleEl) (xs : list A) (g : Graph) :
  (forall k a, xs !! k = Some a -> body a k = setNodeEl k (F k a)) ->
  (length xs <= length (nodeEls g))%nat ->
  exists els, forEach body xs g = (set_nodeEls els g, Some tt) /\
    length els = length (nodeEls g) /\
    forall i a, xs !! i = Some a -> els !! i = F i a <$> nodeEls g !! i.
Proof.
  intros Hbody Hlen.
  set (I := fun (k : nat) (g0 : Graph) =>
    exists els, g0 = set_nodeEls els g /\ length els = length (nodeEls g) /\
      (forall i a, (i < k)%nat -> xs !! i = Some a -> els !! i = F i a <$> nodeEls g !! i) /\
      (forall i, (k <= i)%nat -> els !! i = nodeEls g !! i)).
  assert (H : triple (I 0%nat) (forEach body xs) (fun _ => I (length xs)) (fun _ => False)).
  { apply triple_forEach. intros k a Hk. rewrite (Hbody k a Hk).
    intros g0 (els & -> & Hl & Hdone & Htodo). unfold setNodeEl. simpl.
    assert (Hlt : (k < length els)%nat).
    { rewrite Hl. apply lookup_lt_Some in Hk. lia. }
    destruct (lookup_lt_is_Some_2 _ _ Hlt) as [el Hel]. rewrite Hel.
    exists (<[k := F k a el]> els). split; [reflexivity|].
    split; [rewrite length_insert; exact Hl|]. split.
    - intros i b Hi Hb. destruct (decide (i = k)) as [->|Hne].
      + rewrite list_lookup_insert_eq by exact Hlt.
        rewrite <- (Htodo k) by lia. rewrite Hel. simpl. congruence.
      + rewrite list_lookup_insert_ne by congruence. apply Hdone; [lia|exact Hb].
    - intros i Hi. rewrite list_lookup_insert_ne by lia. apply Htodo. lia. }
  specialize (H g). destruct (forEach body xs g) as [g' [[]|]].
  - destruct H as (els & -> & Hl & Hdone & _).
    { exists (nodeEls g). split; [symmetry; apply set_nodeEls_id|].
      split; [reflexivity|]. split; [intros; lia|reflexivity]. }
    exists els. split; [reflexivity|]. split; [exact Hl|].
    intros i a Hi. apply Hdone; [|exact Hi]. eapply lookup_lt_Some; eassumption.
  - exfalso. apply H. exists (nodeEls g). split; [symmetry; apply set_nodeEls_id|].
    split; [reflexivity|]. split; [intros; lia|reflexivity].
Qed.

(** A loop that rewrites the line of every element in turn. *)
Lemma forEach_setLinkEl {A} (body : A -> nat -> M Graph unit)
    (F : nat -> A -> LineEl -> LineEl) (xs : list A) (g : Graph) :
  (forall k a, xs !! k = Some a -> body a k = setLinkEl k (F k a)) ->
  (length xs <= length (linkEls g))%nat ->
  exists els, forEach body xs g = (set_linkEls els g, Some tt) /\
    length els = length (linkEls g) /\
    forall i a, xs !! i = Some a -> els !! i = F i a <$> linkEls g !! i.
Proof.
  intros Hbody Hlen.
  set (I := fun (k : nat) (g0 : Graph) =>
    exists els, g0 = set_linkEls els g /\ length els = length (linkEls g) /\
      (forall i a, (i < k)%nat -> xs !! i = Some a -> els !! i = F i a <$> linkEls g !! i) /\
      (forall i, (k <= i)%nat -> els !! i = linkEls g !! i)).
  assert (H : triple (I 0%nat) (forEach body xs) (fun _ => I (length xs)) (fun _ => False)).
  { apply triple_forEach. intros k a Hk. rewrite (Hbody k a Hk).
    intros g0 (els & -> & Hl & Hdone & Htodo). unfold setLinkEl. simpl.
    assert (Hlt : (k < length els)%nat).
    { rewrite Hl. apply lookup_lt_Some in Hk. lia. }
    destruct (lookup_lt_is_Some_2 _ _ Hlt) as [el Hel]. rewrite Hel.
    exists (<[k := F k a el]> els). split; [reflexivity|].
    split; [rewrite length_insert; exact Hl|]. split.
    - intros i b Hi Hb. destruct (decide (i = k)) as [->|Hne].
      + rewrite list_lookup_insert_eq by exact Hlt.
        rewrite <- (Htodo k) by lia. rewrite Hel. simpl. congruence.
      + rewrite list_lookup_insert_ne by congruence. apply Hdone; [lia|exact Hb].
    - intros i Hi. rewrite list_lookup_insert_ne by lia. apply Htodo. lia. }
  specialize (H g). destruct (forEach body xs g) as [g' [[]|]].
  - destruct H as (els & -> & Hl & Hdone & _).
    { exists (linkEls g). split; [symmetry; apply set_linkEls_id|].
      split; [reflexivity|]. split; [intros; lia|reflexivity]. }
    exists els. split; [reflexivity|]. split; [exact Hl|].
    intros i a Hi. apply Hdone; [|exact Hi]. eapply lookup_lt_Some; eassumption.
  - exfalso. apply H. exists (linkEls g). split; [symmetry; apply set_linkEls_id|].
    split; [reflexivity|]. split; [intros; lia|reflexivity].
Qed.

(** The pass for a selected node, or for no selection, when the test on
    every link evaluates to [fe l] without throwing. *)
Lemma highlightNode_run (selNode : option NodeDesc)
    (nbrMap : option (gmap string (gset string))) (nbrs : option (gset string))
    (fe : SimLink -> bool) (g : Graph) :
  match selNode with
  | None => nbrs = None
  | Some sel => exists m, nbrMap = Some m /\ nbrs = m !! nd_id sel
  end ->
  (forall l B (k : bool -> M Graph B),
     l ∈ links g -> (linkEmphasised selNode l ≫= k) = k (fe l)) ->
  length (nodeEls g) = length (nodes g) ->
  length (linkEls g) = length (links g) ->
  exists ces les,
    highlightNode selNode nbrMap g = (set_linkEls les (set_nodeEls ces g), Some tt) /\
    length ces = length (nodes g) /\ length les = length (links g) /\
    (forall i n, nodes g !! i = Some n ->
       ces !! i = circleEmphasis (if nodeEmphasised selNode nbrs n then 1 else 0.2)
                                 (nodeStroke selNode n) <$> nodeEls g !! i) /\
    (forall i l, links g !! i = Some l ->
       les !! i = lineEmphasis (if fe l then 1 else 0.05) 1 <$> linkEls g !! i).
Proof.
  intros Hnbrs Hfe Hn Hl.
  destruct (forEach_setNodeEl
              (fun n i => setNodeEl i (circleEmphasis
                            (if nodeEmphasised selNode nbrs n then 1 else 0.2)
                            (nodeStroke selNode n)))
              (fun _ n => circleEmphasis (if nodeEmphasised selNode nbrs n then 1 else 0.2)
                                         (nodeStroke selNode n))
              (nodes g) g) as (ces & Hrun1 & Hlen1 & Hces); [reflexivity|lia|].
  destruct (forEach_setLinkEl
              (fun l i => linkEmphasised selNode l ≫= fun emphasised : bool =>
                 setLinkEl i (lineEmphasis (if emphasised then 1 else 0.05) 1))
              (fun _ l => lineEmphasis (if fe l then 1 else 0.05) 1)
              (links g) (set_nodeEls ces g)) as (les & Hrun2 & Hlen2 & Hles).
  { intros k l Hk. apply Hfe. eapply list_elem_of_lookup_2; eassumption. }
  { simpl. lia. }
  exists ces, les. split; [|split; [lia|split; [simpl in Hlen2; lia|split; assumption]]].
  unfold highlightNode.
  assert (Hfirst : (match selNode with
                    | None => mret None
                    | Some sel => deref nbrMap ≫= fun m => mret (m !! nd_id sel)
                    end : M Graph (option (gset string))) g = (g, Some nbrs)).
  { destruct selNode as [sel|]; [|rewrite Hnbrs; reflexivity].
    destruct Hnbrs as (m & -> & ->). reflexivity. }
  rewrite (bind_eq _ _ g g nbrs Hfirst).
  change ((get ≫= ?k) g) with (k g g). cbv beta.
  rewrite (bind_eq _ _ g (set_nodeEls ces g) tt Hrun1). exact Hrun2.
Qed.

Lemma onNodeSelect_run (node : option NodeDesc) (st : State) (g g' : Graph) :
  graph st = Some g ->
  highlightNode node (neighbourMap st) g = (g', Some tt) ->
  onNodeSelect node st =
    (set_panel (if node is Some _ then PanelNode else PanelDefault)
       (set_graph (Some g') (set_selection node None st)), Some tt).
Proof.
  intros Hg Hrun. unfold onNodeSelect, highlightSelection, updateDetailsPanel.
  unfold mbind, M_bind, bind, modify, get. simpl.
  rewrite (onGraph_eq _ _ _ g) by exact Hg. simpl. rewrite Hrun.
  destruct node; reflexivity.
Qed.

End HighlightLoops.

(** X9.  Clearing the selection never throws, whatever the links are
    (the test on a link is not evaluated when nothing is selected): every
    circle gets opacity 1 and stroke width 1, every line opacity 1 and
    stroke width 1, and the details panel goes back to its default. *)
Theorem clear_selection_restores_scene (st : State) (g : Graph) :
  graph st = Some g ->
  length (nodeEls g) = length (nodes g) ->
  length (linkEls g) = length (links g) ->
  exists st' g',
    onNodeSelect None st = (st', Some tt) /\
    selectedNode st' = None /\ selectedLink st' = None /\ panel st' = PanelDefault /\
    graph st' = Some g' /\ nodes g' = nodes g /\ links g' = links g /\
    length (nodeEls g') = length (nodes g) /\ length (linkEls g') = length (links g) /\
    (forall i el, nodeEls g' !! i = Some el ->
       c_opacity el = Some 1%R /\ c_stroke_width el = Some 1%R) /\
    (forall i el, linkEls g' !! i = Some el ->
       ln_opacity el = Some 1%R /\ ln_stroke_width el = 1%R).
Proof.
  intros Hg Hn Hl.
  destruct (highlightNode_run None (neighbourMap st) None (fun _ => true) g)
    as (ces & les & Hrun & Hlc & Hll & Hces & Hles); [reflexivity|reflexivity|exact Hn|exact Hl|].
  eexists _, _. split; [apply (onNodeSelect_run None st g _ Hg Hrun)|].
  simpl. repeat (split; [reflexivity || assumption|]). split.
  - intros i el Hel.
    destruct (lookup_lt_is_Some_2 (nodes g) i) as [n Hni].
    { rewrite <- Hlc. eapply lookup_lt_Some; eassumption. }
    simpl in Hel. rewrite (Hces i n Hni) in Hel. destruct (nodeEls g !! i); [|discriminate].
    injection Hel as <-. split; reflexivity.
  - intros i el Hel.
    destruct (lookup_lt_is_Some_2 (links g) i) as [l Hli].
    { rewrite <- Hll. eapply lookup_lt_Some; eassumption. }
    simpl in Hel. rewrite (Hles i l Hli) in Hel. destruct (linkEls g !! i); [|discriminate].
    injection Hel as <-. split; reflexivity.
Qed.

Lemma clear_selection_restores_scene_witness :
  let l := mkSimLink (Some (mkNodeRef 0 "a")) None "support" "" in
  let g := mkGraph 1 800 600 ∅ [l] [sceneA] [newCircle sceneA] [newLine l]
             [newText sceneA] None (mkPoint 0 0) false (mkPoint 0 0) 0 in
  let st := mkState (mkDataset [] []) (Some (sn_desc sceneA)) None (Some ∅) (Some g) 1
              None [] 2 0 0 1 PanelNode in
  (onNodeSelect None st).2 = Some tt /\ panel (onNodeSelect None st).1 = PanelDefault.
Proof.
  intros l g st.
  destruct (clear_selection_restores_scene st g eq_refl eq_refl eq_refl)
    as (st' & g' & Hrun & _ & _ & Hpanel & _).
  rewrite Hrun. split; [reflexivity|exact Hpanel].
Defined.

(** ** The scene mirrors the dataset *)

Section Mirror.
Local Open Scope R_scope.

Lemma foldl_inv {A B} (P : A -> Prop) (f : A -> B -> A) (l : list B) (a : A) :
  (forall a b, P a -> P (f a b)) -> P a -> P (foldl f a l).
Proof.
  intros Hf. revert a. induction l as [|b l IH]; intros a Ha; simpl; [exact Ha|].
  apply IH, Hf, Ha.
Qed.

Lemma desc_fmap (f : SimNode -> SimNode) (ns : list SimNode) :
  (forall n, sn_desc (f n) = sn_desc n) -> sn_desc <$> (f <$> ns) = sn_desc <$> ns.
Proof.
  intros Hf. induction ns as [|n ns IH]; simpl; [reflexivity|].
  rewrite Hf. f_equal. exact IH.
Qed.

Lemma desc_alter (f : SimNode -> SimNode) (i : nat) (ns : list SimNode) :
  (forall n, sn_desc (f n) = sn_desc n) -> sn_desc <$> alter f i ns = sn_desc <$> ns.
Proof.
  intros Hf. revert i. induction ns as [|n ns IH]; intros [|i]; simpl; try reflexivity.
  - rewrite Hf. reflexivity.
  - f_equal. apply IH.
Qed.

Lemma chargePair_desc (i j : nat) (ns : list SimNode) :
  sn_desc <$> chargePair i j ns = sn_desc <$> ns.
Proof.
  unfold chargePair. destruct (ns !! i); [|reflexivity]. destruct (ns !! j); [|reflexivity].
  rewrite !desc_alter by reflexivity. reflexivity.
Qed.

Lemma chargeForces_desc (ns : list SimNode) :
  sn_desc <$> chargeForces ns = sn_desc <$> ns.
Proof.
  unfold chargeForces.
  apply (foldl_inv (fun acc => sn_desc <$> acc = sn_desc <$> ns)); [|reflexivity].
  intros acc i Hacc.
  apply (foldl_inv (fun acc => sn_desc <$> acc = sn_desc <$> ns)); [|exact Hacc].
  intros acc' j Hacc'. rewrite chargePair_desc. exact Hacc'.
Qed.

Lemma centreForce_desc w h centres n : sn_desc (centreForce w h centres n) = sn_desc n.
Proof. unfold centreForce. destruct (centres !! _); reflexivity. Qed.

Lemma ids_of_descs (ns ns' : list SimNode) :
  sn_desc <$> ns = sn_desc <$> ns' -> sn_id <$> ns = sn_id <$> ns'.
Proof.
  intros H. change sn_id with (nd_id ∘ sn_desc).
  rewrite !list_fmap_compose, H. reflexivity.
Qed.

Lemma buildNodeMap_ids (i : nat) (ns ns' : list SimNode) (m : gmap string nat) :
  sn_id <$> ns = sn_id <$> ns' -> buildNodeMap i ns m = buildNodeMap i ns' m.
Proof.
  revert i ns' m. induction ns as [|n ns IH]; intros i [|n' ns'] m H; simpl in *;
    try discriminate; [reflexivity|].
  injection H as Hid Hrest. rewrite Hid. apply IH, Hrest.
Qed.

Lemma resolve_ids (m : gmap string nat) (ns ns' : list SimNode) (key : string) :
  sn_id <$> ns = sn_id <$> ns' -> resolve m ns key = resolve m ns' key.
Proof.
  intros H. unfold resolve. destruct (m !! key) as [i|]; simpl; [|reflexivity].
  assert (Hi : sn_id <$> ns !! i = sn_id <$> ns' !! i).
  { rewrite <- !list_lookup_fmap, H. reflexivity. }
  destruct (ns !! i), (ns' !! i); simpl in *; congruence.
Qed.

Lemma simLinks_desc (ns ns' : list SimNode) (d : Dataset) :
  sn_desc <$> ns = sn_desc <$> ns' -> simLinks ns d = simLinks ns' d.
Proof.
  intros H. apply ids_of_descs in H. unfold simLinks.
  rewrite (buildNodeMap_ids 0 ns ns' ∅ H).
  induction (data_links d) as [|l ls IH]; [reflexivity|].
  rewrite !fmap_cons, IH. f_equal. unfold mkLink.
  rewrite !(resolve_ids _ ns ns' _ H). reflexivity.
Qed.

Lemma radius_desc (ns ns' : list SimNode) :
  sn_desc <$> ns = sn_desc <$> ns' -> radius <$> ns = radius <$> ns'.
Proof.
  revert ns'. induction ns as [|n ns IH]; intros [|n' ns'] H;
    try discriminate; [reflexivity|].
  rewrite !fmap_cons in *. injection H as Hd Hrest. rewrite (IH ns' Hrest). f_equal.
  unfold radius. rewrite Hd. reflexivity.
Qed.

Lemma simNodes_descs w h rnd d : sn_desc <$> simNodes w h rnd d = data_nodes d.
Proof.
  unfold simNodes. apply list_eq. intros i.
  rewrite list_lookup_fmap, list_lookup_imap. destruct (data_nodes d !! i); reflexivity.
Qed.

Lemma mirrors_set_nodes d g ns :
  mirrors d g -> sn_desc <$> ns = sn_desc <$> nodes g -> mirrors d (set_nodes ns g).
Proof.
  intros (Hd & Hl & Hr & Hnl & Hnt) H. unfold mirrors. simpl.
  split; [congruence|]. split; [rewrite Hl; symmetry; apply simLinks_desc, H|].
  split; [rewrite Hr; symmetry; apply radius_desc, H|]. split; [exact Hnl|].
  rewrite Hnt. rewrite <- (length_fmap sn_desc ns), H, length_fmap. reflexivity.
Qed.

Lemma mirrors_newGraph pass w h rnd d : mirrors d (newGraph pass w h rnd d).
Proof.
  unfold mirrors. simpl. split; [apply simNodes_descs|]. split; [reflexivity|].
  split; [rewrite <- list_fmap_compose; reflexivity|].
  rewrite !length_fmap. split; reflexivity.
Qed.

Lemma mirrors_alterNode d i f :
  (forall n, sn_desc (f n) = sn_desc n) -> keeps (mirrors d) (alterNode i f).
Proof.
  intros Hf. unfold alterNode. apply keeps_modify. intros g Hg.
  apply mirrors_set_nodes; [exact Hg|]. apply desc_alter, Hf.
Qed.

Lemma mirrors_map_nodes d f :
  (forall n, sn_desc (f n) = sn_desc n) ->
  keeps (mirrors d) (modify (fun g => set_nodes (f <$> nodes g) g)).
Proof.
  intros Hf. apply keeps_modify. intros g Hg.
  apply mirrors_set_nodes; [exact Hg|]. apply desc_fmap, Hf.
Qed.

Lemma mirrors_setNodeEl d i f :
  (forall el, c_r (f el) = c_r el) -> keeps (mirrors d) (setNodeEl i f).
Proof.
  intros Hf g Hg. unfold setNodeEl. destruct (nodeEls g !! i) as [el|] eqn:Hel; [|exact Hg].
  destruct Hg as (Hd & Hl & Hr & Hnl & Hnt). unfold mirrors. simpl.
  repeat (split; [assumption|]). split; [|split; assumption].
  rewrite list_fmap_insert, Hf. rewrite list_insert_id; [exact Hr|].
  rewrite list_lookup_fmap, Hel. reflexivity.
Qed.

Lemma mirrors_setLinkEl d i f : keeps (mirrors d) (setLinkEl i f).
Proof.
  intros g Hg. unfold setLinkEl. destruct (linkEls g !! i) as [el|]; [|exact Hg].
  destruct Hg as (Hd & Hl & Hr & Hnl & Hnt). unfold mirrors. simpl.
  rewrite length_insert. repeat (split; [assumption|]). exact Hnt.
Qed.

Lemma mirrors_setTextEl d i f : keeps (mirrors d) (setTextEl i f).
Proof.
  intros g Hg. unfold setTextEl. destruct (textEls g !! i) as [el|]; [|exact Hg].
  destruct Hg as (Hd & Hl & Hr & Hnl & Hnt). unfold mirrors. simpl.
  rewrite length_insert. repeat (split; [assumption|]). exact Hnt.
Qed.

End Mirror.

Ltac mirrors_step :=
  lazymatch goal with
  | |- keeps (mirrors _) (alterNode _ _) => apply mirrors_alterNode; intros ?; reflexivity
  | |- keeps (mirrors _) (setNodeEl _ _) => apply mirrors_setNodeEl; intros ?; reflexivity
  | |- keeps (mirrors _) (setLinkEl _ _) => apply mirrors_setLinkEl
  | |- keeps (mirrors _) (setTextEl _ _) => apply mirrors_setTextEl
  | |- _ => keeps_step
  end.

Ltac mirrors_kept :=
  unfold updatePositionsInstant, syncLink, syncCircle, syncText, linkForce, nodeAt,
    highlightLink, highlightNode, linkEmphasised;
  repeat mirrors_step.

Section MirrorInvariant.

Lemma tickGraph_mirrors d : keeps (mirrors d) tickGraph.
Proof.
  unfold tickGraph.
  apply keeps_bind; [apply mirrors_map_nodes; reflexivity|intros _].
  apply keeps_bind_get. intros g0 _.
  apply keeps_bind; [mirrors_kept|intros _].
  apply keeps_bind.
  { apply keeps_modify. intros g Hg. apply mirrors_set_nodes; [exact Hg|].
    apply chargeForces_desc. }
  intros _. apply keeps_bind.
  { apply keeps_modify. intros g Hg. apply mirrors_set_nodes; [exact Hg|].
    apply desc_fmap. intros n. apply centreForce_desc. }
  intros _. apply keeps_bind; [apply mirrors_map_nodes; reflexivity|intros _].
  apply keeps_bind_get. intros g1 _.
  apply keeps_bind; [mirrors_kept|intros _].
  apply keeps_bind; [mirrors_kept|intros _].
  apply keeps_modify. intros g Hg. exact Hg.
Qed.

Lemma keeps_onGraph_reflects {A} d (m : M Graph A) (dflt : A) :
  keeps (mirrors d) m -> keeps (reflects d) (onGraph m dflt).
Proof.
  intros Hm s [HD Hs]. unfold onGraph.
  destruct (graph s) as [g|] eqn:Hg; [|split; [exact HD|rewrite Hg; exact Hs]].
  destruct (Hs g eq_refl) as [Hmir Hn]. specialize (Hm g Hmir).
  destruct (m g) as [g' [a|]]; (split; [exact HD|]); simpl; intros g2 [= <-];
    (split; [exact Hm|exact Hn]).
Qed.

Lemma reflects_map_graph d st (f : Graph -> Graph) :
  (forall g, mirrors d g -> mirrors d (f g)) ->
  reflects d st -> reflects d (set_graph (f <$> graph st) st).
Proof.
  intros Hf [HD Hs]. split; [exact HD|]. simpl. intros g' Hg'.
  destruct (graph st) as [g|]; [|discriminate]. injection Hg' as <-.
  destruct (Hs g eq_refl) as [Hmir Hn]. split; [apply Hf, Hmir|exact Hn].
Qed.

End MirrorInvariant.

Ltac reflects_step :=
  lazymatch goal with
  | |- keeps (reflects _) (onGraph _ _) => apply keeps_onGraph_reflects; mirrors_kept
  | |- _ => keeps_step
  end.

Section ReflectsInvariant.

Lemma reflects_cancelTick d st : reflects d st -> reflects d (cancelTick st).
Proof. unfold cancelTick. destruct (simulationId st); intros H; exact H. Qed.

Lemma tick_reflects d : keeps (reflects d) tick.
Proof.
  unfold tick. apply keeps_bind; [apply keeps_onGraph_reflects, tickGraph_mirrors|intros _].
  repeat keeps_step; intros Hkept; exact Hkept.
Qed.

Lemma reflects_set_graph d st g g' :
  reflects d st -> graph st = Some g -> (mirrors d g -> mirrors d g') ->
  forall st', DATA st' = DATA st -> neighbourMap st' = neighbourMap st ->
  reflects d (set_graph (Some g') st').
Proof.
  intros [HD Hs] Hg Hf st' HD' Hn'. destruct (Hs g Hg) as [Hmir Hn].
  split; [simpl; congruence|]. simpl. intros g2 [= <-].
  split; [apply Hf, Hmir|congruence].
Qed.

Lemma renderGraph_reflects d w h rnd st :
  reflects d st -> reflects d (renderGraph w h rnd st).
Proof.
  intros [<- _]. split; [reflexivity|]. rewrite graph_renderGraph. intros g [= <-].
  split; [apply mirrors_newGraph|reflexivity].
Qed.

Lemma nodeMouseDown_reflects d i e : keeps (reflects d) (nodeMouseDown i e).
Proof.
  intros s Hs. unfold nodeMouseDown. rewrite (bind_eq get _ s s s eq_refl).
  destruct (graph s) as [g|] eqn:Hg; [|exact Hs].
  destruct (nodes g !! i) as [n|] eqn:Hn; [|exact Hs].
  rewrite (bind_eq (modify _) _ s _ tt eq_refl).
  assert (Hrest : keeps (reflects d)
            (modify cancelTick;; onGraph (alterNode i (set_velocity 0 0)) tt)).
  { repeat reflects_step. apply reflects_cancelTick. }
  apply Hrest.
  apply (reflects_set_graph d s g _ Hs Hg); [|reflexivity|reflexivity].
  intros Hmir. exact Hmir.
Qed.

Lemma mouseMove_reflects d e : keeps (reflects d) (mouseMove e).
Proof.
  intros s Hs. unfold mouseMove. rewrite (bind_eq get _ s s s eq_refl).
  destruct (graph s) as [g|] eqn:Hg; [|exact Hs].
  destruct (draggingNode g) as [i|].
  - assert (Hk : forall x y, keeps (reflects d)
                (onGraph (alterNode i (set_position x y);; updatePositionsInstant) tt))
      by (intros; reflects_step).
    apply Hk, Hs.
  - destruct (isPanning g); [|exact Hs].
    apply (reflects_set_graph d s g _ Hs Hg); [|reflexivity|reflexivity].
    intros Hmir. exact Hmir.
Qed.

Lemma handler_reflects d ev : keeps (reflects d) (handler ev).
Proof.
  destruct ev; simpl;
    [| | |apply nodeMouseDown_reflects| | | |apply mouseMove_reflects| | | | | |];
    unfold_handlers; repeat reflects_step;
    try (intros Hkept; exact Hkept).
  - apply renderGraph_reflects.
  - apply animationFrame_keeps; [intros ? ? ? ? Hkept; exact Hkept|apply tick_reflects].
  - intros Hs. destruct (graph s); exact Hs.
  - unfold svgMouseDown. destruct background; [|auto].
    apply reflects_map_graph. intros g Hm. exact Hm.
  - apply reflects_map_graph. intros g Hm. exact Hm.
  - apply reflects_map_graph. intros g Hm. exact Hm.
Qed.

End ReflectsInvariant.

(** X10.  However the view is used (any sequence of events, listeners
    that throw midway included), a rendered scene mirrors the dataset:
    the nodes are copies of the dataset's nodes in order, the links are
    the dataset's links resolved in the node array, every circle keeps
    the radius of its node, there is one line per link and one label per
    node, and the neighbour index is the one of the dataset's links. *)
Theorem scene_mirrors_dataset (d : Dataset) (evs : list Event) (g : Graph) :
  graph (run (initialState d) evs) = Some g ->
  sn_desc <$> nodes g = data_nodes d /\
  links g = simLinks (nodes g) d /\
  c_r <$> nodeEls g = radius <$> nodes g /\
  length (linkEls g) = length (data_links d) /\
  length (textEls g) = length (data_nodes d) /\
  neighbourMap (run (initialState d) evs) = Some (buildNeighbourMap (data_links d)) /\
  DATA (run (initialState d) evs) = d.
Proof.
  intros Hg.
  assert (H : reflects d (run (initialState d) evs)).
  { apply run_keeps; [apply handler_reflects|]. split; [reflexivity|]. intros g' Hg'. discriminate. }
  destruct H as [HD H]. destruct (H g Hg) as [(Hd & Hl & Hr & Hnl & Hnt) Hn].
  split; [exact Hd|]. split; [exact Hl|]. split; [exact Hr|].
  split; [rewrite Hnl, Hl; unfold simLinks; apply length_fmap|].
  split; [rewrite Hnt, <- Hd; symmetry; apply length_fmap|].
  split; [exact Hn|exact HD].
Qed.

Lemma scene_mirrors_dataset_witness :
  let d := mkDataset [mkNodeDesc "a" "A" "people" (Some 8%R)]
                     [mkLinkDesc "a" "a" "self" ""] in
  let g := newGraph 1 800 600 (fun _ => 0.5%R) d in
  sn_desc <$> nodes g = data_nodes d /\ links g = simLinks (nodes g) d.
Proof.
  intros d g.
  destruct (scene_mirrors_dataset d [RenderGraph 800 600 (fun _ => 0.5%R)] g eq_refl)
    as (Hd & Hl & _).
  split; [exact Hd|exact Hl].
Defined.

(** ** Selecting a link, selecting a node *)

Section Selecting.
Local Open Scope R_scope.

Lemma highlightLink_run (sel : LinkObj) (src tgt : NodeRef) (g : Graph) :
  l_source (lo_link sel) = Some src ->
  l_target (lo_link sel) = Some tgt ->
  length (nodeEls g) = length (nodes g) ->
  length (linkEls g) = length (links g) ->
  exists ces les,
    highlightLink sel g = (set_linkEls les (set_nodeEls ces g), Some tt) /\
    (forall i n, nodes g !! i = Some n ->
       ces !! i =
         (let emphasised := bool_decide (sn_id n = ref_id src \/ sn_id n = ref_id tgt) in
          circleEmphasis (if emphasised then 1 else 0.2) (if emphasised then 2 else 1))
         <$> nodeEls g !! i) /\
    (forall i (l : SimLink), links g !! i = Some l ->
       les !! i =
         (let emphasised := bool_decide (g_pass g = lo_pass sel /\ i = lo_index sel) in
          lineEmphasis (if emphasised then 1 else 0.05) (if emphasised then 2 else 1))
         <$> linkEls g !! i).
Proof.
  intros Hsrc Htgt Hn Hl.
  destruct (forEach_setNodeEl
              (fun n i =>
                 let emphasised := bool_decide (sn_id n = ref_id src \/ sn_id n = ref_id tgt) in
                 setNodeEl i (circleEmphasis (if emphasised then 1 else 0.2)
                                             (if emphasised then 2 else 1)))
              (fun _ n =>
                 let emphasised := bool_decide (sn_id n = ref_id src \/ sn_id n = ref_id tgt) in
                 circleEmphasis (if emphasised then 1 else 0.2) (if emphasised then 2 else 1))
              (nodes g) g) as (ces & Hrun1 & Hlen1 & Hces); [reflexivity|lia|].
  destruct (forEach_setLinkEl
              (fun (l : SimLink) i =>
                 let emphasised := bool_decide (g_pass g = lo_pass sel /\ i = lo_index sel) in
                 setLinkEl i (lineEmphasis (if emphasised then 1 else 0.05)
                                           (if emphasised then 2 else 1)))
              (fun i _ =>
                 let emphasised := bool_decide (g_pass g = lo_pass sel /\ i = lo_index sel) in
                 lineEmphasis (if emphasised then 1 else 0.05) (if emphasised then 2 else 1))
              (links g) (set_nodeEls ces g)) as (les & Hrun2 & Hlen2 & Hles);
    [reflexivity|simpl; lia|].
  exists ces, les. split; [|split; assumption].
  unfold highlightLink. rewrite Hsrc, Htgt, !deref_Some_bind.
  change ((get ≫= ?k) g) with (k g g). cbv beta.
  rewrite (bind_eq _ _ g (set_nodeEls ces g) tt Hrun1). exact Hrun2.
Qed.

End Selecting.

(** X11.  Selecting a link whose endpoints are node objects returns
    normally: the link becomes the selection, the node selection is
    cleared and the link panel is shown; the circles of the nodes with
    the id of either endpoint get opacity 1 and stroke width 2, the other
    circles 0.2 and 1; the line of the selected link gets opacity 1 and
    stroke width 2, every other line 0.05 and 1.  The other links are not
    inspected, so they may have missing endpoints. *)
Theorem link_selection_highlight (st : State) (g : Graph) (sel : LinkObj)
    (src tgt : NodeRef) :
  graph st = Some g ->
  length (nodeEls g) = length (nodes g) ->
  length (linkEls g) = length (links g) ->
  l_source (lo_link sel) = Some src ->
  l_target (lo_link sel) = Some tgt ->
  exists st' g',
    onLinkSelect sel st = (st', Some tt) /\
    selectedLink st' = Some sel /\ selectedNode st' = None /\ panel st' = PanelLink /\
    graph st' = Some g' /\ nodes g' = nodes g /\ links g' = links g /\
    (forall i n, nodes g !! i = Some n ->
       exists el, nodeEls g !! i = Some el /\
         nodeEls g' !! i =
           Some (if bool_decide (sn_id n = ref_id src \/ sn_id n = ref_id tgt)
                 then circleEmphasis 1 2 el else circleEmphasis 0.2 1 el)) /\
    (forall i l, links g !! i = Some l ->
       exists el, linkEls g !! i = Some el /\
         linkEls g' !! i =
           Some (if bool_decide (g_pass g = lo_pass sel /\ i = lo_index sel)
                 then lineEmphasis 1 2 el else lineEmphasis 0.05 1 el)).
Proof.
  intros Hg Hn Hl Hsrc Htgt.
  destruct (highlightLink_run sel src tgt g Hsrc Htgt Hn Hl)
    as (ces & les & Hrun & Hces & Hles).
  exists (set_panel PanelLink
            (set_graph (Some (set_linkEls les (set_nodeEls ces g)))
               (set_selection None (Some sel) st))),
         (set_linkEls les (set_nodeEls ces g)).
  split.
  { unfold onLinkSelect, highlightSelection, updateDetailsPanel.
    unfold mbind, M_bind, bind, modify, get. simpl.
    rewrite (onGraph_eq _ _ _ g) by exact Hg. simpl. rewrite Hrun. simpl.
    rewrite Hsrc, Htgt. reflexivity. }
  simpl. repeat (split; [reflexivity|]). split.
  - intros i n Hi. destruct (lookup_lt_is_Some_2 (nodeEls g) i) as [el Hel].
    { rewrite Hn. eapply lookup_lt_Some; eassumption. }
    exists el. split; [exact Hel|]. rewrite (Hces i n Hi), Hel. simpl.
    destruct (bool_decide _); reflexivity.
  - intros i l Hi. destruct (lookup_lt_is_Some_2 (linkEls g) i) as [el Hel].
    { rewrite Hl. eapply lookup_lt_Some; eassumption. }
    exists el. split; [exact Hel|]. rewrite (Hles i l Hi), Hel. simpl.
    destruct (bool_decide _); reflexivity.
Qed.

Lemma link_selection_highlight_witness :
  let sel := mkLinkObj 1 0 sceneLink in
  (onLinkSelect sel sceneState).2 = Some tt /\
  selectedLink (onLinkSelect sel sceneState).1 = Some sel.
Proof.
  intros sel.
  destruct (link_selection_highlight sceneState sceneGraph sel
              (mkNodeRef 0 "a") (mkNodeRef 1 "b") eq_refl eq_refl eq_refl eq_refl eq_refl)
    as (st' & g' & Hrun & Hsel & _).
  rewrite Hrun. split; [reflexivity|exact Hsel].
Defined.

Section NodeSelection.
Local Open Scope R_scope.

Lemma reachable_reflects (d : Dataset) (evs : list Event) :
  reflects d (run (initialState d) evs).
Proof.
  apply run_keeps; [apply handler_reflects|]. split; [reflexivity|].
  intros g Hg. discriminate.
Qed.

Lemma linkEmphasised_touches (X : NodeDesc) (l : SimLink) (src tgt : NodeRef)
    (B : Type) (k : bool -> M Graph B) :
  l_source l = Some src -> l_target l = Some tgt ->
  (linkEmphasised (Some X) l ≫= k) = k (touches (nd_id X) l).
Proof.
  intros Hs Ht. unfold linkEmphasised, touches. rewrite Hs, Ht.
  change (ref_id <$> Some src) with (Some (ref_id src)).
  change (ref_id <$> Some tgt) with (Some (ref_id tgt)).
  rewrite deref_Some_bind.
  destruct (decide (ref_id src = nd_id X)) as [He|Hne].
  - rewrite bool_decide_eq_true_2 by congruence. reflexivity.
  - rewrite (bool_decide_eq_false_2 (Some (ref_id src) = _)) by congruence.
    rewrite deref_Some_bind.
    rewrite (bool_decide_ext (Some (ref_id tgt) = Some (nd_id X)) (ref_id tgt = nd_id X)).
    + reflexivity.
    + split; congruence.
Qed.

Lemma nodeEmphasised_linked (X : NodeDesc) (ls : list LinkDesc) (n : SimNode) :
  nodeEmphasised (Some X) (buildNeighbourMap ls !! nd_id X) n = true <->
  sn_id n = nd_id X \/ linked ls (nd_id X) (sn_id n).
Proof.
  unfold nodeEmphasised. rewrite orb_true_iff, bool_decide_eq_true.
  assert (Hn : match buildNeighbourMap ls !! nd_id X with
               | Some s => bool_decide (sn_id n ∈ s)
               | None => false
               end = true <-> linked ls (nd_id X) (sn_id n)).
  { pose proof (elem_of_neighbours_foldl ls ∅ (nd_id X) (sn_id n)) as H.
    fold (buildNeighbourMap ls) in H. unfold neighbours in H.
    rewrite lookup_empty in H. simpl in H.
    destruct (buildNeighbourMap ls !! nd_id X) as [s|]; simpl in H.
    - rewrite bool_decide_eq_true, H. split; [intros [Hin|Hl]|auto].
      + by apply not_elem_of_empty in Hin.
      + exact Hl.
    - split; [discriminate|]. intros Hl.
      assert (Hin : sn_id n ∈ (∅ : gset string)) by (apply H; right; exact Hl).
      by apply not_elem_of_empty in Hin. }
  rewrite Hn. reflexivity.
Qed.

Lemma mirrored_link (d : Dataset) (g : Graph) (i : nat) (ld : LinkDesc) :
  links_valid d -> mirrors d g -> data_links d !! i = Some ld ->
  exists l src tgt,
    links g !! i = Some l /\ l_source l = Some src /\ l_target l = Some tgt /\
    ref_id src = ld_source ld /\ ref_id tgt = ld_target ld.
Proof.
  intros Hvalid (Hd & Hl & _) Hi.
  assert (Hin : ld ∈ data_links d) by (eapply list_elem_of_lookup_2; eassumption).
  destruct (Hvalid ld Hin) as [Hs Ht].
  assert (Hids : sn_id <$> nodes g = nd_id <$> data_nodes d).
  { rewrite <- Hd. change sn_id with (nd_id ∘ sn_desc). apply list_fmap_compose. }
  rewrite <- Hids in Hs, Ht.
  destruct (resolve_is_Some _ _ Hs) as [src Hsrc].
  destruct (resolve_is_Some _ _ Ht) as [tgt Htgt].
  exists (mkLink (buildNodeMap 0 (nodes g) ∅) (nodes g) ld), src, tgt.
  split; [rewrite Hl; unfold simLinks; rewrite list_lookup_fmap, Hi; reflexivity|].
  split; [exact Hsrc|]. split; [exact Htgt|].
  apply resolve_Some in Hsrc as [Hsrc _]. apply resolve_Some in Htgt as [Htgt _].
  split; assumption.
Qed.

End NodeSelection.


Section NodeSelectionExample.
Local Open Scope R_scope.


End NodeSelectionExample.

(** ** Cluster centres *)

Section Clusters.
Local Open Scope R_scope.

Lemma categories_step (acc : list string) (ns : list SimNode) :
  NoDup acc ->
  NoDup (foldl (fun acc n => if decide (sn_category n ∈ acc) then acc
                             else acc ++ [sn_category n]) acc ns) /\
  forall c, c ∈ foldl (fun acc n => if decide (sn_category n ∈ acc) then acc
                                    else acc ++ [sn_category n]) acc ns <->
            c ∈ acc \/ c ∈ (sn_category <$> ns).
Proof.
  revert acc. induction ns as [|n ns IH]; intros acc Hacc; simpl.
  - split; [exact Hacc|]. intros c. rewrite elem_of_nil. tauto.
  - destruct (decide (sn_category n ∈ acc)) as [Hin|Hnin].
    + destruct (IH acc Hacc) as [Hnd Hel]. split; [exact Hnd|].
      intros c. rewrite Hel, elem_of_cons. split; [tauto|].
      intros [H|[->|H]]; tauto.
    + assert (Hacc' : NoDup (acc ++ [sn_category n])).
      { apply NoDup_app. split; [exact Hacc|]. split; [|apply NoDup_singleton].
        intros x Hx Hx'. apply list_elem_of_singleton in Hx'. subst x. contradiction. }
      destruct (IH _ Hacc') as [Hnd Hel]. split; [exact Hnd|].
      intros c. rewrite Hel, elem_of_app, list_elem_of_singleton, elem_of_cons. tauto.
Qed.

Lemma categoriesOf_NoDup (ns : list SimNode) : NoDup (categoriesOf ns).
Proof. apply categories_step, NoDup_nil_2. Qed.

Lemma elem_of_categoriesOf (ns : list SimNode) (c : string) :
  c ∈ categoriesOf ns <-> c ∈ (sn_category <$> ns).
Proof.
  unfold categoriesOf. destruct (categories_step [] ns (NoDup_nil_2)) as [_ H].
  rewrite H, elem_of_nil. tauto.
Qed.

(** Filling an object from a list of distinct keys: every key holds the
    value computed from its index. *)
Lemma lookup_foldl_insert_indexed (F : nat -> Point) (cats : list string)
    (m : gmap string Point) (idx : nat) (cat : string) :
  NoDup cats -> cats !! idx = Some cat ->
  foldl (fun m '(i, c) => <[c := F i]> m) m (imap pair cats) !! cat = Some (F idx).
Proof.
  induction cats as [|c cats IH] using rev_ind; intros Hnd Hidx; [discriminate|].
  rewrite imap_app, foldl_app. simpl.
  apply NoDup_app in Hnd as (Hnd & Hdisj & _).
  destruct (decide (idx = length cats)) as [->|Hne].
  - rewrite list_lookup_middle in Hidx by reflexivity. injection Hidx as ->.
    rewrite Nat.add_0_r. apply lookup_insert_eq.
  - assert (Hlt : (idx < length cats)%nat).
    { apply lookup_lt_Some in Hidx. rewrite length_app in Hidx. simpl in Hidx. lia. }
    rewrite lookup_app_l in Hidx by exact Hlt.
    rewrite lookup_insert_ne.
    + apply IH; assumption.
    + intros ->. apply (Hdisj cat).
      * eapply list_elem_of_lookup_2; eassumption.
      * apply list_elem_of_singleton. reflexivity.
Qed.

End Clusters.



(** ** Nodes that share an id *)

Section SharedIds.

Lemma buildNodeMap_last (i : nat) (ns : list SimNode) (m : gmap string nat)
    (key : string) (j : nat) :
  buildNodeMap i ns m !! key = Some j ->
  forall k n, ns !! k = Some n -> sn_id n = key -> i + k <= j.
Proof.
  revert i m. induction ns as [|n0 ns IH]; intros i m Hj k n Hk Hid; [discriminate|].
  simpl in Hj. destruct k as [|k].
  - injection Hk as ->.
    apply buildNodeMap_Some in Hj as [[Hm _]|[Hle _]]; [|lia].
    rewrite Hid, lookup_insert_eq in Hm. injection Hm as <-. lia.
  - simpl in Hk. pose proof (IH (S i) _ Hj k n Hk Hid). lia.
Qed.

Lemma resolve_last (w h : R) (rnd : nat -> R) (d : Dataset) (key : string) (r : NodeRef) :
  resolve (buildNodeMap 0 (simNodes w h rnd d) ∅) (simNodes w h rnd d) key = Some r ->
  ref_id r = key /\
  (exists nd, data_nodes d !! ref_index r = Some nd /\ nd_id nd = key) /\
  forall j nd, data_nodes d !! j = Some nd -> nd_id nd = key -> j <= ref_index r.
Proof.
  intros Hr. pose proof (resolve_Some _ _ _ Hr) as (Hid & n & Hn & Hnid).
  split; [exact Hid|]. split.
  - rewrite simNodes_lookup in Hn. destruct (data_nodes d !! ref_index r) as [nd|]; [|discriminate].
    injection Hn as <-. exists nd. split; [reflexivity|exact Hnid].
  - intros j nd Hj Hndid. unfold resolve in Hr.
    destruct (buildNodeMap 0 (simNodes w h rnd d) ∅ !! key) as [i|] eqn:Hi; [|discriminate].
    simpl in Hr. destruct (simNodes w h rnd d !! i) as [n'|]; [|discriminate].
    injection Hr as <-. simpl.
    apply (buildNodeMap_last 0 _ _ _ _ Hi j (mkNode w h rnd j nd)).
    + rewrite simNodes_lookup, Hj. reflexivity.
    + exact Hndid.
Qed.

End SharedIds.

(** X15.  When several nodes of the dataset share an id, a link endpoint
    with that id is the last of them: the endpoint that [renderGraph]
    gives a link, when there is one, is the node at the greatest index
    of the dataset whose id is the link's [source] (or [target]). *)
Theorem link_endpoint_is_last_with_id (pass : nat) (w h : R) (rnd : nat -> R)
    (d : Dataset) (i : nat) (ld : LinkDesc) :
  data_links d !! i = Some ld ->
  exists l,
    links (newGraph pass w h rnd d) !! i = Some l /\
    (forall src, l_source l = Some src ->
       ref_id src = ld_source ld /\
       (exists nd, data_nodes d !! ref_index src = Some nd /\ nd_id nd = ld_source ld) /\
       forall j nd, data_nodes d !! j = Some nd -> nd_id nd = ld_source ld ->
                    j <= ref_index src) /\
    (forall tgt, l_target l = Some tgt ->
       ref_id tgt = ld_target ld /\
       (exists nd, data_nodes d !! ref_index tgt = Some nd /\ nd_id nd = ld_target ld) /\
       forall j nd, data_nodes d !! j = Some nd -> nd_id nd = ld_target ld ->
                    j <= ref_index tgt).
Proof.
  intros Hi. eexists. split.
  { cbn [links newGraph]. unfold simLinks. rewrite list_lookup_fmap, Hi. reflexivity. }
  split; intros r Hr; apply (resolve_last w h rnd d _ r Hr).
Qed.

Lemma link_endpoint_is_last_with_id_witness :
  let d := mkDataset [mkNodeDesc "a" "first" "startup" None;
                      mkNodeDesc "b" "other" "startup" None;
                      mkNodeDesc "a" "second" "person" None]
                     [mkLinkDesc "b" "a" "support" ""] in
  exists l tgt,
    links (newGraph 1 800 600 (fun _ => 0%R) d) !! 0 = Some l /\
    l_target l = Some tgt /\ ref_index tgt = 2.
Proof.
  intros d.
  destruct (link_endpoint_is_last_with_id 1 800 600 (fun _ => 0%R) d 0
              (mkLinkDesc "b" "a" "support" "") eq_refl) as (l & Hl & _ & Ht).
  assert (Hl' : links (newGraph 1 800 600 (fun _ => 0%R) d) !! 0
                = Some (mkSimLink (Some (mkNodeRef 1 "b")) (Some (mkNodeRef 2 "a"))
                                  "support" "")) by (vm_compute; reflexivity).
  exists l, (mkNodeRef 2 "a"). split; [exact Hl|].
  rewrite Hl' in Hl. injection Hl as <-. split; reflexivity.
Defined.

(** ** The forces between nodes cancel *)

Section Balance.
Local Open Scope R_scope.

Lemma sumFx_cons (n : SimNode) (ns : list SimNode) : sumFx (n :: ns) = sn_fx n + sumFx ns.
Proof. reflexivity. Qed.

Lemma sumFy_cons (n : SimNode) (ns : list SimNode) : sumFy (n :: ns) = sn_fy n + sumFy ns.
Proof. reflexivity. Qed.

Lemma sumFx_alter (f : SimNode -> SimNode) (delta : R) (i : nat) (ns : list SimNode) :
  (forall n, sn_fx (f n) = sn_fx n + delta) -> (i < length ns)%nat ->
  sumFx (alter f i ns) = sumFx ns + delta.
Proof.
  intros Hf. revert i. induction ns as [|n ns IH]; intros i Hi; simpl in Hi; [lia|].
  destruct i as [|i].
  - change (alter f 0%nat (n :: ns)) with (f n :: ns). rewrite !sumFx_cons, Hf. lra.
  - change (alter f (S i) (n :: ns)) with (n :: alter f i ns).
    rewrite !sumFx_cons, IH by lia. lra.
Qed.

Lemma sumFy_alter (f : SimNode -> SimNode) (delta : R) (i : nat) (ns : list SimNode) :
  (forall n, sn_fy (f n) = sn_fy n + delta) -> (i < length ns)%nat ->
  sumFy (alter f i ns) = sumFy ns + delta.
Proof.
  intros Hf. revert i. induction ns as [|n ns IH]; intros i Hi; simpl in Hi; [lia|].
  destruct i as [|i].
  - change (alter f 0%nat (n :: ns)) with (f n :: ns). rewrite !sumFy_cons, Hf. lra.
  - change (alter f (S i) (n :: ns)) with (n :: alter f i ns).
    rewrite !sumFy_cons, IH by lia. lra.
Qed.

Lemma opposite_forces_balance (fx fy : R) (i j : nat) (ns : list SimNode) :
  (i < length ns)%nat -> (j < length ns)%nat ->
  let ns' := alter (subForce fx fy) j (alter (addForce fx fy) i ns) in
  sumFx ns' = sumFx ns /\ sumFy ns' = sumFy ns.
Proof.
  intros Hi Hj ns'. unfold ns'. split.
  - rewrite (sumFx_alter _ (- fx)), (sumFx_alter _ fx); [lra|intros; reflexivity|exact Hi| |].
    + intros n. simpl. lra.
    + rewrite length_alter. exact Hj.
  - rewrite (sumFy_alter _ (- fy)), (sumFy_alter _ fy); [lra|intros; reflexivity|exact Hi| |].
    + intros n. simpl. lra.
    + rewrite length_alter. exact Hj.
Qed.

Lemma chargePair_balance (i j : nat) (ns : list SimNode) :
  sumFx (chargePair i j ns) = sumFx ns /\ sumFy (chargePair i j ns) = sumFy ns.
Proof.
  unfold chargePair. destruct (ns !! i) as [n1|] eqn:H1; [|split; reflexivity].
  destruct (ns !! j) as [n2|] eqn:H2; [|split; reflexivity]. cbv zeta.
  apply lookup_lt_Some in H1, H2.
  set (fx := (sn_x n2 - sn_x n1) * _). set (fy := (sn_y n2 - sn_y n1) * _).
  split.
  - rewrite (sumFx_alter _ fx), (sumFx_alter _ (- fx)); [lra| |exact H1|intros; reflexivity|].
    + intros n. simpl. lra.
    + rewrite length_alter. exact H2.
  - rewrite (sumFy_alter _ fy), (sumFy_alter _ (- fy)); [lra| |exact H1|intros; reflexivity|].
    + intros n. simpl. lra.
    + rewrite length_alter. exact H2.
Qed.

Lemma chargePair_kinematics (i j : nat) (ns : list SimNode) :
  kinematics <$> chargePair i j ns = kinematics <$> ns.
Proof.
  unfold chargePair. destruct (ns !! i); [|reflexivity]. destruct (ns !! j); [|reflexivity].
  rewrite !kinematics_alter by reflexivity. reflexivity.
Qed.

End Balance.



(** ** The watchlist *)

Section Watchlist.

Lemma watch_known (node : Entity) (watchlist : list WatchItem) :
  Exists (fun n => wi_id n = en_id node) watchlist <-> en_id node ∈ (wi_id <$> watchlist).
Proof.
  rewrite Exists_exists, list_elem_of_fmap. split.
  - intros (n & Hin & Hid). exists n. split; [congruence|exact Hin].
  - intros (n & Hid & Hin). exists n. split; [exact Hin|congruence].
Qed.

Lemma addToWatchlist_known (node : Entity) (watchlist : list WatchItem) :
  en_id node ∈ (wi_id <$> watchlist) -> addToWatchlist node watchlist = watchlist.
Proof.
  intros Hin. unfold addToWatchlist.
  destruct (decide _) as [_|Hno]; [reflexivity|]. exfalso. apply Hno, watch_known, Hin.
Qed.

Lemma addToWatchlist_new (node : Entity) (watchlist : list WatchItem) :
  en_id node ∉ (wi_id <$> watchlist) ->
  addToWatchlist node watchlist =
    watchlist ++ [mkWatchItem (en_id node) (nd_name (en_desc node)) (en_type node)].
Proof.
  intros Hnin. unfold addToWatchlist.
  destruct (decide _) as [Hyes|_]; [|reflexivity]. exfalso. apply Hnin, watch_known, Hyes.
Qed.

Lemma removeFromWatchlist_items_absent (id : string) (watchlist : list WatchItem) :
  id ∉ (wi_id <$> watchlist) -> removeFromWatchlist_items id watchlist = watchlist.
Proof.
  unfold removeFromWatchlist_items. induction watchlist as [|n l IH]; intros Hnin; [reflexivity|].
  rewrite fmap_cons in Hnin. apply not_elem_of_cons in Hnin as [Hne Hnin].
  rewrite filter_cons_True by congruence. rewrite IH by exact Hnin. reflexivity.
Qed.

Lemma watchStep_NoDup (watchlist : list WatchItem) (op : WatchOp) :
  NoDup (wi_id <$> watchlist) -> NoDup (wi_id <$> watchStep watchlist op).
Proof.
  intros Hnd. destruct op as [node|id]; simpl.
  - destruct (decide (en_id node ∈ (wi_id <$> watchlist))) as [Hin|Hnin].
    + rewrite addToWatchlist_known by exact Hin. exact Hnd.
    + rewrite addToWatchlist_new by exact Hnin. rewrite fmap_app. simpl.
      apply NoDup_app. split; [exact Hnd|]. split; [|apply NoDup_singleton].
      intros x Hx Hx'. apply list_elem_of_singleton in Hx'. subst x. contradiction.
  - assert (Hsub : (wi_id <$> removeFromWatchlist_items id watchlist)
                    `sublist_of` (wi_id <$> watchlist)).
    { apply fmap_sublist. unfold removeFromWatchlist_items. apply sublist_filter. }
    exact (sublist_NoDup _ _ Hnd Hsub).
Qed.

End Watchlist.

(** X17.  The watchlist never holds two entries with the same id: from
    a watchlist with distinct ids (the empty one at the start), every
    sequence of additions and removals gives a watchlist with distinct
    ids. *)
Theorem watchlist_ids_distinct (watchlist : list WatchItem) (ops : list WatchOp) :
  NoDup (wi_id <$> watchlist) ->
  NoDup (wi_id <$> foldl watchStep watchlist ops).
Proof.
  revert watchlist. induction ops as [|op ops IH]; intros watchlist Hnd; simpl; [exact Hnd|].
  apply IH, watchStep_NoDup, Hnd.
Qed.

Lemma watchlist_ids_distinct_witness :
  let a := mkEntity (mkNodeDesc "a" "A" "startup" None) (Some "startup") None in
  NoDup (wi_id <$> foldl watchStep [] [WatchAdd a; WatchAdd a; WatchRemove "b"]).
Proof.
  intros a. apply (watchlist_ids_distinct [] [WatchAdd a; WatchAdd a; WatchRemove "b"]).
  simpl. apply NoDup_nil_2.
Defined.

(** X18.  Adding and removing compose as expected.  After
    [addToWatchlist(node)] the id of the node is on the watchlist, after
    the removal of an id it is not; adding a node whose id is already
    there changes nothing (the entry keeps its old name and type), so
    adding twice is adding once; adding a node that was not there and
    removing its id gives back the watchlist as it was; and a removal
    keeps the entries with other ids, in their order. *)
Theorem watchlist_add_remove (node : Entity) (id : string) (watchlist : list WatchItem) :
  (en_id node ∈ (wi_id <$> addToWatchlist node watchlist)) /\
  (id ∉ (wi_id <$> removeFromWatchlist_items id watchlist)) /\
  (en_id node ∈ (wi_id <$> watchlist) -> addToWatchlist node watchlist = watchlist) /\
  addToWatchlist node (addToWatchlist node watchlist) = addToWatchlist node watchlist /\
  (en_id node ∉ (wi_id <$> watchlist) ->
   removeFromWatchlist_items (en_id node) (addToWatchlist node watchlist) = watchlist) /\
  (forall other, other <> id ->
     filter (fun n => wi_id n = other) (removeFromWatchlist_items id watchlist)
     = filter (fun n => wi_id n = other) watchlist).
Proof.
  assert (Hadd : en_id node ∈ (wi_id <$> addToWatchlist node watchlist)).
  { destruct (decide (en_id node ∈ (wi_id <$> watchlist))) as [Hin|Hnin].
    - rewrite addToWatchlist_known by exact Hin. exact Hin.
    - rewrite addToWatchlist_new by exact Hnin. rewrite fmap_app. simpl.
      apply elem_of_app. right. apply list_elem_of_singleton. reflexivity. }
  split; [exact Hadd|]. split.
  { unfold removeFromWatchlist_items. intros Hin.
    apply list_elem_of_fmap in Hin as (n & Hid & Hin).
    apply list_elem_of_filter in Hin as [Hne _]. congruence. }
  split; [apply addToWatchlist_known|].
  split; [apply addToWatchlist_known, Hadd|]. split.
  - intros Hnin. rewrite addToWatchlist_new by exact Hnin.
    unfold removeFromWatchlist_items. rewrite filter_app.
    rewrite (filter_cons_False _ (mkWatchItem _ _ _)) by (simpl; auto).
    rewrite filter_nil, app_nil_r.
    apply (removeFromWatchlist_items_absent (en_id node) watchlist Hnin).
  - intros other Hne. unfold removeFromWatchlist_items.
    rewrite list_filter_filter. apply list_filter_iff. intros n. split; [tauto|].
    intros Hn. split; [exact Hn|congruence].
Qed.

Lemma watchlist_add_remove_witness :
  let a := mkEntity (mkNodeDesc "a" "A" "startup" None) (Some "startup") None in
  removeFromWatchlist_items "a" (addToWatchlist a []) = [].
Proof.
  intros a.
  apply (proj1 (proj2 (proj2 (proj2 (proj2 (watchlist_add_remove a "a" [])))))).
  simpl. apply not_elem_of_nil.
Defined.

(** ** The suggestions *)

Section Sorting.
Local Open Scope R_scope.

Lemma insertByScore_Permutation (x : Suggestion) (l : list Suggestion) :
  insertByScore x l ≡ₚ x :: l.
Proof.
  induction l as [|y l IH]; simpl; [reflexivity|].
  destruct (decide (sg_score y <= sg_score x)); [reflexivity|].
  rewrite IH. apply Permutation_swap.
Qed.

Lemma sortByScore_Permutation (l : list Suggestion) : sortByScore l ≡ₚ l.
Proof.
  induction l as [|x l IH]; simpl; [reflexivity|].
  rewrite insertByScore_Permutation, IH. reflexivity.
Qed.

Lemma insertByScore_sorted (x : Suggestion) (l : list Suggestion) :
  StronglySorted (fun a b => sg_score b <= sg_score a) l ->
  StronglySorted (fun a b => sg_score b <= sg_score a) (insertByScore x l).
Proof.
  induction l as [|y l IH]; intros Hs; simpl.
  - constructor; [constructor|constructor].
  - destruct (decide (sg_score y <= sg_score x)) as [Hle|Hgt].
    + constructor; [exact Hs|]. constructor; [exact Hle|].
      apply StronglySorted_inv in Hs as [_ Hall].
      eapply Forall_impl; [exact Hall|]. intros z Hz. simpl in Hz. lra.
    + apply StronglySorted_inv in Hs as [Hs Hall]. constructor; [apply IH, Hs|].
      rewrite insertByScore_Permutation. constructor; [lra|exact Hall].
Qed.

Lemma sortByScore_sorted (l : list Suggestion) :
  StronglySorted (fun a b => sg_score b <= sg_score a) (sortByScore l).
Proof.
  induction l as [|x l IH]; simpl; [constructor|]. apply insertByScore_sorted, IH.
Qed.

(** The sort is stable: entries of equal score keep their order. *)
Lemma insertByScore_stable (v : R) (x : Suggestion) (l : list Suggestion) :
  filter (fun e => sg_score e = v) (insertByScore x l)
  = filter (fun e => sg_score e = v) (x :: l).
Proof.
  induction l as [|y l IH]; simpl; [reflexivity|].
  destruct (decide (sg_score y <= sg_score x)) as [Hle|Hgt]; [reflexivity|].
  rewrite (filter_cons _ y), IH, !(filter_cons _ x), !(filter_cons _ y).
  destruct (decide (sg_score x = v)) as [Hx|Hx];
    destruct (decide (sg_score y = v)) as [Hy|Hy]; try reflexivity.
  exfalso. apply Hgt. lra.
Qed.

Lemma sortByScore_stable (v : R) (l : list Suggestion) :
  filter (fun e => sg_score e = v) (sortByScore l) = filter (fun e => sg_score e = v) l.
Proof.
  induction l as [|x l IH]; simpl; [reflexivity|].
  rewrite insertByScore_stable, !(filter_cons _ x), IH. reflexivity.
Qed.

Lemma sorted_lookup (l : list Suggestion) (i j : nat) (a b : Suggestion) :
  StronglySorted (fun a b => sg_score b <= sg_score a) l ->
  (i < j)%nat -> l !! i = Some a -> l !! j = Some b -> sg_score b <= sg_score a.
Proof.
  intros Hs. revert i j. induction Hs as [|x l Hs IH Hall]; intros i j Hij Hi Hj;
    [discriminate|].
  destruct j as [|j]; [lia|]. simpl in Hj. destruct i as [|i].
  - injection Hi as <-. rewrite Forall_forall in Hall. apply Hall.
    eapply list_elem_of_lookup_2; eassumption.
  - simpl in Hi. apply (IH i j); [lia|assumption|assumption].
Qed.

Lemma take_best (n : nat) (l : list Suggestion) (c : Suggestion) :
  StronglySorted (fun a b => sg_score b <= sg_score a) l ->
  c ∈ l ->
  c ∈ take n l \/
  (length (take n l) = n /\ forall e, e ∈ take n l -> sg_score c <= sg_score e).
Proof.
  intros Hs Hc. apply list_elem_of_lookup_1 in Hc as [j Hj].
  destruct (decide (j < n)%nat) as [Hlt|Hge].
  - left. apply elem_of_take. exists j. split; assumption.
  - right. split.
    + rewrite length_take. apply lookup_lt_Some in Hj. lia.
    + intros e He. apply elem_of_take in He as (i & Hi & Hin).
      apply (sorted_lookup l i j e c Hs); [lia|assumption|assumption].
Qed.

End Sorting.



Section Scores.
Local Open Scope R_scope.

Lemma degreeAdd_lookup (m : gmap string nat) (l : LinkDesc) (id : string) :
  default 0%nat (degreeAdd m l !! id) =
  (default 0 (m !! id) + (if decide (ld_source l = id) then 1 else 0)
                       + (if decide (ld_target l = id) then 1 else 0))%nat.
Proof.
  unfold degreeAdd. cbv zeta.
  destruct (decide (ld_target l = id)) as [Ht|Ht].
  - rewrite Ht, lookup_insert_eq. simpl.
    destruct (decide (ld_source l = id)) as [Hs|Hs].
    + rewrite Hs, lookup_insert_eq. simpl. lia.
    + rewrite lookup_insert_ne by exact Hs. lia.
  - rewrite lookup_insert_ne by exact Ht.
    destruct (decide (ld_source l = id)) as [Hs|Hs].
    + rewrite Hs, lookup_insert_eq. simpl. lia.
    + rewrite lookup_insert_ne by exact Hs. lia.
Qed.

Lemma degreeMap_count (ls : list LinkDesc) (m : gmap string nat) (id : string) :
  default 0%nat (foldl degreeAdd m ls !! id) =
  (default 0 (m !! id)
   + length (filter (fun l => ld_source l = id) ls)
   + length (filter (fun l => ld_target l = id) ls))%nat.
Proof.
  revert m. induction ls as [|l ls IH]; intros m; simpl; [lia|].
  rewrite IH, degreeAdd_lookup, !(filter_cons _ l).
  destruct (decide (ld_source l = id)); destruct (decide (ld_target l = id)); simpl; lia.
Qed.

Lemma filter_length_pos {A} (P : A -> Prop) `{!forall x, Decision (P x)} (l : list A) :
  (0 < length (filter P l))%nat <-> exists x, x ∈ l /\ P x.
Proof.
  split.
  - intros Hlen. destruct (filter P l) as [|x l'] eqn:Hf; [simpl in Hlen; lia|].
    assert (Hx : x ∈ filter P l) by (rewrite Hf; apply elem_of_cons; left; reflexivity).
    apply list_elem_of_filter in Hx as [HP Hx]. exists x. split; assumption.
  - intros (x & Hx & HP).
    assert (Hx' : x ∈ filter P l) by (apply list_elem_of_filter; split; assumption).
    destruct (filter P l); [by apply elem_of_nil in Hx'|simpl; lia].
Qed.

Lemma elem_of_watchNeighbours (nbrMap : gmap string (gset string))
    (watchlist : list WatchItem) (acc : gset string) (x : string) :
  x ∈ foldl (fun acc item => acc ∪ neighbours nbrMap (wi_id item)) acc watchlist <->
  x ∈ acc \/ exists item, item ∈ watchlist /\ x ∈ neighbours nbrMap (wi_id item).
Proof.
  revert acc. induction watchlist as [|item wl IH]; intros acc; simpl.
  - split; [auto|]. intros [H|(item & Hin & _)]; [exact H|]. by apply elem_of_nil in Hin.
  - rewrite IH, elem_of_union. split.
    + intros [[H|H]|(it & Hin & H)]; [left; exact H| |].
      * right. exists item. split; [apply elem_of_cons; left; reflexivity|exact H].
      * right. exists it. split; [apply elem_of_cons; right; exact Hin|exact H].
    + intros [H|(it & Hin & H)]; [left; left; exact H|].
      apply elem_of_cons in Hin as [->|Hin]; [left; right; exact H|].
      right. exists it. split; assumption.
Qed.

Lemma neighbours_linked (ls : list LinkDesc) (a b : string) :
  b ∈ neighbours (buildNeighbourMap ls) a <-> linked ls a b.
Proof.
  unfold buildNeighbourMap. rewrite elem_of_neighbours_foldl.
  unfold neighbours at 1. rewrite lookup_empty. simpl. split; [|auto].
  intros [H|H]; [by apply not_elem_of_empty in H|exact H].
Qed.

End Scores.


(** ** Community members *)

Section Community.
Local Open Scope R_scope.

Lemma communityNode_size (toLowerCase : string -> string) (fresh : string)
    (row : CommunityRow) :
  exists s, nd_size (en_desc (communityNode toLowerCase fresh row)) = Some s /\
            s = 6 + match row_endorsements row with Some e => Rmin e 4 | None => 0 end /\
            s <= 10.
Proof.
  eexists. split; [reflexivity|]. split; [reflexivity|].
  destruct (row_endorsements row) as [e|]; [|lra].
  pose proof (Rmin_r e 4). lra.
Qed.

Lemma elem_of_imap_communityNode (toLowerCase : string -> string) (fresh : nat -> string)
    (rows : list CommunityRow) (e : Entity) :
  e ∈ imap (fun i r => communityNode toLowerCase (fresh i) r) rows ->
  exists i row, rows !! i = Some row /\ e = communityNode toLowerCase (fresh i) row.
Proof.
  intros He. apply list_elem_of_lookup_1 in He as [i Hi].
  rewrite list_lookup_imap in Hi. destruct (rows !! i) as [row|] eqn:Hrow; [|discriminate].
  injection Hi as <-. exists i, row. split; [exact Hrow|reflexivity].
Qed.

End Community.

(** X21.  The marker of a community member.  The node made from a row of
    the community table has size [6 + min(endorsements, 4)], or 6 when
    the endorsements are not a number; its marker radius is therefore
    between 4 and 5.5, and for endorsements that are absent or not
    negative it is [4.5 + min(endorsements, 4) / 4], between 4.5 and
    5.5. *)
Theorem community_marker_radius (toLowerCase : string -> string) (fresh : string)
    (row : CommunityRow) (w h : R) (rnd : nat -> R) (i : nat) :
  let n := mkNode w h rnd i (en_desc (communityNode toLowerCase fresh row)) in
  (4 <= radius n <= 5.5)%R /\
  (row_endorsements row = None -> radius n = 4.5%R) /\
  (forall e, row_endorsements row = Some e -> (0 <= e)%R ->
     radius n = (4.5 + Rmin e 4 / 4)%R /\ (4.5 <= radius n)%R).
Proof.
  intros n.
  destruct (communityNode_size toLowerCase fresh row) as (s & Hs & Hval & Hle).
  assert (Hr : radius n = if decide (s = 0%R) then 5%R else Rmax 4 (3 + s * 0.25)).
  { unfold radius, n. cbn [sn_desc mkNode]. rewrite Hs. reflexivity. }
  split; [|split].
  - rewrite Hr. destruct (decide (s = 0%R)); [lra|].
    split; [apply Rmax_l|]. apply Rmax_lub; lra.
  - intros Hnone. rewrite Hr, Hval, Hnone.
    destruct (decide ((6 + 0)%R = 0%R)) as [H0|_]; [lra|]. rewrite Rmax_right by lra. lra.
  - intros e He Hpos. rewrite Hr, Hval, He.
    assert (Hmin : (0 <= Rmin e 4)%R) by (apply Rmin_glb; lra).
    destruct (decide ((6 + Rmin e 4)%R = 0%R)) as [H0|_]; [lra|].
    rewrite Rmax_right by lra. split; lra.
Qed.

Lemma community_marker_radius_witness :
  radius (mkNode 800 600 (fun _ => 0%R) 0
            (en_desc (communityNode (fun s => s) "x"
                        (mkCommunityRow (Some "p1") None None (Some 9%R) None))))
  = (4.5 + Rmin 9 4 / 4)%R.
Proof.
  apply (community_marker_radius (fun s => s) "x"
           (mkCommunityRow (Some "p1") None None (Some 9%R) None)
           800 600 (fun _ => 0%R) 0); [reflexivity|lra].
Defined.



(** ** A tick draws what it simulates *)

Section Drawing.
Local Open Scope R_scope.

Lemma set_textEls_id (g : Graph) : set_textEls (textEls g) g = g.
Proof. destruct g. reflexivity. Qed.

Lemma set_nodes_id (g : Graph) : set_nodes (nodes g) g = g.
Proof. destruct g. reflexivity. Qed.

(** A loop that rewrites the line of every element in turn, when its
    body reads the state besides. *)
Lemma forEach_lines {A} (body : A -> nat -> M Graph unit)
    (F : nat -> A -> LineEl -> LineEl) (xs : list A) (g : Graph) :
  (forall k a els, xs !! k = Some a ->
     body a k (set_linkEls els g) = setLinkEl k (F k a) (set_linkEls els g)) ->
  (length xs <= length (linkEls g))%nat ->
  exists els, forEach body xs g = (set_linkEls els g, Some tt) /\
    length els = length (linkEls g) /\
    forall i a, xs !! i = Some a -> els !! i = F i a <$> linkEls g !! i.
Proof.
  intros Hbody Hlen.
  set (I := fun (k : nat) (g0 : Graph) =>
    exists els, g0 = set_linkEls els g /\ length els = length (linkEls g) /\
      (forall i a, (i < k)%nat -> xs !! i = Some a -> els !! i = F i a <$> linkEls g !! i) /\
      (forall i, (k <= i)%nat -> els !! i = linkEls g !! i)).
  assert (H : triple (I 0%nat) (forEach body xs) (fun _ => I (length xs)) (fun _ => False)).
  { apply triple_forEach. intros k a Hk g0 (els & -> & Hl & Hdone & Htodo).
    rewrite (Hbody k a els Hk). unfold setLinkEl. simpl.
    assert (Hlt : (k < length els)%nat).
    { rewrite Hl. apply lookup_lt_Some in Hk. lia. }
    destruct (lookup_lt_is_Some_2 _ _ Hlt) as [el Hel]. rewrite Hel.
    exists (<[k := F k a el]> els). split; [reflexivity|].
    split; [rewrite length_insert; exact Hl|]. split.
    - intros i b Hi Hb. destruct (decide (i = k)) as [->|Hne].
      + rewrite list_lookup_insert_eq by exact Hlt.
        rewrite <- (Htodo k) by lia. rewrite Hel. simpl. congruence.
      + rewrite list_lookup_insert_ne by congruence. apply Hdone; [lia|exact Hb].
    - intros i Hi. rewrite list_lookup_insert_ne by lia. apply Htodo. lia. }
  assert (H0 : I 0%nat g).
  { exists (linkEls g). split; [symmetry; apply set_linkEls_id|].
    split; [reflexivity|]. split; [intros; lia|reflexivity]. }
  specialize (H g H0). destruct (forEach body xs g) as [g' [[]|]]; [|contradiction].
  destruct H as (els & -> & Hl & Hdone & _).
  exists els. split; [reflexivity|]. split; [exact Hl|].
  intros i a Hi. apply Hdone; [|exact Hi]. eapply lookup_lt_Some; eassumption.
Qed.

(** A loop that rewrites the circle and the label of every element. *)
Lemma forEach_circles_labels {A} (body : A -> nat -> M Graph unit)
    (F : nat -> A -> CircleEl -> CircleEl) (G : nat -> A -> TextEl -> TextEl)
    (xs : list A) (g : Graph) :
  (forall k a, xs !! k = Some a -> body a k = (setNodeEl k (F k a);; setTextEl k (G k a))) ->
  (length xs <= length (nodeEls g))%nat ->
  (length xs <= length (textEls g))%nat ->
  exists ces tes,
    forEach body xs g = (set_textEls tes (set_nodeEls ces g), Some tt) /\
    length ces = length (nodeEls g) /\ length tes = length (textEls g) /\
    forall i a, xs !! i = Some a ->
      ces !! i = F i a <$> nodeEls g !! i /\ tes !! i = G i a <$> textEls g !! i.
Proof.
  intros Hbody Hlen1 Hlen2.
  set (I := fun (k : nat) (g0 : Graph) =>
    exists ces tes, g0 = set_textEls tes (set_nodeEls ces g) /\
      length ces = length (nodeEls g) /\ length tes = length (textEls g) /\
      (forall i a, (i < k)%nat -> xs !! i = Some a ->
         ces !! i = F i a <$> nodeEls g !! i /\ tes !! i = G i a <$> textEls g !! i) /\
      (forall i, (k <= i)%nat -> ces !! i = nodeEls g !! i /\ tes !! i = textEls g !! i)).
  assert (H : triple (I 0%nat) (forEach body xs) (fun _ => I (length xs)) (fun _ => False)).
  { apply triple_forEach. intros k a Hk g0 (ces & tes & -> & Hlc & Hlt & Hdone & Htodo).
    rewrite (Hbody k a Hk). unfold mbind, M_bind, bind, setNodeEl, setTextEl. simpl.
    assert (Hkc : (k < length ces)%nat).
    { rewrite Hlc. apply lookup_lt_Some in Hk. lia. }
    assert (Hkt : (k < length tes)%nat).
    { rewrite Hlt. apply lookup_lt_Some in Hk. lia. }
    destruct (lookup_lt_is_Some_2 _ _ Hkc) as [c Hc]. rewrite Hc. simpl.
    destruct (lookup_lt_is_Some_2 _ _ Hkt) as [t Ht]. rewrite Ht.
    exists (<[k := F k a c]> ces), (<[k := G k a t]> tes). split; [reflexivity|].
    split; [rewrite length_insert; exact Hlc|].
    split; [rewrite length_insert; exact Hlt|]. split.
    - intros i b Hi Hb. destruct (decide (i = k)) as [->|Hne].
      + rewrite !list_lookup_insert_eq by assumption.
        destruct (Htodo k) as [Hc' Ht']; [lia|].
        rewrite <- Hc', <- Ht', Hc, Ht. simpl. split; congruence.
      + rewrite !list_lookup_insert_ne by congruence. apply Hdone; [lia|exact Hb].
    - intros i Hi. rewrite !list_lookup_insert_ne by lia. apply Htodo. lia. }
  assert (H0 : I 0%nat g).
  { exists (nodeEls g), (textEls g). split.
    - rewrite set_nodeEls_id, set_textEls_id. reflexivity.
    - split; [reflexivity|]. split; [reflexivity|]. split; [intros; lia|auto]. }
  specialize (H g H0). destruct (forEach body xs g) as [g' [[]|]]; [|contradiction].
  destruct H as (ces & tes & -> & Hlc & Hlt & Hdone & _).
  exists ces, tes. split; [reflexivity|]. split; [exact Hlc|]. split; [exact Hlt|].
  intros i a Hi. apply Hdone; [|exact Hi]. eapply lookup_lt_Some; eassumption.
Qed.

(** The link loop of the force phase, on links with both endpoints:
    only forces change. *)
Lemma linkForces_run (ls : list SimLink) (g : Graph) :
  Forall (link_ok (length (nodes g))) ls ->
  exists ns, forEach (fun l (_ : nat) => linkForce l) ls g = (set_nodes ns g, Some tt) /\
    kinematics <$> ns = kinematics <$> nodes g.
Proof.
  intros Hok.
  set (I := fun (_ : nat) (g0 : Graph) =>
    exists ns, g0 = set_nodes ns g /\ kinematics <$> ns = kinematics <$> nodes g).
  assert (H : triple (I 0%nat) (forEach (fun l (_ : nat) => linkForce l) ls)
                     (fun _ => I (length ls)) (fun _ => False)).
  { apply triple_forEach. intros k l Hk g0 (ns & -> & Hkin).
    destruct (Forall_lookup_1 _ _ _ _ Hok Hk) as (src & tgt & Hs & Ht & Hsi & Hti).
    assert (Hlen : length ns = length (nodes g)).
    { rewrite <- (length_fmap kinematics ns), Hkin, length_fmap. reflexivity. }
    destruct (lookup_lt_is_Some_2 ns (ref_index src)) as [s Hns]; [lia|].
    destruct (lookup_lt_is_Some_2 ns (ref_index tgt)) as [t Hnt]; [lia|].
    rewrite (linkForce_resolved (set_nodes ns g) l src tgt s t Hs Ht Hns Hnt). cbv zeta.
    eexists. split; [reflexivity|].
    rewrite !kinematics_alter by reflexivity. exact Hkin. }
  assert (H0 : I 0%nat g).
  { exists (nodes g). split; [symmetry; apply set_nodes_id|reflexivity]. }
  specialize (H g H0). destruct (forEach _ ls g) as [g' [[]|]]; [|contradiction].
  destruct H as (ns & -> & Hkin). exists ns. split; [reflexivity|exact Hkin].
Qed.

End Drawing.

Section TickRun.
Local Open Scope R_scope.

Lemma bind_run {St A B} (m : M St A) (k : A -> M St B) (s s' : St) (a : A)
    (r : St * option B) :
  m s = (s', Some a) -> k a s' = r -> (m ≫= k) s = r.
Proof. intros Hm Hk. rewrite (bind_eq m k s s' a Hm). exact Hk. Qed.

Lemma bind_run_seq {St A B C} (m1 : M St A) (m2 : M St B) (k : B -> M St C)
    (s s' : St) (b : B) (r : St * option C) :
  (m1 ≫= fun _ => m2) s = (s', Some b) -> k b s' = r ->
  (m1 ≫= fun _ => m2 ≫= k) s = r.
Proof.
  unfold mbind, M_bind, bind. destruct (m1 s) as [s1 [a|]]; [|discriminate].
  destruct (m2 s1) as [s2 [b'|]]; [|discriminate]. intros [= -> ->] Hk. exact Hk.
Qed.

Lemma chargeForces_kinematics (ns : list SimNode) :
  kinematics <$> chargeForces ns = kinematics <$> ns.
Proof.
  unfold chargeForces.
  apply (foldl_inv (fun acc => kinematics <$> acc = kinematics <$> ns)); [|reflexivity].
  intros acc i Hacc.
  apply (foldl_inv (fun acc => kinematics <$> acc = kinematics <$> ns)); [|exact Hacc].
  intros acc' j Hacc'. rewrite chargePair_kinematics. exact Hacc'.
Qed.

Lemma centreForce_kinematics w h centres n :
  kinematics (centreForce w h centres n) = kinematics n.
Proof. unfold centreForce. destruct (centres !! _); reflexivity. Qed.

Lemma syncLink_lineFor (g : Graph) (l : SimLink) (k : nat) :
  link_ok (length (nodes g)) l ->
  syncLink l k g = setLinkEl k (lineFor (nodes g) l) g.
Proof.
  intros (src & tgt & Hs & Ht & Hsi & Hti).
  destruct (lookup_lt_is_Some_2 _ _ Hsi) as [s Hns].
  destruct (lookup_lt_is_Some_2 _ _ Hti) as [t Hnt].
  assert (HF : lineFor (nodes g) l = linePosition (sn_x s) (sn_y s) (sn_x t) (sn_y t)).
  { unfold lineFor. rewrite Hs, Ht, Hns, Hnt. reflexivity. }
  rewrite HF. unfold syncLink, nodeAt, mbind, M_bind, bind, get, deref, ret.
  rewrite Hs, Ht. simpl. rewrite Hns, Hnt. reflexivity.
Qed.

(** The scene synchronisation at the end of a tick. *)
Lemma sync_run (g : Graph) :
  wf_graph g ->
  exists ces les tes,
    (forEach syncLink (links g);;
     forEach (fun n i => syncCircle n i;; syncText n i) (nodes g)) g
    = (set_textEls tes (set_nodeEls ces (set_linkEls les g)), Some tt) /\
    length ces = length (nodes g) /\ length les = length (links g) /\
    length tes = length (nodes g) /\
    (forall i n, nodes g !! i = Some n ->
       ces !! i = circlePosition (sn_x n) (sn_y n) <$> nodeEls g !! i /\
       tes !! i = textPosition (sn_x n) (sn_y n - 14) <$> textEls g !! i) /\
    (forall i l, links g !! i = Some l ->
       les !! i = lineFor (nodes g) l <$> linkEls g !! i).
Proof.
  intros [Hok (_ & _ & Hnc & Hnl & Hnt)].
  destruct (forEach_lines syncLink (fun _ l => lineFor (nodes g) l) (links g) g)
    as (les & Hrun1 & Hll & Hles).
  { intros k l els Hk. apply (syncLink_lineFor (set_linkEls els g) l k).
    apply (Forall_lookup_1 _ _ _ _ Hok Hk). }
  { lia. }
  destruct (forEach_circles_labels
              (fun n i => syncCircle n i;; syncText n i)
              (fun _ n => circlePosition (sn_x n) (sn_y n))
              (fun _ n => textPosition (sn_x n) (sn_y n - 14))
              (nodes g) (set_linkEls les g))
    as (ces & tes & Hrun2 & Hlc & Hlt & Hboth);
    [reflexivity|simpl; lia|simpl; lia|].
  exists ces, les, tes. split.
  { rewrite (bind_eq _ _ g (set_linkEls les g) tt Hrun1). exact Hrun2. }
  simpl in Hlc, Hlt. split; [lia|]. split; [lia|]. split; [lia|].
  split; [exact Hboth|exact Hles].
Qed.

(** A whole tick on a well-formed graph. *)
Lemma tickGraph_run (g : Graph) :
  wf_graph g ->
  exists ns ces les tes,
    tickGraph g
    = (set_tickCount (S (tickCount g))
         (set_textEls tes (set_nodeEls ces (set_linkEls les (set_nodes ns g)))), Some tt) /\
    length ns = length (nodes g) /\
    (forall i n n', nodes g !! i = Some n -> ns !! i = Some n' ->
       sn_desc n' = sn_desc n /\
       sn_x n' = sn_x n + sn_vx n' /\ sn_y n' = sn_y n + sn_vy n') /\
    length ces = length (nodes g) /\ length les = length (links g) /\
    length tes = length (nodes g) /\
    (forall i n, ns !! i = Some n ->
       ces !! i = circlePosition (sn_x n) (sn_y n) <$> nodeEls g !! i /\
       tes !! i = textPosition (sn_x n) (sn_y n - 14) <$> textEls g !! i) /\
    (forall i l, links g !! i = Some l -> les !! i = lineFor ns l <$> linkEls g !! i).
Proof.
  intros Hwf. pose proof Hwf as [Hok Hshape].
  set (g1 := set_nodes (set_force 0 0 <$> nodes g) g).
  destruct (linkForces_run (links g) g1) as (nsA & HrunA & HkinA).
  { simpl. rewrite length_fmap. exact Hok. }
  set (nsB := centreForce (width g) (height g) (clusterCenters g) <$> chargeForces nsA).
  assert (HkinB : kinematics <$> nsB = kinematics <$> nodes g).
  { unfold nsB. rewrite kinematics_fmap by (intros; apply centreForce_kinematics).
    rewrite chargeForces_kinematics, HkinA. simpl.
    apply kinematics_fmap. reflexivity. }
  set (gD := set_nodes (integrate <$> nsB) g).
  assert (HlenD : length (integrate <$> nsB) = length (nodes g)).
  { rewrite length_fmap, <- (length_fmap kinematics nsB), HkinB, length_fmap. reflexivity. }
  assert (HwfD : wf_graph gD).
  { destruct Hshape as (_ & _ & Hc & Hl & Ht). unfold gD, wf_graph, shaped. simpl.
    rewrite HlenD. split; [exact Hok|]. split; [reflexivity|]. split; [reflexivity|].
    split; [exact Hc|]. split; [exact Hl|exact Ht]. }
  destruct (sync_run gD HwfD) as (ces & les & tes & HrunD & Hlc & Hll & Hlt & Hct & Hlines).
  exists (integrate <$> nsB), ces, les, tes. split.
  { unfold tickGraph.
    eapply bind_run; [reflexivity|]. eapply bind_run; [reflexivity|]. cbv beta.
    eapply bind_run; [exact HrunA|].
    eapply bind_run; [reflexivity|]. eapply bind_run; [reflexivity|].
    eapply bind_run; [reflexivity|]. eapply bind_run; [reflexivity|]. cbv beta.
    eapply bind_run_seq; [exact HrunD|]. reflexivity. }
  split; [exact HlenD|]. split.
  { intros i n n' Hn Hn'.
    rewrite list_lookup_fmap in Hn'. destruct (nsB !! i) as [m|] eqn:Hm; [|discriminate].
    injection Hn' as <-.
    assert (Hk : kinematics m = kinematics n).
    { assert (H : (kinematics <$> nsB) !! i = (kinematics <$> nodes g) !! i)
        by (rewrite HkinB; reflexivity).
      rewrite !list_lookup_fmap, Hm, Hn in H. simpl in H. congruence. }
    unfold kinematics in Hk. injection Hk as Hd Hx Hy Hvx Hvy.
    unfold integrate. simpl. rewrite Hd, Hx, Hy. repeat split; reflexivity. }
  simpl in Hlc, Hll, Hlt, Hct, Hlines. rewrite HlenD in Hlc, Hlt.
  split; [exact Hlc|]. split; [exact Hll|]. split; [exact Hlt|].
  split; [exact Hct|exact Hlines].
Qed.

End TickRun.

(** X23.  A tick draws what it simulates.  On a scene whose links all
    have both endpoints, a tick returns normally and counts itself;
    every node keeps its descriptor and has moved by its new velocity;
    afterwards every circle is at the position of its node, every label
    14 units above it and every line between the positions of its two
    endpoints; and the radius, the opacity and the stroke width that
    the elements had (the highlight) are untouched. *)
Theorem tick_draws_the_simulation (st : State) (g : Graph) :
  graph st = Some g ->
  wf_graph g ->
  exists st' g',
    tick st = (st', Some tt) /\ graph st' = Some g' /\
    tickCount g' = S (tickCount g) /\ links g' = links g /\
    length (nodes g') = length (nodes g) /\
    (forall i n n', nodes g !! i = Some n -> nodes g' !! i = Some n' ->
       sn_desc n' = sn_desc n /\
       sn_x n' = (sn_x n + sn_vx n')%R /\ sn_y n' = (sn_y n + sn_vy n')%R) /\
    in_sync g' /\
    circleStyle <$> nodeEls g' = circleStyle <$> nodeEls g /\
    lineStyle <$> linkEls g' = lineStyle <$> linkEls g.
Proof.
  intros Hg Hwf.
  destruct (tickGraph_run g Hwf)
    as (ns & ces & les & tes & Hrun & Hlen & Hmove & Hlc & Hll & Hlt & Hct & Hlines).
  destruct Hwf as [Hok (_ & _ & Hnc & Hnl & Hnt)].
  set (g' := set_tickCount (S (tickCount g))
               (set_textEls tes (set_nodeEls ces (set_linkEls les (set_nodes ns g))))) in *.
  assert (Hon : onGraph tickGraph tt st = (set_graph (Some g') st, Some tt)).
  { rewrite (onGraph_eq _ _ _ g Hg), Hrun. reflexivity. }
  assert (Htick : exists st', tick st = (st', Some tt) /\ graph st' = Some g').
  { unfold tick. rewrite (bind_eq _ _ st _ tt Hon).
    change ((get ≫= ?k) ?s) with (k s s). cbv beta.
    cbn [graph set_graph].
    destruct (decide (tickCount g' < maxTicks)%nat); eexists; split; reflexivity. }
  destruct Htick as (st' & Htick & Hg').
  exists st', g'. split; [exact Htick|]. split; [exact Hg'|].
  split; [reflexivity|]. split; [reflexivity|]. split; [exact Hlen|].
  split; [exact Hmove|]. split; [split|split].
  - intros i n Hn. cbn [nodes nodeEls textEls g' set_tickCount set_textEls set_nodeEls
                        set_linkEls set_nodes] in *.
    destruct (Hct i n Hn) as [Hc Ht].
    assert (Hi : (i < length (nodes g))%nat).
    { rewrite <- Hlen. eapply lookup_lt_Some; eassumption. }
    destruct (lookup_lt_is_Some_2 (nodeEls g) i) as [c Hc0]; [lia|].
    destruct (lookup_lt_is_Some_2 (textEls g) i) as [t Ht0]; [lia|].
    rewrite Hc0 in Hc. rewrite Ht0 in Ht.
    eexists _, _. split; [exact Hc|]. split; [exact Ht|]. repeat split; reflexivity.
  - intros i l src tgt s t Hl Hs Ht Hsrc Htgt.
    cbn [nodes links linkEls g' set_tickCount set_textEls set_nodeEls
         set_linkEls set_nodes] in *.
    pose proof (Hlines i l Hl) as Hline.
    destruct (lookup_lt_is_Some_2 (linkEls g) i) as [el Hel].
    { rewrite Hnl. eapply lookup_lt_Some; eassumption. }
    rewrite Hel in Hline. unfold lineFor in Hline. rewrite Hs, Ht, Hsrc, Htgt in Hline.
    eexists. split; [exact Hline|]. repeat split; reflexivity.
  - cbn [nodeEls g' set_tickCount set_textEls set_nodeEls]. apply list_eq. intros i.
    rewrite !list_lookup_fmap.
    destruct (ns !! i) as [n|] eqn:Hn.
    + destruct (Hct i n Hn) as [Hc _]. rewrite Hc.
      destruct (nodeEls g !! i); reflexivity.
    + apply lookup_ge_None in Hn.
      rewrite (lookup_ge_None_2 ces i) by lia.
      rewrite (lookup_ge_None_2 (nodeEls g) i) by lia. reflexivity.
  - cbn [linkEls g' set_tickCount set_textEls set_nodeEls set_linkEls]. apply list_eq.
    intros i. rewrite !list_lookup_fmap.
    destruct (links g !! i) as [l|] eqn:Hl.
    + rewrite (Hlines i l Hl). destruct (linkEls g !! i) as [el|]; [|reflexivity].
      simpl. f_equal. unfold lineFor.
      destruct (l_source l) as [src|], (l_target l) as [tgt|]; try reflexivity.
      destruct (ns !! ref_index src), (ns !! ref_index tgt); reflexivity.
    + apply lookup_ge_None in Hl.
      rewrite (lookup_ge_None_2 les i) by lia.
      rewrite (lookup_ge_None_2 (linkEls g) i) by lia. reflexivity.
Qed.

Lemma tick_draws_the_simulation_witness :
  exists st' g', tick sceneState = (st', Some tt) /\ graph st' = Some g' /\ in_sync g'.
Proof.
  destruct (tick_draws_the_simulation sceneState sceneGraph eq_refl)
    as (st' & g' & Hrun & Hg' & _ & _ & _ & _ & Hsync & _).
  { split; [exact sceneGraph_links_ok|]. repeat split. }
  exists st', g'. split; [exact Hrun|]. split; [exact Hg'|exact Hsync].
Defined.

(** ** A drag redraws the scene *)

Section DragDrawing.
Local Open Scope R_scope.

(** A loop that rewrites the label of every element in turn. *)
Lemma forEach_setTextEl {A} (body : A -> nat -> M Graph unit)
    (F : nat -> A -> TextEl -> TextEl) (xs : list A) (g : Graph) :
  (forall k a, xs !! k = Some a -> body a k = setTextEl k (F k a)) ->
  (length xs <= length (textEls g))%nat ->
  exists els, forEach body xs g = (set_textEls els g, Some tt) /\
    length els = length (textEls g) /\
    forall i a, xs !! i = Some a -> els !! i = F i a <$> textEls g !! i.
Proof.
  intros Hbody Hlen.
  set (I := fun (k : nat) (g0 : Graph) =>
    exists els, g0 = set_textEls els g /\ length els = length (textEls g) /\
      (forall i a, (i < k)%nat -> xs !! i = Some a -> els !! i = F i a <$> textEls g !! i) /\
      (forall i, (k <= i)%nat -> els !! i = textEls g !! i)).
  assert (H : triple (I 0%nat) (forEach body xs) (fun _ => I (length xs)) (fun _ => False)).
  { apply triple_forEach. intros k a Hk. rewrite (Hbody k a Hk).
    intros g0 (els & -> & Hl & Hdone & Htodo). unfold setTextEl. simpl.
    assert (Hlt : (k < length els)%nat).
    { rewrite Hl. apply lookup_lt_Some in Hk. lia. }
    destruct (lookup_lt_is_Some_2 _ _ Hlt) as [el Hel]. rewrite Hel.
    exists (<[k := F k a el]> els). split; [reflexivity|].
    split; [rewrite length_insert; exact Hl|]. split.
    - intros i b Hi Hb. destruct (decide (i = k)) as [->|Hne].
      + rewrite list_lookup_insert_eq by exact Hlt.
        rewrite <- (Htodo k) by lia. rewrite Hel. simpl. congruence.
      + rewrite list_lookup_insert_ne by congruence. apply Hdone; [lia|exact Hb].
    - intros i Hi. rewrite list_lookup_insert_ne by lia. apply Htodo. lia. }
  assert (H0 : I 0%nat g).
  { exists (textEls g). split; [symmetry; apply set_textEls_id|].
    split; [reflexivity|]. split; [intros; lia|reflexivity]. }
  specialize (H g H0). destruct (forEach body xs g) as [g' [[]|]]; [|contradiction].
  destruct H as (els & -> & Hl & Hdone & _).
  exists els. split; [reflexivity|]. split; [exact Hl|].
  intros i a Hi. apply Hdone; [|exact Hi]. eapply lookup_lt_Some; eassumption.
Qed.

Lemma updatePositionsInstant_run (g : Graph) :
  wf_graph g ->
  exists ces les tes,
    updatePositionsInstant g
    = (set_textEls tes (set_nodeEls ces (set_linkEls les g)), Some tt) /\
    length ces = length (nodes g) /\ length les = length (links g) /\
    length tes = length (nodes g) /\
    (forall i n, nodes g !! i = Some n ->
       ces !! i = circlePosition (sn_x n) (sn_y n) <$> nodeEls g !! i /\
       tes !! i = textPosition (sn_x n) (sn_y n - 14) <$> textEls g !! i) /\
    (forall i l, links g !! i = Some l ->
       les !! i = lineFor (nodes g) l <$> linkEls g !! i).
Proof.
  intros [Hok (_ & _ & Hnc & Hnl & Hnt)].
  destruct (forEach_lines syncLink (fun _ l => lineFor (nodes g) l) (links g) g)
    as (les & Hrun1 & Hll & Hles).
  { intros k l els Hk. apply (syncLink_lineFor (set_linkEls els g) l k).
    apply (Forall_lookup_1 _ _ _ _ Hok Hk). }
  { lia. }
  destruct (forEach_setNodeEl syncCircle (fun _ n => circlePosition (sn_x n) (sn_y n))
              (nodes g) (set_linkEls les g)) as (ces & Hrun2 & Hlc & Hces);
    [reflexivity|simpl; lia|].
  destruct (forEach_setTextEl syncText (fun _ n => textPosition (sn_x n) (sn_y n - 14))
              (nodes g) (set_nodeEls ces (set_linkEls les g))) as (tes & Hrun3 & Hlt & Htes);
    [reflexivity|simpl; lia|].
  exists ces, les, tes. split.
  { unfold updatePositionsInstant.
    eapply bind_run; [reflexivity|]. cbv beta.
    eapply bind_run; [exact Hrun1|]. eapply bind_run; [exact Hrun2|]. exact Hrun3. }
  simpl in Hlc, Hlt, Hces, Htes. split; [lia|]. split; [lia|]. split; [lia|].
  split; [|exact Hles]. intros i n Hn. split; [apply (Hces i n Hn)|apply (Htes i n Hn)].
Qed.

(** A scene redrawn from its nodes is in sync, with its styles kept. *)
Lemma redrawn_in_sync (g : Graph) (ces : list CircleEl) (les : list LineEl)
    (tes : list TextEl) :
  wf_graph g ->
  length ces = length (nodes g) -> length les = length (links g) ->
  length tes = length (nodes g) ->
  (forall i n, nodes g !! i = Some n ->
     ces !! i = circlePosition (sn_x n) (sn_y n) <$> nodeEls g !! i /\
     tes !! i = textPosition (sn_x n) (sn_y n - 14) <$> textEls g !! i) ->
  (forall i l, links g !! i = Some l ->
     les !! i = lineFor (nodes g) l <$> linkEls g !! i) ->
  let g' := set_textEls tes (set_nodeEls ces (set_linkEls les g)) in
  in_sync g' /\
  circleStyle <$> nodeEls g' = circleStyle <$> nodeEls g /\
  lineStyle <$> linkEls g' = lineStyle <$> linkEls g.
Proof.
  intros [Hok (_ & _ & Hnc & Hnl & Hnt)] Hlc Hll Hlt Hct Hlines g'.
  split; [split|split].
  - intros i n Hn. cbn [nodes nodeEls textEls g' set_textEls set_nodeEls set_linkEls] in *.
    destruct (Hct i n Hn) as [Hc Ht].
    assert (Hi : (i < length (nodes g))%nat) by (eapply lookup_lt_Some; eassumption).
    destruct (lookup_lt_is_Some_2 (nodeEls g) i) as [c Hc0]; [lia|].
    destruct (lookup_lt_is_Some_2 (textEls g) i) as [t Ht0]; [lia|].
    rewrite Hc0 in Hc. rewrite Ht0 in Ht.
    eexists _, _. split; [exact Hc|]. split; [exact Ht|]. repeat split; reflexivity.
  - intros i l src tgt s t Hl Hs Ht Hsrc Htgt.
    cbn [nodes links linkEls g' set_textEls set_nodeEls set_linkEls] in *.
    pose proof (Hlines i l Hl) as Hline.
    destruct (lookup_lt_is_Some_2 (linkEls g) i) as [el Hel].
    { rewrite Hnl. eapply lookup_lt_Some; eassumption. }
    rewrite Hel in Hline. unfold lineFor in Hline. rewrite Hs, Ht, Hsrc, Htgt in Hline.
    eexists. split; [exact Hline|]. repeat split; reflexivity.
  - cbn [nodeEls g' set_textEls set_nodeEls]. apply list_eq. intros i.
    rewrite !list_lookup_fmap.
    destruct (nodes g !! i) as [n|] eqn:Hn.
    + destruct (Hct i n Hn) as [Hc _]. rewrite Hc.
      destruct (nodeEls g !! i); reflexivity.
    + apply lookup_ge_None in Hn.
      rewrite (lookup_ge_None_2 ces i) by lia.
      rewrite (lookup_ge_None_2 (nodeEls g) i) by lia. reflexivity.
  - cbn [linkEls g' set_textEls set_nodeEls set_linkEls]. apply list_eq.
    intros i. rewrite !list_lookup_fmap.
    destruct (links g !! i) as [l|] eqn:Hl.
    + rewrite (Hlines i l Hl). destruct (linkEls g !! i) as [el|]; [|reflexivity].
      simpl. f_equal. unfold lineFor.
      destruct (l_source l) as [src|], (l_target l) as [tgt|]; try reflexivity.
      destruct (nodes g !! ref_index src), (nodes g !! ref_index tgt); reflexivity.
    + apply lookup_ge_None in Hl.
      rewrite (lookup_ge_None_2 les i) by lia.
      rewrite (lookup_ge_None_2 (linkEls g) i) by lia. reflexivity.
Qed.

End DragDrawing.

(** X24.  A pointer move during a drag redraws the whole scene.  On a
    scene whose links all have both endpoints, with a node being
    dragged, the listener returns normally; only the dragged node has
    changed, and it is at the pointer's position in simulation space
    plus the drag offset; afterwards every circle, label and line is at
    the position of its node or endpoints, with radius, opacity and
    stroke width as before; the tick count and the state of the
    simulation loop are untouched. *)
Theorem drag_redraws_scene (st : State) (g : Graph) (i : nat) (e : MouseEvent) :
  graph st = Some g ->
  wf_graph g ->
  draggingNode g = Some i ->
  exists st' g',
    mouseMove e st = (st', Some tt) /\ graph st' = Some g' /\
    nodes g' = alter (set_position (p_x (toSim st e) + p_x (dragOffset g))
                                   (p_y (toSim st e) + p_y (dragOffset g))) i (nodes g) /\
    links g' = links g /\ tickCount g' = tickCount g /\
    simulationId st' = simulationId st /\ pendingFrames st' = pendingFrames st /\
    in_sync g' /\
    circleStyle <$> nodeEls g' = circleStyle <$> nodeEls g /\
    lineStyle <$> linkEls g' = lineStyle <$> linkEls g.
Proof.
  intros Hg Hwf Hdrag.
  set (ns := alter (set_position (p_x (toSim st e) + p_x (dragOffset g))
                                 (p_y (toSim st e) + p_y (dragOffset g))) i (nodes g)).
  assert (Hwf1 : wf_graph (set_nodes ns g)).
  { destruct Hwf as [Hok (_ & _ & Hrest)]. unfold wf_graph, shaped, ns. simpl.
    rewrite length_alter. split; [exact Hok|]. split; [reflexivity|].
    split; [reflexivity|exact Hrest]. }
  destruct (updatePositionsInstant_run _ Hwf1)
    as (ces & les & tes & Hrun & Hlc & Hll & Hlt & Hct & Hlines).
  destruct (redrawn_in_sync _ ces les tes Hwf1 Hlc Hll Hlt Hct Hlines)
    as (Hsync & Hcs & Hls).
  eexists _, _. split.
  { unfold mouseMove. eapply bind_run; [reflexivity|]. cbv beta. rewrite Hg, Hdrag.
    rewrite (onGraph_eq _ _ _ g Hg).
    assert (Hm : (alterNode i (set_position (p_x (toSim st e) + p_x (dragOffset g))
                                            (p_y (toSim st e) + p_y (dragOffset g)));;
                  updatePositionsInstant) g
                 = (set_textEls tes (set_nodeEls ces (set_linkEls les (set_nodes ns g))),
                    Some tt)).
    { eapply bind_run; [reflexivity|]. exact Hrun. }
    rewrite Hm. reflexivity. }
  cbn [graph set_graph simulationId pendingFrames].
  split; [reflexivity|]. split; [reflexivity|]. split; [reflexivity|].
  split; [reflexivity|]. split; [reflexivity|]. split; [reflexivity|].
  split; [exact Hsync|]. split; [exact Hcs|exact Hls].
Qed.

Lemma drag_redraws_scene_witness :
  let g := set_drag (Some 0) (mkPoint 0 0) sceneGraph in
  let st := set_graph (Some g) sceneState in
  exists st' g', mouseMove (mkMouseEvent 10 20 0 0) st = (st', Some tt) /\
                 graph st' = Some g' /\ in_sync g'.
Proof.
  intros g st.
  destruct (drag_redraws_scene st g 0 (mkMouseEvent 10 20 0 0) eq_refl)
    as (st' & g' & Hrun & Hg' & _ & _ & _ & _ & _ & Hsync & _).
  { split; [exact sceneGraph_links_ok|]. repeat split. }
  { reflexivity. }
  exists st', g'. split; [exact Hrun|]. split; [exact Hg'|exact Hsync].
Defined.

(** ** The highlight has no memory *)

Section Memory.
Local Open Scope R_scope.

(** The highlight pass for a node or for no selection, on a scene whose
    links all have both endpoints. *)
Lemma highlightNode_wf (sel : option NodeDesc) (m : gmap string (gset string))
    (g : Graph) :
  Forall (link_ok (length (nodes g))) (links g) ->
  length (nodeEls g) = length (nodes g) ->
  length (linkEls g) = length (links g) ->
  exists ces les,
    highlightNode sel (Some m) g = (set_linkEls les (set_nodeEls ces g), Some tt) /\
    length ces = length (nodes g) /\ length les = length (links g) /\
    (forall i n, nodes g !! i = Some n ->
       ces !! i = circleEmphasis
                    (if nodeEmphasised sel (if sel is Some X then m !! nd_id X else None) n
                     then 1 else 0.2)
                    (nodeStroke sel n) <$> nodeEls g !! i) /\
    (forall i l, links g !! i = Some l ->
       les !! i = lineEmphasis
                    (if (if sel is Some X then touches (nd_id X) l else true)
                     then 1 else 0.05) 1 <$> linkEls g !! i).
Proof.
  intros Hok Hn Hl.
  apply (highlightNode_run sel (Some m) (if sel is Some X then m !! nd_id X else None)
           (fun l => if sel is Some X then touches (nd_id X) l else true) g);
    [| |exact Hn|exact Hl].
  - destruct sel as [X|]; [|reflexivity]. exists m. split; reflexivity.
  - intros l B k Hin. destruct sel as [X|]; [|reflexivity].
    rewrite Forall_forall in Hok. destruct (Hok l Hin) as (src & tgt & Hs & Ht & _).
    apply (linkEmphasised_touches X l src tgt B k Hs Ht).
Qed.

Lemma circleEmphasis_twice (o1 s1 o2 s2 : R) (el : CircleEl) :
  circleEmphasis o2 s2 (circleEmphasis o1 s1 el) = circleEmphasis o2 s2 el.
Proof. reflexivity. Qed.

Lemma lineEmphasis_twice (o1 s1 o2 s2 : R) (el : LineEl) :
  lineEmphasis o2 s2 (lineEmphasis o1 s1 el) = lineEmphasis o2 s2 el.
Proof. reflexivity. Qed.

End Memory.


